(** * Weave Image Lab: the pattern validator and the slice-wise pixel
      permutation of [ImageProcessor.processImage]

    The development embeds two pieces of the application:

    - the inline validation block shared by [handleCreateSection] and
      [handleSaveEdit] (components/SectionCreator.tsx and
      components/DatabaseSectionCreator.tsx), together with the JavaScript
      [parseInt] and [String] conversions it relies on;
    - [processImage] (components/ImageProcessor.tsx), written in a small
      state-and-exception monad over a heap of typed arrays, so that the
      input buffer, the freshly allocated output buffer and the sequence of
      [setProgress] calls are all observable.

    JavaScript numbers that the code manipulates here are integers (array
    indices, byte values, pattern entries); they are modelled by [Z] and
    [nat], which is exact as long as they stay below 2^53.  The progress
    percentage is the only fractional quantity; it is computed in binary64
    arithmetic, every double being the rational that it denotes.  A string
    is a sequence of 8-bit code units; the name check of
    [handleCreateSection] is also stated over UTF-16 code units. *)

From Stdlib Require Import ZArith QArith Qround Qpower Qabs Lqa SpecFloat.
From Stdlib Require Import Strings.Byte Ascii String DecimalString DecimalNat.
Close Scope Q_scope.
From stdpp Require Import base numbers list strings.

(** ** JavaScript numbers and strings *)

(** The result of [parseInt]: either [NaN] or an integer. *)
Inductive number := NaN | Num (z : Z).

#[global] Instance number_eq_dec : EqDecision number.
Proof. solve_decision. Defined.

Module JS.
Local Open Scope Z_scope.

(** White space skipped by [parseInt] and [trim] (WhiteSpace and
    LineTerminator code units below 256: TAB, LF, VT, FF, CR, SP, NBSP). *)
Definition is_StrWhiteSpaceChar (c : ascii) : bool :=
  let n := nat_of_ascii c in
  ((n =? 9) || (n =? 10) || (n =? 11) || (n =? 12) || (n =? 13)
   || (n =? 32) || (n =? 160))%nat.

Fixpoint trimStart (s : string) : string :=
  match s with
  | String c r => if is_StrWhiteSpaceChar c then trimStart r else s
  | EmptyString => EmptyString
  end.

Definition trimEnd (s : string) : string :=
  String.rev (trimStart (String.rev s)).

Definition trim (s : string) : string := trimEnd (trimStart s).

(** Value of a code unit read as a digit in some radix up to 36. *)
Definition digit_value (c : ascii) : option Z :=
  let n := Z.of_nat (nat_of_ascii c) in
  if (48 <=? n) && (n <=? 57) then Some (n - 48)
  else if (97 <=? n) && (n <=? 122) then Some (n - 87)
  else if (65 <=? n) && (n <=? 90) then Some (n - 55)
  else None.

Definition radix_digit (R : Z) (c : ascii) : option Z :=
  match digit_value c with
  | Some d => if d <? R then Some d else None
  | None => None
  end.

(** The longest prefix of radix-[R] digits, read as an integer; [acc] is
    [None] as long as no digit has been consumed. *)
Fixpoint parse_digits (R : Z) (s : string) (acc : option Z) : option Z :=
  match s with
  | String c r =>
      match radix_digit R c with
      | Some d => parse_digits R r (Some (R * default 0 acc + d))
      | None => acc
      end
  | EmptyString => acc
  end.

(** [parseInt(string)] with the radix argument absent (ECMA-262, 19.2.5):
    skip leading white space, read an optional sign, switch to radix 16
    after a [0x]/[0X] prefix, read the longest digit prefix and ignore the
    rest of the text; [NaN] when there is no digit. *)
Definition parseInt (input : string) : number :=
  let S0 := trimStart input in
  let '(sign, S1) :=
    match S0 with
    | String "-" r => (-1, r)
    | String "+" r => (1, r)
    | _ => (1, S0)
    end in
  let '(R, S2) :=
    match S1 with
    | String "0" (String "x" r) => (16, r)
    | String "0" (String "X" r) => (16, r)
    | _ => (10, S1)
    end in
  match parse_digits R S2 None with
  | Some m => Num (sign * m)
  | None => NaN
  end.

Definition isNaN (n : number) : bool :=
  match n with NaN => true | Num _ => false end.

(** [String(n)] on the numbers above: the decimal numeral. *)
Definition decimal (n : nat) : string :=
  NilZero.string_of_uint (Nat.to_uint n).

Definition ToString (n : number) : string :=
  match n with
  | NaN => "NaN"
  | Num z => if z <? 0 then String "-" (decimal (Z.to_nat (- z)))
             else decimal (Z.to_nat z)
  end.

End JS.

(** ** Pattern validation (handleCreateSection / handleSaveEdit) *)

(** The two [toast.error] exits of the validation block. *)
Inductive ValidationError :=
| InvalidRange    (* "Pattern must contain numbers between 1 and N" *)
| DuplicateValue. (* "Pattern cannot contain duplicate numbers" *)

Inductive validation :=
| Rejected (e : ValidationError)
| Accepted (pattern : list number).

(** [p < 1 || p > size]; every comparison with [NaN] is false. *)
Definition out_of_range (size : Z) (p : number) : bool :=
  match p with
  | NaN => false
  | Num z => (z <? 1)%Z || (z >? size)%Z
  end.

(** [new Set(pattern).size] *)
Definition Set_size (pattern : list number) : nat :=
  length (remove_dups pattern).

(** The validation block, from the text fields to the stored pattern:
<<
    const pattern = newSectionPattern.map(p => parseInt(p));
    if (pattern.some(isNaN) || pattern.some(p => p < 1 || p > size)) ...
    if (new Set(pattern).size !== pattern.length) ...
>> *)
Definition validate (size : Z) (fields : list string) : validation :=
  let pattern := map JS.parseInt fields in
  if existsb JS.isNaN pattern || existsb (out_of_range size) pattern
  then Rejected InvalidRange
  else if negb (Set_size pattern =? length pattern)%nat
  then Rejected DuplicateValue
  else Accepted pattern.

(** A stored section; [id] and [created_at] belong to the storage layer
    and play no part here. *)
Record PixelSection := mkSection {
  name : string;
  size : Z;
  pattern : list number
}.

Inductive handler_result :=
| ToastError (why : option ValidationError)  (* [None]: "Please enter a section name" *)
| Stored (section : PixelSection).

Definition handleCreateSection
    (newSectionName : string) (newSectionSize : Z)
    (newSectionPattern : list string) : handler_result :=
  if String.eqb (JS.trim newSectionName) "" then ToastError None
  else match validate newSectionSize newSectionPattern with
       | Rejected e => ToastError (Some e)
       | Accepted pattern => Stored (mkSection newSectionName newSectionSize pattern)
       end.

(** [handleEditSection] fills the edit fields with [section.pattern.map(String)]
    and [handleSaveEdit] validates them against the size of the section being
    edited (the one [sections.find] returns). *)
Definition handleEditSection (section : PixelSection) : list string :=
  map JS.ToString (pattern section).

Definition handleSaveEdit (section : PixelSection) (editPattern : list string)
  : handler_result :=
  match validate (size section) editPattern with
  | Rejected e => ToastError (Some e)
  | Accepted pattern => Stored (mkSection (name section) (size section) pattern)
  end.

(** ** The heap of typed arrays and the component state *)

(** A [Uint8ClampedArray] is a cell of the heap; an [ImageData] object holds
    the address of its [data] array, so that two [ImageData] objects may or
    may not share their bytes. *)
Definition loc := nat.

Record ImageData := mkImageData {
  width : nat;
  height : nat;
  data : loc
}.

Inductive toast :=
| toast_error (msg : string)
| toast_success (msg : string).

Record State := mkState {
  heap : list (list byte);
  processing : bool;
  progress_log : list Q;       (* arguments of the [setProgress] calls, oldest first *)
  processedImageData : option ImageData;
  toasts : list toast          (* oldest first *)
}.

Definition upd_heap (f : list (list byte) → list (list byte)) (s : State) : State :=
  mkState (f (heap s)) (processing s) (progress_log s) (processedImageData s) (toasts s).

Inductive exn := TypeError | IndexSizeError.

(** A computation returns, throws, or never finishes. *)
Inductive result (A : Type) :=
| Ret (s : State) (a : A)
| Throw (s : State) (e : exn)
| Hang.
Arguments Ret {A} s a.
Arguments Throw {A} s e.
Arguments Hang {A}.

Definition M (A : Type) : Type := State → result A.

#[global] Instance M_ret : MRet M := λ A a s, Ret s a.
#[global] Instance M_bind : MBind M := λ A B f m s,
  match m s with
  | Ret s' a => f a s'
  | Throw s' e => Throw s' e
  | Hang => Hang
  end.

Definition throw {A} (e : exn) : M A := λ s, Throw s e.

(** [try { body } catch (error) { handler } finally { cleanup }] *)
Definition try_catch_finally (body : M unit) (handler : exn → M unit)
    (cleanup : M unit) : M unit := λ s,
  match body s with
  | Ret s' _ => cleanup s'
  | Throw s' e =>
      match handler e s' with
      | Ret s'' _ => cleanup s''
      | Throw s'' e' => match cleanup s'' with
                        | Ret s3 _ => Throw s3 e'
                        | r => r
                        end
      | Hang => Hang
      end
  | Hang => Hang
  end.

(** [for (let i = 0; i < n; i++) body] *)
Fixpoint forM (xs : list nat) (body : nat → M unit) : M unit :=
  match xs with
  | [] => mret tt
  | x :: xs' => body x ;; forM xs' body
  end.

Definition for_range (n : nat) (body : nat → M unit) : M unit :=
  forM (seq 0 n) body.

(** *** Typed arrays *)

Definition byte_to_number (b : byte) : number := Num (Z.of_N (Byte.to_N b)).

(** The conversion applied by a store into a [Uint8ClampedArray]:
    [undefined] and [NaN] become 0, integers are clamped to 0..255. *)
Definition ToUint8Clamp (v : option number) : byte :=
  match v with
  | Some (Num z) =>
      default "000"%byte (Byte.of_N (Z.to_N (Z.max 0 (Z.min 255 z))))
  | _ => "000"%byte
  end.

(** [arr[i]]: [undefined] out of range. *)
Definition array_get (arr : loc) (i : nat) : M (option number) := λ s,
  Ret s (byte_to_number <$> (heap s !! arr ≫= λ bytes, bytes !! i)).

(** [arr[i] = v]: ignored out of range. *)
Definition array_set (arr : loc) (i : nat) (v : option number) : M unit := λ s,
  Ret (upd_heap (alter (λ bytes, <[i := ToUint8Clamp v]> bytes) arr) s) tt.

(** [arr.length] *)
Definition array_length (arr : loc) : M nat := λ s,
  Ret s (length (default [] (heap s !! arr))).

(** [new ImageData(width, height)]: a zero-filled array in a new cell;
    a zero dimension raises IndexSizeError. *)
Definition new_ImageData (w h : nat) : M ImageData := λ s,
  if ((w =? 0) || (h =? 0))%nat then Throw s IndexSizeError
  else Ret (upd_heap (λ hp, hp ++ [replicate (w * h * 4) "000"%byte]) s)
           (mkImageData w h (length (heap s))).

(** *** React state setters *)

Definition setProcessing (b : bool) : M unit := λ s,
  Ret (mkState (heap s) b (progress_log s) (processedImageData s) (toasts s)) tt.

Definition setProgress (q : Q) : M unit := λ s,
  Ret (mkState (heap s) (processing s) (progress_log s ++ [q])
               (processedImageData s) (toasts s)) tt.

Definition setProcessedImageData (img : ImageData) : M unit := λ s,
  Ret (mkState (heap s) (processing s) (progress_log s) (Some img) (toasts s)) tt.

Definition show_toast (t : toast) : M unit := λ s,
  Ret (mkState (heap s) (processing s) (progress_log s)
               (processedImageData s) (toasts s ++ [t])) tt.

(** ** processImage *)

(** One RGBA pixel as read from the input: four array reads. *)
Definition pixel : Type := option number * option number * option number * option number.

(** [a[n]] for an ordinary array and a number index. *)
Definition js_index {A} (a : list A) (n : number) : option A :=
  match n with
  | Num z => if (0 <=? z)%Z then a !! Z.to_nat z else None
  | NaN => None
  end.

(** [pattern[x] - 1]; [undefined - 1] is [NaN]. *)
Definition minus_one (v : option number) : number :=
  match v with
  | Some (Num z) => Num (z - 1)%Z
  | _ => NaN
  end.

(** [Math.floor(width / sectionSize)] as the bound of the slice loop.
    [width / 0] is [+Infinity] for a positive width, and [0 / 0] is [NaN],
    which no index is below. *)
Inductive loop_bound := Iterations (n : nat) | Unbounded.

Definition numCompleteSlices (w : nat) (sectionSize : Z) : loop_bound :=
  if (sectionSize =? 0)%Z
  then (if (w =? 0)%nat then Iterations 0 else Unbounded)
  else Iterations (Z.to_nat (Z.of_nat w / sectionSize)%Z).

(** ** Fractional numbers: binary64

    [(slice + 1) / numCompleteSlices] and its product by 100 are the only
    fractional Numbers of [processImage].  A finite Number is a rational
    [m * 2^e] with [|m| < 2^53] and [-1074 ≤ e], and the result of [/] or
    [*] is the exact result rounded to the nearest such rational, a tie
    going to the even [m].  The operands met here are integers below 2^53
    and the results lie in (0, 100]: division by zero and overflow to
    [Infinity], which have no rational to stand for them, do not arise. *)
Module Double.

Definition pow2 (e : Z) : Q := (2 ^ e)%Q.

(** [floor (log2 q)] for a positive [q]: the difference of the bit lengths
    of numerator and denominator, or one less. *)
Definition floor_log2 (q : Q) : Z :=
  let k := (Z.log2 (Qnum q) - Z.log2 (Zpos (Qden q)))%Z in
  if Qle_bool (pow2 k) q then k else (k - 1)%Z.

(** Nearest integer, ties to even. *)
Definition round_half_even (q : Q) : Z :=
  let f := Qfloor q in
  match (q - inject_Z f ?= 1 # 2)%Q with
  | Lt => f
  | Gt => (f + 1)%Z
  | Eq => if Z.even f then f else (f + 1)%Z
  end.

(** Exponent of the last place of the doubles around a positive [q]:
    53 significant bits, and 2^-1074 for the subnormal numbers. *)
Definition quantum (q : Q) : Z := Z.max (floor_log2 q - 52) (-1074).

Definition round_positive (q : Q) : Q :=
  (inject_Z (round_half_even (q / pow2 (quantum q))) * pow2 (quantum q))%Q.

(** The double nearest to [q], in lowest terms. *)
Definition round (q : Q) : Q :=
  let q := Qred q in
  match Qnum q with
  | Z0 => 0%Q
  | Zpos _ => Qred (round_positive q)
  | Zneg _ => Qred (- round_positive (- q))
  end.

Definition div (a b : Q) : Q := round (a / b).
Definition mul (a b : Q) : Q := round (a * b).

End Double.

(** [((slice + 1) / numCompleteSlices) * 100], two operations on doubles;
    it is evaluated inside the slice loop, hence with
    [slice < numCompleteSlices]. *)
Definition progress_value (slice n : nat) : Q :=
  Double.mul (Double.div (inject_Z (Z.of_nat (slice + 1)))
                         (inject_Z (Z.of_nat n))) 100.

(** The same expression in the Standard Library's specification of IEEE 754
    arithmetic, [SpecFloat], at the parameters of binary64 (53 bits of
    precision, exponents up to 1024). *)
Definition SF2Q (x : spec_float) : option Q :=
  match x with
  | S754_zero _ => Some 0%Q
  | S754_finite s m e =>
      Some (Qred ((if s then -1 else 1) * inject_Z (Zpos m) * Double.pow2 e))%Q
  | _ => None
  end.

Definition Z2SF (z : Z) : spec_float := binary_normalize 53 1024 z 0 false.

Definition progress_value_SpecFloat (slice n : nat) : option Q :=
  SF2Q (SFmul 53 1024
          (SFdiv 53 1024 (Z2SF (Z.of_nat (slice + 1))) (Z2SF (Z.of_nat n)))
          (Z2SF 100)).

(** The first inner loop: the pixels of row [y] of the slice, read from the
    input array into [originalRowData]. *)
Definition read_row (data : loc) (w sliceStartX y S : nat) : M (list pixel) :=
  mapM (λ x,
    let pixelIndex := ((y * w) + (sliceStartX + x)) * 4 in
    r ← array_get data pixelIndex;
    g ← array_get data (pixelIndex + 1);
    b ← array_get data (pixelIndex + 2);
    a ← array_get data (pixelIndex + 3);
    mret (r, g, b, a)) (seq 0 S)%nat.

(** The second inner loop: gather into the output array.  Reading a channel
    of an [undefined] row entry raises TypeError before anything is stored. *)
Definition write_row (newData : loc) (pattern : list number)
    (originalRowData : list pixel) (w sliceStartX y S : nat) : M unit :=
  for_range S (λ x,
    let sourceColumn := minus_one (pattern !! x) in
    let targetPixelIndex := ((y * w) + (sliceStartX + x)) * 4 in
    match js_index originalRowData sourceColumn with
    | None => throw TypeError
    | Some (r, g, b, a) =>
        array_set newData targetPixelIndex r ;;
        array_set newData (targetPixelIndex + 1) g ;;
        array_set newData (targetPixelIndex + 2) b ;;
        array_set newData (targetPixelIndex + 3) a
    end)%nat.

(** One iteration of the slice loop.  It only runs when
    [Math.floor(width / sectionSize)] is positive, hence with a positive
    [sectionSize], so that every index below is a natural number. *)
Definition process_slice (img newImageData : ImageData) (section : PixelSection)
    (n slice : nat) : M unit :=
  let S := Z.to_nat (size section) in
  let sliceStartX := (slice * S)%nat in
  for_range (height img) (λ y,
    originalRowData ← read_row (data img) (width img) sliceStartX y S;
    write_row (data newImageData) (pattern section) originalRowData
              (width img) sliceStartX y S) ;;
  setProgress (progress_value slice n).
  (* followed by [await new Promise(resolve => setTimeout(resolve, 1))],
     which only yields to the event loop *)

(** The body of the copy loop: [newData[i] = data[i]]. *)
Definition copy_from (data newData : loc) (i : nat) : M unit :=
  v ← array_get data i;
  array_set newData i v.

(** The body of the [try] block.  With [sectionSize = 0] the slice loop has
    the bound [+Infinity] and an iteration that reads and writes nothing, so
    it never exits. *)
Definition process_body (img : ImageData) (section : PixelSection) : M unit :=
  newImageData ← new_ImageData (width img) (height img);
  len ← array_length (data img);
  for_range len (copy_from (data img) (data newImageData)) ;;
  match numCompleteSlices (width img) (size section) with
  | Unbounded => λ _, Hang
  | Iterations n =>
      for_range n (process_slice img newImageData section n) ;;
      setProcessedImageData newImageData ;;
      (* the preview canvas and [setPreviewUrl] are outside the model *)
      show_toast (toast_success "Image processing completed!")
  end.

Definition processImage (originalImageData : option ImageData)
    (selectedSection : option PixelSection) : M unit :=
  match originalImageData, selectedSection with
  | Some img, Some section =>
      setProcessing true ;;
      setProgress 0%Q ;;
      try_catch_finally
        (process_body img section)
        (λ _, show_toast (toast_error "Failed to process image"))
        (setProcessing false ;; setProgress 0%Q)
  | _, _ =>
      show_toast (toast_error "Please upload an image and select a pattern section")
  end.

(** ** Vocabulary of the statements *)

(** Byte offset of channel [ch] of the pixel at column [x] of row [y]. *)
Definition offset (w x y ch : nat) : nat := ((y * w) + x) * 4 + ch.

(** [pattern[j] - 1] as a 0-based offset inside the slice. *)
Definition entry (pattern : list number) (j : nat) : nat :=
  match pattern !! j with
  | Some (Num z) => Z.to_nat (z - 1)
  | _ => 0
  end.

(** The column whose pixel is gathered into column [c]: inside a complete
    slice the pattern decides, beyond the last complete slice nothing moves. *)
Definition source_column (w S : nat) (pattern : list number) (c : nat) : nat :=
  if c <? (w / S) * S then (c / S) * S + entry pattern (c mod S) else c.

(** An [ImageData] of the state: its array is allocated and has four bytes
    per pixel; both dimensions are positive. *)
Definition wf_image (s : State) (img : ImageData) (bytes : list byte) : Prop :=
  heap s !! data img = Some bytes ∧
  length bytes = width img * height img * 4 ∧
  0 < width img ∧ 0 < height img.

(** Every entry of the pattern is an integer of [1..S] and there are [S]
    of them: what [processImage] needs in order not to fail. *)
Definition in_range_pattern (S : nat) (pattern : list number) : Prop :=
  length pattern = S ∧
  ∀ j, j < S → ∃ z, pattern !! j = Some (Num z) ∧ (1 ≤ z ≤ Z.of_nat S)%Z.

(** A validated pattern of the data model: a permutation of [1..S]. *)
Definition numbers_1_to (S : nat) : list number :=
  (λ n, Num (Z.of_nat n)) <$> seq 1 S.

Definition is_permutation_pattern (S : nat) (pattern : list number) : Prop :=
  pattern ≡ₚ numbers_1_to S.

Definition identity_pattern (S : nat) : list number := numbers_1_to S.

(** Position of the first occurrence of [v] (the length when absent). *)
Fixpoint index_of (v : number) (pattern : list number) : nat :=
  match pattern with
  | [] => 0
  | p :: rest => if decide (p = v) then 0 else S (index_of v rest)
  end.

(** The inverse permutation: entry [j] is the 1-based position of [j+1]. *)
Definition inverse_pattern (pattern : list number) : list number :=
  (λ n, Num (Z.of_nat (index_of (Num (Z.of_nat n)) pattern) + 1)) <$>
    seq 1 (length pattern).

(** The pixel at column [x] of row [y]: its four bytes. *)
Definition pixel_at (bytes : list byte) (w x y : nat) : list (option byte) :=
  (λ ch, bytes !! offset w x y ch) <$> seq 0 4.

(** Row [y] of slice [i]: its [S] pixels from left to right. *)
Definition row_slice (bytes : list byte) (w S i y : nat) : list (list (option byte)) :=
  (λ j, pixel_at bytes w (i * S + j) y) <$> seq 0 S.

(** The state reached by the loops of [processImage]: the old heap [hp],
    the output array in the next cell, and the progress log. *)
Definition loop_state (hp : list (list byte)) (pr : bool)
    (pid : option ImageData) (ts : list toast)
    (arr : list byte) (log : list Q) : State :=
  mkState (hp ++ [arr]) pr log pid ts.

(** [g] overwrites the indices of region [R] with the bytes prescribed by
    [v] and leaves every other index alone. *)
Definition paints (R : nat → Prop) (v : nat → byte)
    (g : list byte → list byte) : Prop :=
  ∀ arr, length (g arr) = length arr ∧
    ∀ k, (R k ∧ (k < length arr → g arr !! k = Some (v k))) ∨
         (¬ R k ∧ g arr !! k = arr !! k).

(** What a load from the input array yields, and what storing it back
    leaves in the output array. *)
Definition load (bytes : list byte) (i : nat) : option number :=
  byte_to_number <$> bytes !! i.

Definition stored (bytes : list byte) (i : nat) : byte :=
  ToUint8Clamp (load bytes i).

(** Source byte index of output index [k] under the gather. *)
Definition source_index (w S : nat) (pattern : list number) (k : nat) : nat :=
  let c := (k / 4) mod w in
  offset w ((c / S) * S + entry pattern (c mod S)) (k / 4 / w) (k mod 4).

(** The byte that the gather prescribes for output index [k]. *)
Definition gathered (bytes : list byte) (w S : nat) (pattern : list number)
    (k : nat) : byte :=
  stored bytes (source_index w S pattern k).

(** The pure effect of the loops on the output array. *)
Definition copy_step (bytes : list byte) (i : nat) (arr : list byte) : list byte :=
  <[i := stored bytes i]> arr.

Definition write_pixel (bytes : list byte) (w S : nat) (pattern : list number)
    (slice y x : nat) (arr : list byte) : list byte :=
  let t := ((y * w) + (slice * S + x)) * 4 in
  let p := ((y * w) + (slice * S + entry pattern x)) * 4 in
  <[t + 3 := stored bytes (p + 3)]>
    (<[t + 2 := stored bytes (p + 2)]>
      (<[t + 1 := stored bytes (p + 1)]>
        (<[t := stored bytes p]> arr))).

Definition write_row_pure (bytes : list byte) (w S : nat) (pattern : list number)
    (slice y : nat) (arr : list byte) : list byte :=
  foldl (λ a x, write_pixel bytes w S pattern slice y x a) arr (seq 0 S).

Definition write_slice_pure (bytes : list byte) (w h S : nat)
    (pattern : list number) (slice : nat) (arr : list byte) : list byte :=
  foldl (λ a y, write_row_pure bytes w S pattern slice y a) arr (seq 0 h).

Definition gather (bytes : list byte) (w h S : nat) (pattern : list number)
  : list byte :=
  foldl (λ a slice, write_slice_pure bytes w h S pattern slice a)
        bytes (seq 0 (w / S)).

(** A section as the data model wants it: a size of at least 1 and a
    pattern that is a permutation of [1..size]. *)
Definition valid_section (section : PixelSection) : Prop :=
  (1 ≤ size section)%Z ∧
  is_permutation_pattern (Z.to_nat (size section)) (pattern section).

#[global] Instance is_permutation_pattern_dec S pattern :
  Decision (is_permutation_pattern S pattern).
Proof. unfold is_permutation_pattern. apply _. Defined.

#[global] Instance valid_section_dec section : Decision (valid_section section).
Proof. unfold valid_section. apply _. Defined.

(** [processImage] ran to completion from [s] on [img]: it reported
    success and left [out], whose array holds [outbytes], in
    [processedImageData]. *)
Definition processed (s : State) (img : ImageData) (section : PixelSection)
    (s' : State) (out : ImageData) (outbytes : list byte) : Prop :=
  processImage (Some img) (Some section) s = Ret s' tt ∧
  toasts s' = toasts s ++ [toast_success "Image processing completed!"] ∧
  processedImageData s' = Some out ∧
  heap s' !! data out = Some outbytes.

(** Concrete inputs used to exercise the statements: a 4x1 and a 3x1 image
    whose pixels are A = (1,2,3,4), B = (5,6,7,8), C = (9,10,11,12) and
    D = (13,14,15,16), and the pattern [3,1,2]. *)
Definition bytes_of (l : list N) : list byte := omap Byte.of_N l.

Definition pixels_ABCD : list byte :=
  bytes_of [1; 2; 3; 4; 5; 6; 7; 8; 9; 10; 11; 12; 13; 14; 15; 16]%N.

Definition pixels_ABC : list byte :=
  bytes_of [1; 2; 3; 4; 5; 6; 7; 8; 9; 10; 11; 12]%N.

Definition pixels_CAB : list byte :=
  bytes_of [9; 10; 11; 12; 1; 2; 3; 4; 5; 6; 7; 8]%N.

Definition state_of (arrays : list (list byte)) : State :=
  mkState arrays false [] None [].

Definition section_312 : PixelSection :=
  mkSection "example" 3 [Num 3; Num 1; Num 2].

(** [m] leaves the cells below address [n] as they are, whether it
    returns or throws. *)
Definition keeps_cells {A} (n : nat) (m : M A) : Prop :=
  ∀ s, match m s with
       | Ret s' _ | Throw s' _ => ∀ l, l < n → heap s' !! l = heap s !! l
       | Hang => True
       end.

Definition pixels_AB : list byte := bytes_of [1; 2; 3; 4; 5; 6; 7; 8]%N.

(** The progress stream as the specification words it: completion ratios
    of [0, 1], never decreasing, the last one exactly 1. *)
Definition completion_ratios_as_specified (reports : list Q) : Prop :=
  Forall (λ q, 0 <= q ∧ q <= 1)%Q reports ∧
  (∀ i a b, reports !! i = Some a → reports !! S i = Some b → (a <= b)%Q) ∧
  ∃ q, last reports = Some q ∧ (q == 1)%Q.

(** Vocabulary for the validator: a parsed value inside or outside
    [1..size], and a text field that denotes an integer (an optional sign
    and decimal digits, nothing else). *)
Definition in_range (size : Z) (v : number) : Prop :=
  ∃ z, v = Num z ∧ (1 ≤ z ≤ size)%Z.

Definition out_of_bounds (size : Z) (v : number) : Prop :=
  v = NaN ∨ ∃ z, v = Num z ∧ (z < 1 ∨ size < z)%Z.

Definition is_decimal_digit (c : ascii) : bool :=
  let n := nat_of_ascii c in (48 <=? n) && (n <=? 57).

Fixpoint all_digits (s : string) : bool :=
  match s with
  | EmptyString => true
  | String c r => is_decimal_digit c && all_digits r
  end.

Definition is_integer_text (s : string) : bool :=
  match s with
  | String "-" r | String "+" r => negb (String.eqb r "") && all_digits r
  | _ => negb (String.eqb s "") && all_digits s
  end.

(** ** Vocabulary for arbitrary runs *)

Definition success_toast : toast :=
  toast_success "Image processing completed!".

Definition failure_toast : toast :=
  toast_error "Failed to process image".

(** [originalRowData[pattern[j] - 1]] is defined: entry [j] of the pattern
    is an integer of [1..S]. *)
Definition entry_in_range (S : nat) (pattern : list number) (j : nat) : bool :=
  match pattern !! j with
  | Some (Num z) => (1 <=? z)%Z && (z <=? Z.of_nat S)%Z
  | _ => false
  end.

(** The entries that the gather loop reads, those below [S], are all in
    range. *)
Definition readable_pattern (S : nat) (pattern : list number) : bool :=
  forallb (entry_in_range S pattern) (seq 0 S).

(** Every outcome of [m], returned or thrown, is related by [R] to the
    state [m] started from. *)
Definition outcome_related {A} (R : State → State → Prop) (m : M A) : Prop :=
  ∀ s, match m s with
       | Ret s' _ | Throw s' _ => R s s'
       | Hang => True
       end.

Definition never_hangs {A} (m : M A) : Prop := ∀ s, m s ≠ Hang.

Definition always_returns {A} (m : M A) : Prop := ∀ s, ∃ s' a, m s = Ret s' a.

(** What the loops of [processImage] may change besides the heap: they
    only add progress reports. *)
Definition loop_effect (s s' : State) : Prop :=
  toasts s' = toasts s ∧
  processedImageData s' = processedImageData s ∧
  processing s' = processing s ∧
  ∃ reports, progress_log s' = progress_log s ++ reports.

(** The array of row data that the first inner loop builds in state [s]. *)
Definition row_read (s : State) (input : loc) (w start y S : nat) : list pixel :=
  (λ x, let p := ((y * w) + (start + x)) * 4 in
        let get i := byte_to_number <$> (heap s !! input ≫= λ bytes, bytes !! i) in
        (get p, get (p + 1), get (p + 2), get (p + 3))) <$> seq 0 S.

(** The pattern that does in one run what [first] and then [second] do in
    two: its entry [j] is [first[second[j] - 1]]. *)
Definition compose_pattern (first second : list number) : list number :=
  (λ j, default NaN (first !! entry second j)) <$> seq 0 (length second).

(** ** The creation form *)

(** The size box: [setNewSectionSize(parseInt(e.target.value) || 6)]; [NaN]
    and 0 are the falsy results. *)
Definition sizeOnChange (value : string) : Z :=
  match JS.parseInt value with
  | Num z => if (z =? 0)%Z then 6%Z else z
  | NaN => 6%Z
  end.

(** [Array(newSectionSize).fill("")], which the effect on [newSectionSize]
    and [handleCreateSection] lay the fields out with; a negative length
    raises RangeError. *)
Definition blank_fields (newSectionSize : Z) : option (list string) :=
  if (newSectionSize <? 0)%Z then None
  else Some (replicate (Z.to_nat newSectionSize) "").

(** The change handler of the field at position [index], one of the
    fields on screen:
    [newPattern = [...newSectionPattern]; newPattern[index] = value]. *)
Definition fieldOnChange (newSectionPattern : list string)
    (index : nat) (value : string) : list string :=
  <[index := value]> newSectionPattern.

Definition type_in_fields (fields : list string)
    (edits : list (nat * string)) : list string :=
  foldl (λ f e, fieldOnChange f e.1 e.2) fields edits.

Fixpoint all_white_space (s : string) : bool :=
  match s with
  | EmptyString => true
  | String c r => JS.is_StrWhiteSpaceChar c && all_white_space r
  end.

(** ** The local section list (SectionCreator)

    The component keeps its sections in React state; the selection passed
    to [onSectionSelect] is the parent's.  [createdAt] plays no part. *)

Module SectionCreator.

Record SavedSection := mkSaved {
  id : string;
  saved : PixelSection
}.

Record Component := mkComponent {
  sections : list SavedSection;
  newSectionSize : Z;
  newSectionName : string;
  newSectionPattern : list string;
  editingId : option string;
  editPattern : list string;
  selectedSection : option SavedSection;
  toasted : list toast                    (* oldest first *)
}.

Definition validation_toast (size : Z) (e : ValidationError) : toast :=
  match e with
  | InvalidRange =>
      toast_error ("Pattern must contain numbers between 1 and "
                   ++ JS.ToString (Num size))
  | DuplicateValue => toast_error "Pattern cannot contain duplicate numbers"
  end.

Definition show (t : toast) (c : Component) : Component :=
  mkComponent (sections c) (newSectionSize c) (newSectionName c)
    (newSectionPattern c) (editingId c) (editPattern c) (selectedSection c)
    (toasted c ++ [t]).

(** [now] is what [Date.now()] returns.  On a negative size
    [Array(newSectionSize)] raises RangeError and the exception escapes
    the handler: [None], the state that React is left with is not
    described. *)
Definition handleCreateSection (now : Z) (c : Component) : option Component :=
  if String.eqb (JS.trim (newSectionName c)) ""
  then Some (show (toast_error "Please enter a section name") c)
  else
    match validate (newSectionSize c) (newSectionPattern c) with
    | Rejected e => Some (show (validation_toast (newSectionSize c) e) c)
    | Accepted pattern =>
        let newSection :=
          mkSaved (JS.ToString (Num now))
                  (mkSection (newSectionName c) (newSectionSize c) pattern) in
        match blank_fields (newSectionSize c) with
        | None => None
        | Some blank =>
            Some (mkComponent (sections c ++ [newSection]) (newSectionSize c)
                    "" blank (editingId c) (editPattern c) (selectedSection c)
                    (toasted c ++ [toast_success "Section created successfully!"]))
        end
    end.

(** [setSections(prev => prev.filter(s => s.id !== id))], then
    [onSectionSelect(null)] when the selected section has that id. *)
Definition handleDeleteSection (id0 : string) (c : Component) : Component :=
  mkComponent (filter (λ s, id s ≠ id0) (sections c)) (newSectionSize c)
    (newSectionName c) (newSectionPattern c) (editingId c) (editPattern c)
    (match selectedSection c with
     | Some sel => if decide (id sel = id0) then None else Some sel
     | None => None
     end)
    (toasted c ++ [toast_success "Section deleted"]).

Definition handleEditSection (section : SavedSection) (c : Component)
  : Component :=
  mkComponent (sections c) (newSectionSize c) (newSectionName c)
    (newSectionPattern c) (Some (id section))
    (map JS.ToString (pattern (saved section)))
    (selectedSection c) (toasted c).

(** The change handler of the edit field at position [index]. *)
Definition editOnChange (index : nat) (value : string) (c : Component)
  : Component :=
  mkComponent (sections c) (newSectionSize c) (newSectionName c)
    (newSectionPattern c) (editingId c)
    (fieldOnChange (editPattern c) index value)
    (selectedSection c) (toasted c).

Definition with_pattern (pattern : list number) (s : SavedSection)
  : SavedSection :=
  mkSaved (id s) (mkSection (name (saved s)) (size (saved s)) pattern).

(** [sections.find(s => s.id === id)], the validation against the size of
    the section found, then
    [prev.map(s => s.id === id ? { ...s, pattern } : s)]. *)
Definition handleSaveEdit (id0 : string) (c : Component) : Component :=
  match List.find (λ s, bool_decide (id s = id0)) (sections c) with
  | None => c
  | Some section =>
      match validate (size (saved section)) (editPattern c) with
      | Rejected e => show (validation_toast (size (saved section)) e) c
      | Accepted pattern =>
          mkComponent
            (map (λ s, if decide (id s = id0) then with_pattern pattern s else s)
                 (sections c))
            (newSectionSize c) (newSectionName c) (newSectionPattern c)
            None (editPattern c) (selectedSection c)
            (toasted c ++ [toast_success "Section updated successfully!"])
      end
  end.

Definition handleCancelEdit (c : Component) : Component :=
  mkComponent (sections c) (newSectionSize c) (newSectionName c)
    (newSectionPattern c) None [] (selectedSection c) (toasted c).

(** Every stored section is valid. *)
Definition all_valid (c : Component) : Prop :=
  Forall (λ s, valid_section (saved s)) (sections c).

(** What identifies a section in the list and never changes: its id, its
    name and its size. *)
Definition identity (s : SavedSection) : string * string * Z :=
  (id s, name (saved s), size (saved s)).

End SectionCreator.

(** ** downloadImage *)

Inductive format := png | jpg | bmp.

(** The [switch] on the format: MIME type and extension. *)
Definition mimeType (f : format) : string :=
  match f with
  | jpg => "image/jpeg"
  | bmp => "image/bmp"
  | png => "image/png"
  end.

Definition extension (f : format) : string :=
  match f with
  | jpg => "jpg"
  | bmp => "bmp"
  | png => "png"
  end.

(** [format === 'jpg' ? 0.9 : undefined] *)
Definition quality (f : format) : option Q :=
  match f with
  | jpg => Some (9 # 10)%Q
  | _ => None
  end.

(** A code unit of the class [[^/.]]. *)
Definition not_slash_or_dot (c : ascii) : bool :=
  negb (Ascii.eqb c "/") && negb (Ascii.eqb c ".").

Fixpoint plain (s : string) : bool :=
  match s with
  | EmptyString => true
  | String c r => not_slash_or_dot c && plain r
  end.

(** [name.replace(/\.[^/.]+$/, "")]: the first position, from the left,
    where a dot is followed by one code unit or more of [[^/.]] up to the
    end of the name; the name is cut there. *)
Fixpoint replace_extension (name : string) : string :=
  match name with
  | EmptyString => EmptyString
  | String c r =>
      if Ascii.eqb c "." && negb (String.eqb r "") && plain r
      then EmptyString
      else String c (replace_extension r)
  end.

(** What [downloadImage] does: an error toast, or the click on a link
    that downloads the image put on the canvas, encoded by [toBlob] with
    the MIME type and the quality given, under the file name given. *)
Inductive download :=
| DownloadError (msg : string)
| Download (image : ImageData) (mime : string) (q : option Q)
           (fileName : string).

(** The browser's part is two answers: whether [getContext('2d')] gives a
    context and whether [toBlob] calls back with a blob. *)
Definition downloadImage (originalImage : option string) (f : format)
    (ctx blob : bool) (s : State) : download :=
  match processedImageData s, originalImage with
  | Some image, Some originalName =>
      if negb ctx then DownloadError "Failed to create download canvas"
      else if negb blob then DownloadError "Failed to create download file"
      else
        Download image (mimeType f) (quality f)
          (replace_extension originalName ++ "_processed." ++ extension f)
  | _, _ => DownloadError "No processed image to download"
  end.

(** ** The slice loop, iteration by iteration

    [for (let slice = 0; slice < numCompleteSlices; slice++) { ... }],
    run for a given number of iterations at most. *)

(** [slice < numCompleteSlices]; every number is below [+Infinity]. *)
Definition below (slice : nat) (bound : loop_bound) : bool :=
  match bound with
  | Iterations n => slice <? n
  | Unbounded => true
  end.

(** The body of the slice loop up to its [setProgress]. *)
Definition slice_rows (img newImageData : ImageData) (section : PixelSection)
    (slice : nat) : M unit :=
  let S := Z.to_nat (size section) in
  let sliceStartX := (slice * S)%nat in
  for_range (height img) (λ y,
    originalRowData ← read_row (data img) (width img) sliceStartX y S;
    write_row (data newImageData) (pattern section) originalRowData
              (width img) sliceStartX y S).

(** [((slice + 1) / numCompleteSlices) * 100]; a finite number divided by
    [+Infinity] is 0, and 0 times 100 is 0. *)
Definition progress_report (bound : loop_bound) (slice : nat) : Q :=
  match bound with
  | Iterations n => progress_value slice n
  | Unbounded => 0%Q
  end.

Definition slice_iteration (img newImageData : ImageData)
    (section : PixelSection) (bound : loop_bound) (slice : nat) : M unit :=
  slice_rows img newImageData section slice ;;
  setProgress (progress_report bound slice).

(** Where a run of the loop stands: it has left the loop, or it is about
    to test the condition for iteration [slice]. *)
Inductive loop_status := Exited | Running (slice : nat).

Fixpoint slice_loop (fuel : nat) (img newImageData : ImageData)
    (section : PixelSection) (bound : loop_bound) (slice : nat)
  : M loop_status :=
  if below slice bound then
    match fuel with
    | 0 => mret (Running slice)
    | S fuel' =>
        slice_iteration img newImageData section bound slice ;;
        slice_loop fuel' img newImageData section bound (S slice)
    end
  else mret Exited.

(** The body of the [try] block with the slice loop run for [fuel]
    iterations at most; what follows the loop is run once it has exited. *)
Definition process_body_steps (fuel : nat) (img : ImageData)
    (section : PixelSection) : M loop_status :=
  newImageData ← new_ImageData (width img) (height img);
  len ← array_length (data img);
  for_range len (copy_from (data img) (data newImageData)) ;;
  status ← slice_loop fuel img newImageData section
             (numCompleteSlices (width img) (size section)) 0;
  match status with
  | Running slice => mret (Running slice)
  | Exited =>
      setProcessedImageData newImageData ;;
      show_toast (toast_success "Image processing completed!") ;;
      mret Exited
  end.

(** ** Names as sequences of UTF-16 code units

    [String.prototype.trim] strips the code points of WhiteSpace and of
    LineTerminator from both ends; each of them is one code unit. *)
Module UTF16.

(** WhiteSpace: TAB, VT, FF, ZWNBSP and the category Space_Separator (SP,
    NBSP, U+1680, U+2000 to U+200A, U+202F, U+205F, U+3000);
    LineTerminator: LF, CR, LS, PS. *)
Definition is_white_space (c : N) : bool :=
  ((c =? 0x9) || (c =? 0xB) || (c =? 0xC) || (c =? 0xFEFF)
   || (c =? 0x20) || (c =? 0xA0) || (c =? 0x1680)
   || ((0x2000 <=? c) && (c <=? 0x200A))
   || (c =? 0x202F) || (c =? 0x205F) || (c =? 0x3000)
   || (c =? 0xA) || (c =? 0xD) || (c =? 0x2028) || (c =? 0x2029))%N.

Fixpoint trimStart (s : list N) : list N :=
  match s with
  | c :: r => if is_white_space c then trimStart r else s
  | [] => []
  end.

Definition trimEnd (s : list N) : list N := rev (trimStart (rev s)).

Definition trim (s : list N) : list N := trimEnd (trimStart s).

(** The code units of a string of 8-bit code units. *)
Definition of_string (s : string) : list N :=
  N_of_ascii <$> list_ascii_of_string s.

End UTF16.

(** [!newSectionName.trim()], the guard of [handleCreateSection]: the empty
    string is the one falsy string. *)
Definition name_is_blank (newSectionName : list N) : bool :=
  match UTF16.trim newSectionName with
  | [] => true
  | _ => false
  end.

(** * Properties *)

Example parseInt_examples :
  JS.parseInt "3" = Num 3 /\ JS.parseInt " 12" = Num 12 /\
  JS.parseInt "1.5" = Num 1 /\ JS.parseInt "2abc" = Num 2 /\
  JS.parseInt "0x10" = Num 16 /\ JS.parseInt "-4" = Num (-4) /\
  JS.parseInt "" = NaN /\ JS.parseInt "abc" = NaN /\ JS.parseInt "0x" = NaN.
Proof. repeat split; reflexivity. Qed.

Example validate_examples :
  validate 3 ["3"; "1"; "2"] = Accepted [Num 3; Num 1; Num 2] /\
  validate 3 ["3"; "1"; "4"] = Rejected InvalidRange /\
  validate 3 ["3"; "1"; ""] = Rejected InvalidRange /\
  validate 3 ["3"; "1"; "1"] = Rejected DuplicateValue /\
  validate 3 ["1"; "2"] = Accepted [Num 1; Num 2] /\
  validate 2 ["1.5"; "2"] = Accepted [Num 1; Num 2].
Proof. repeat split; reflexivity. Qed.

(** ** The monad *)

Lemma bind_run {A B} (m : M A) (f : A → M B) s :
  (m ≫= f) s = match m s with
               | Ret s' a => f a s'
               | Throw s' e => Throw s' e
               | Hang => Hang
               end.
Proof. reflexivity. Qed.

Lemma mapM_pure {B} (f : nat → M B) (g : nat → B) xs s :
  (∀ x, x ∈ xs → f x s = Ret s (g x)) →
  mapM f xs s = Ret s (g <$> xs).
Proof.
  induction xs as [|x xs IH]; intros Hf; [reflexivity|].
  cbn [mapM]. rewrite bind_run, Hf by left.
  rewrite bind_run, IH; [reflexivity|].
  intros x' Hx'. apply Hf. by right.
Qed.

Lemma foldl_const {A B} (a : A) (xs : list B) : foldl (λ a' _, a') a xs = a.
Proof. induction xs; auto. Qed.

Section loops.
Context (hp : list (list byte)) (pr : bool) (pid : option ImageData)
        (ts : list toast).
Context (input : loc) (bytes : list byte).
Hypothesis Hinput : hp !! input = Some bytes.

Lemma array_get_input i arr log :
  array_get input i (loop_state hp pr pid ts arr log) = Ret (loop_state hp pr pid ts arr log) (load bytes i).
Proof.
  unfold array_get, loop_state, load; cbn.
  by rewrite (lookup_app_l_Some _ _ _ _ Hinput).
Qed.

Lemma array_set_output i v arr log :
  array_set (length hp) i v (loop_state hp pr pid ts arr log)
  = Ret (loop_state hp pr pid ts (<[i := ToUint8Clamp v]> arr) log) tt.
Proof.
  unfold array_set, loop_state, upd_heap; cbn.
  rewrite alter_app_r_alt by lia.
  by rewrite Nat.sub_diag.
Qed.

(** A loop whose iterations act on the output array by [f] and on the
    progress log by [g] acts by the folds of [f] and [g]. *)
Lemma forM_loop (f : nat → list byte → list byte) (g : nat → list Q → list Q)
    xs body :
  (∀ x arr log, x ∈ xs →
     body x (loop_state hp pr pid ts arr log) = Ret (loop_state hp pr pid ts (f x arr) (g x log)) tt) →
  ∀ arr log,
    forM xs body (loop_state hp pr pid ts arr log)
    = Ret (loop_state hp pr pid ts (foldl (λ a x, f x a) arr xs) (foldl (λ l x, g x l) log xs)) tt.
Proof.
  induction xs as [|x xs IH]; intros Hbody arr log; [reflexivity|].
  cbn [forM foldl]. rewrite bind_run, Hbody by left.
  apply IH. intros x' arr' log' Hx'. apply Hbody. by right.
Qed.

Lemma read_row_run w start y S arr log :
  read_row input w start y S (loop_state hp pr pid ts arr log)
  = Ret (loop_state hp pr pid ts arr log)
        ((λ x, let p := ((y * w) + (start + x)) * 4 in
               (load bytes p, load bytes (p + 1),
                load bytes (p + 2), load bytes (p + 3))) <$> seq 0 S).
Proof.
  unfold read_row. apply mapM_pure. intros x _.
  rewrite !bind_run, !array_get_input. cbn.
  rewrite !bind_run, !array_get_input. cbn.
  rewrite !bind_run, !array_get_input. cbn.
  rewrite !bind_run, !array_get_input. reflexivity.
Qed.

Lemma write_row_run pattern w S slice y arr log :
  in_range_pattern S pattern →
  write_row (length hp) pattern
    ((λ x, let p := ((y * w) + (slice * S + x)) * 4 in
           (load bytes p, load bytes (p + 1),
            load bytes (p + 2), load bytes (p + 3))) <$> seq 0 S)
    w (slice * S) y S (loop_state hp pr pid ts arr log)
  = Ret (loop_state hp pr pid ts (write_row_pure bytes w S pattern slice y arr) log) tt.
Proof.
  intros [_ Hrange]. unfold write_row, for_range, write_row_pure.
  rewrite (forM_loop (write_pixel bytes w S pattern slice y) (λ _ l, l)).
  { by rewrite foldl_const. }
  intros x arr' log' Hx. apply elem_of_seq in Hx.
  destruct (Hrange x) as (z & Hz & Hz1); [lia|].
  unfold write_pixel, entry. rewrite Hz. cbn [minus_one js_index].
  destruct (Z.leb_spec 0 (z - 1)) as [_|]; [|lia].
  rewrite list_lookup_fmap, lookup_seq_lt by lia. cbn.
  rewrite !bind_run, array_set_output.
  rewrite !bind_run, array_set_output.
  rewrite !bind_run, array_set_output.
  rewrite array_set_output. reflexivity.
Qed.

Lemma process_slice_run img out section n slice arr log :
  data img = input → data out = length hp →
  in_range_pattern (Z.to_nat (size section)) (pattern section) →
  process_slice img out section n slice (loop_state hp pr pid ts arr log)
  = Ret (loop_state hp pr pid ts (write_slice_pure bytes (width img) (height img)
               (Z.to_nat (size section)) (pattern section) slice arr)
            (log ++ [progress_value slice n])) tt.
Proof.
  intros Hin Hout Hpat. unfold process_slice, for_range.
  rewrite bind_run, Hin, Hout.
  rewrite (forM_loop
    (write_row_pure bytes (width img) (Z.to_nat (size section))
       (pattern section) slice) (λ _ l, l)).
  { rewrite foldl_const. reflexivity. }
  intros y arr' log' _.
  rewrite bind_run, read_row_run. by apply write_row_run.
Qed.

Lemma copy_loop_run n arr log :
  for_range n (copy_from input (length hp)) (loop_state hp pr pid ts arr log)
  = Ret (loop_state hp pr pid ts (foldl (λ a i, copy_step bytes i a) arr (seq 0 n)) log) tt.
Proof.
  unfold for_range.
  rewrite (forM_loop (copy_step bytes) (λ _ l, l)).
  { by rewrite foldl_const. }
  intros i arr' log' _. unfold copy_from.
  rewrite bind_run, array_get_input. apply array_set_output.
Qed.

Lemma slice_loop_run img out section n arr log :
  data img = input → data out = length hp →
  in_range_pattern (Z.to_nat (size section)) (pattern section) →
  for_range n (process_slice img out section n) (loop_state hp pr pid ts arr log)
  = Ret (loop_state hp pr pid ts (foldl (λ a slice,
               write_slice_pure bytes (width img) (height img)
                 (Z.to_nat (size section)) (pattern section) slice a)
               arr (seq 0 n))
            (log ++ ((λ slice, progress_value slice n) <$> seq 0 n))) tt.
Proof.
  intros Hin Hout Hpat. unfold for_range.
  rewrite (forM_loop
    (write_slice_pure bytes (width img) (height img)
       (Z.to_nat (size section)) (pattern section))
    (λ slice l, l ++ [progress_value slice n])).
  - f_equal. f_equal. generalize (seq 0 n) as xs. intros xs.
    revert log. induction xs as [|x xs IH]; intros log; cbn.
    + by rewrite app_nil_r.
    + rewrite IH, <- app_assoc. reflexivity.
  - intros slice arr' log' _. by apply process_slice_run.
Qed.

End loops.

(** ** Index arithmetic *)

Lemma offset_decode w c y ch :
  c < w → ch < 4 →
  offset w c y ch mod 4 = ch ∧
  (offset w c y ch / 4) mod w = c ∧
  offset w c y ch / 4 / w = y.
Proof.
  intros Hc Hch. unfold offset.
  assert (H4 : ((y * w + c) * 4 + ch) / 4 = y * w + c).
  { symmetry. apply (Nat.div_unique _ 4 _ ch); lia. }
  split; [|split].
  - symmetry. apply (Nat.mod_unique _ 4 (y * w + c)); lia.
  - rewrite H4. symmetry. apply (Nat.mod_unique _ w y); lia.
  - rewrite H4. symmetry. apply (Nat.div_unique _ w _ c); lia.
Qed.

Lemma offset_inj w c y ch c' y' ch' :
  c < w → ch < 4 → c' < w → ch' < 4 →
  offset w c y ch = offset w c' y' ch' → c = c' ∧ y = y' ∧ ch = ch'.
Proof.
  intros Hc Hch Hc' Hch' Heq.
  destruct (offset_decode w c y ch Hc Hch) as (H1 & H2 & H3).
  destruct (offset_decode w c' y' ch' Hc' Hch') as (H1' & H2' & H3').
  rewrite Heq in H1, H2, H3. repeat split; congruence.
Qed.

Lemma offset_lt w h c y ch :
  c < w → y < h → ch < 4 → offset w c y ch < w * h * 4.
Proof. intros. unfold offset. nia. Qed.

Lemma slice_decode S slice x :
  x < S → (slice * S + x) / S = slice ∧ (slice * S + x) mod S = x.
Proof.
  intros Hx. split; symmetry.
  - apply (Nat.div_unique _ S _ x); lia.
  - apply (Nat.mod_unique _ S slice); lia.
Qed.

Lemma complete_slice_column w S slice x :
  slice < w / S → x < S → slice * S + x < (w / S) * S ∧ (w / S) * S ≤ w.
Proof.
  intros Hs Hx. split; [nia|].
  rewrite Nat.mul_comm. apply Nat.Div0.mul_div_le.
Qed.

Lemma source_index_offset w S pattern slice x y ch :
  x < S → slice * S + x < w → ch < 4 →
  source_index w S pattern (offset w (slice * S + x) y ch)
  = offset w (slice * S + entry pattern x) y ch.
Proof.
  intros Hx Hc Hch. unfold source_index.
  destruct (offset_decode w (slice * S + x) y ch Hc Hch) as (-> & -> & ->).
  by destruct (slice_decode S slice x Hx) as [-> ->].
Qed.

Lemma entry_lt S pattern j :
  in_range_pattern S pattern → j < S → entry pattern j < S.
Proof.
  intros [_ H] Hj. destruct (H j Hj) as (z & Hz & Hz1).
  unfold entry. rewrite Hz. lia.
Qed.

Lemma source_column_lt w S pattern c :
  0 < S → in_range_pattern S pattern →
  c < w → source_column w S pattern c < w.
Proof.
  intros HS Hpattern Hc. unfold source_column.
  destruct (Nat.ltb_spec c (w / S * S)) as [Hlt|]; [|done].
  assert (c / S < w / S) by (apply Nat.Div0.div_lt_upper_bound; lia).
  pose proof (entry_lt S pattern (c mod S) Hpattern
                (Nat.mod_upper_bound c S ltac:(lia))).
  destruct (complete_slice_column w S (c / S) (entry pattern (c mod S)));
    lia.
Qed.

(** ** Stores into the output array *)

Lemma ToUint8Clamp_byte b : ToUint8Clamp (Some (byte_to_number b)) = b.
Proof. destruct b; reflexivity. Qed.

Lemma stored_lookup bytes i b : bytes !! i = Some b → stored bytes i = b.
Proof.
  intros H. unfold stored, load. rewrite H. apply ToUint8Clamp_byte.
Qed.

Lemma paints_nothing v : paints (λ _, False) v (λ arr, arr).
Proof. intros arr. split; [done|]. intros k. right. tauto. Qed.

Lemma paints_then R1 R2 v g1 g2 :
  paints R1 v g1 → paints R2 v g2 →
  paints (λ k, R1 k ∨ R2 k) v (λ arr, g2 (g1 arr)).
Proof.
  intros H1 H2 arr.
  destruct (H1 arr) as [Hl1 Hk1]. destruct (H2 (g1 arr)) as [Hl2 Hk2].
  split; [congruence|]. intros k.
  destruct (Hk2 k) as [[Hr Hv]|[Hr Hv]].
  - left. split; [tauto|]. intros Hlt. apply Hv. lia.
  - destruct (Hk1 k) as [[Hr1 Hv1]|[Hr1 Hv1]].
    + left. split; [tauto|]. intros Hlt. rewrite Hv. by apply Hv1.
    + right. split; [tauto|]. congruence.
Qed.

Lemma paints_region R R' v g :
  (∀ k, R k ↔ R' k) → paints R v g → paints R' v g.
Proof.
  intros HR H arr. destruct (H arr) as [Hl Hk]. split; [done|].
  intros k. destruct (Hk k) as [[? ?]|[? ?]]; [left|right]; split; auto;
    by rewrite <- HR.
Qed.

Lemma paints_foldl (R : nat → nat → Prop) v (f : nat → list byte → list byte) xs :
  (∀ i, i ∈ xs → paints (R i) v (f i)) →
  paints (λ k, ∃ i, i ∈ xs ∧ R i k) v (λ arr, foldl (λ a i, f i a) arr xs).
Proof.
  induction xs as [|x xs IH]; intros Hf.
  - eapply paints_region; [|apply paints_nothing].
    intros k. split; [done|]. intros (i & Hi & _). by apply elem_of_nil in Hi.
  - cbn [foldl].
    assert (Hx : paints (R x) v (f x)) by (apply Hf; by left).
    assert (Hxs : paints (λ k, ∃ i, i ∈ xs ∧ R i k) v
                    (λ arr, foldl (λ a i, f i a) arr xs)).
    { apply IH. intros i Hi. apply Hf. by right. }
    eapply paints_region; [|exact (paints_then _ _ v _ _ Hx Hxs)].
    intros k. cbn. split.
    + intros [H|(i & Hi & H)]; [exists x | exists i]; split; auto;
        [by left | by right].
    + intros (i & Hi & H). apply elem_of_cons in Hi as [->|Hi]; eauto.
Qed.

Lemma paints_insert v i :
  paints (λ k, k = i) v (λ arr, <[i := v i]> arr).
Proof.
  intros arr. split; [apply length_insert|]. intros k.
  destruct (decide (k = i)) as [->|Hne].
  - left. split; [done|]. intros Hlt. by apply list_lookup_insert_eq.
  - right. split; [done|]. by apply list_lookup_insert_ne.
Qed.

Lemma paints_ext R R' v g g' :
  (∀ k, R k ↔ R' k) → (∀ arr, g arr = g' arr) →
  paints R v g → paints R' v g'.
Proof.
  intros HR Hg H. apply (paints_region R); [done|].
  intros arr. rewrite <- Hg. apply H.
Qed.

(** The copy loop leaves an exact copy of the input in an array of the
    same length. *)
Lemma copy_loop_copies bytes arr :
  length arr = length bytes →
  foldl (λ a i, copy_step bytes i a) arr (seq 0 (length bytes)) = bytes.
Proof.
  intros Hlen.
  pose proof (paints_foldl (λ i k, k = i) (stored bytes) (copy_step bytes)
                (seq 0 (length bytes))) as Hp.
  destruct (Hp (λ i _, paints_insert (stored bytes) i) arr) as [Hl Hk].
  apply list_eq. intros k.
  destruct (Hk k) as [[(i & Hi & ->) Hv]|[Hr Hv]].
  - apply elem_of_seq in Hi.
    rewrite Hv by lia.
    destruct (lookup_lt_is_Some_2 bytes i) as [b Hb]; [lia|].
    rewrite Hb. f_equal. by apply stored_lookup.
  - rewrite Hv.
    destruct (decide (k < length bytes)) as [Hlt|Hge].
    + exfalso. apply Hr. exists k. split; [|done]. apply elem_of_seq. lia.
    + rewrite !lookup_ge_None_2 by lia. done.
Qed.

Section gather.
Context (bytes : list byte) (w h S : nat) (pattern : list number).
Hypothesis HS : 0 < S.

Lemma paints_write_pixel slice y x :
  x < S → slice * S + x < w →
  paints (λ k, ∃ ch, ch < 4 ∧ k = offset w (slice * S + x) y ch) (gathered bytes w S pattern)
         (write_pixel bytes w S pattern slice y x).
Proof.
  intros Hx Hc.
  pose (o := offset w (slice * S + x) y).
  eapply (paints_ext
    (λ k, ((k = o 0 ∨ k = o 1) ∨ k = o 2) ∨ k = o 3) _ _
    (λ arr, <[o 3 := (gathered bytes w S pattern) (o 3)]>
              (<[o 2 := (gathered bytes w S pattern) (o 2)]>
                (<[o 1 := (gathered bytes w S pattern) (o 1)]>
                  (<[o 0 := (gathered bytes w S pattern) (o 0)]> arr))))).
  - intros k. split.
    + intros [[[->| ->]| ->]| ->]; eexists; (split; [|reflexivity]); lia.
    + intros (ch & Hch & ->).
      destruct ch as [|[|[|[|?]]]]; [tauto..|lia].
  - intros arr. unfold write_pixel, gathered, o.
    rewrite !source_index_offset by lia.
    unfold offset. rewrite !Nat.add_0_r. reflexivity.
  - repeat apply paints_then;
      first [ exact (paints_insert (gathered bytes w S pattern) (o 0))
            | exact (paints_insert (gathered bytes w S pattern) (o 1))
            | exact (paints_insert (gathered bytes w S pattern) (o 2))
            | exact (paints_insert (gathered bytes w S pattern) (o 3)) ].
Qed.

(** The three nested loops overwrite exactly the bytes of the complete
    slices, each with the byte the gather prescribes. *)
Lemma paints_gather :
  paints (λ k, ∃ slice, slice ∈ seq 0 (w / S) ∧
               ∃ y, y ∈ seq 0 h ∧
               ∃ x, x ∈ seq 0 S ∧
               ∃ ch, ch < 4 ∧ k = offset w (slice * S + x) y ch)
         (gathered bytes w S pattern)
         (λ arr, foldl (λ a slice, write_slice_pure bytes w h S pattern slice a)
                       arr (seq 0 (w / S))).
Proof.
  apply (paints_foldl _ (gathered bytes w S pattern)
           (λ slice, write_slice_pure bytes w h S pattern slice)).
  intros slice Hslice. apply elem_of_seq in Hslice.
  apply (paints_foldl _ (gathered bytes w S pattern)
           (λ y, write_row_pure bytes w S pattern slice y)).
  intros y _.
  apply (paints_foldl _ (gathered bytes w S pattern)
           (λ x, write_pixel bytes w S pattern slice y x)).
  intros x Hx. apply elem_of_seq in Hx.
  apply paints_write_pixel; [lia|].
  destruct (complete_slice_column w S slice x); lia.
Qed.

Lemma length_gather : length (gather bytes w h S pattern) = length bytes.
Proof. apply paints_gather. Qed.

Hypothesis Hbytes : length bytes = w * h * 4.
Hypothesis Hpattern : in_range_pattern S pattern.

(** Pointwise description of the output array. *)
Lemma gather_lookup c y ch :
  c < w → y < h → ch < 4 →
  gather bytes w h S pattern !! offset w c y ch
  = bytes !! offset w (source_column w S pattern c) y ch.
Proof.
  intros Hc Hy Hch.
  destruct (paints_gather bytes) as [_ Hk].
  destruct (Hk (offset w c y ch))
    as [[(slice & Hs & y' & Hy' & x & Hx & ch' & Hch' & Heq) Hv]|[Hr Hv]].
  - apply elem_of_seq in Hs, Hx.
    destruct (complete_slice_column w S slice x) as [Hlt Hle]; [lia..|].
    apply offset_inj in Heq as (-> & <- & <-); [|lia..].
    unfold gather. rewrite Hv by (rewrite Hbytes; by apply offset_lt).
    unfold gathered. rewrite source_index_offset by lia.
    unfold source_column.
    destruct (Nat.ltb_spec (slice * S + x) (w / S * S)); [|lia].
    destruct (slice_decode S slice x) as [-> ->]; [lia|].
    pose proof (entry_lt S pattern x Hpattern ltac:(lia)).
    destruct (complete_slice_column w S slice (entry pattern x)); [lia..|].
    destruct (lookup_lt_is_Some_2 bytes
                (offset w (slice * S + entry pattern x) y ch)) as [b Hb].
    { rewrite Hbytes. apply offset_lt; lia. }
    rewrite Hb. f_equal. by apply stored_lookup.
  - unfold gather. rewrite Hv. unfold source_column.
    destruct (Nat.ltb_spec c (w / S * S)) as [Hlt|]; [|done].
    exfalso. apply Hr.
    exists (c / S). split.
    { apply elem_of_seq. split; [lia|].
      cbn. apply Nat.Div0.div_lt_upper_bound; lia. }
    exists y. split; [apply elem_of_seq; lia|].
    exists (c mod S). split.
    { apply elem_of_seq. split; [lia|]. cbn.
      apply Nat.mod_upper_bound. lia. }
    exists ch. split; [done|]. f_equal.
    rewrite (Nat.div_mod_eq c S) at 1. lia.
Qed.

End gather.

(** ** The run of processImage on a well-formed image *)

Lemma numCompleteSlices_positive w sectionSize :
  (0 < sectionSize)%Z →
  numCompleteSlices w sectionSize = Iterations (w / Z.to_nat sectionSize).
Proof.
  intros Hs. unfold numCompleteSlices.
  destruct (Z.eqb_spec sectionSize 0) as [|_]; [lia|].
  f_equal. rewrite Z2Nat.inj_div by lia. by rewrite Nat2Z.id.
Qed.

Lemma array_length_loop hp pr pid ts input bytes arr log :
  hp !! input = Some bytes →
  array_length input (loop_state hp pr pid ts arr log)
  = Ret (loop_state hp pr pid ts arr log) (length bytes).
Proof.
  intros H. unfold array_length, loop_state; cbn.
  by rewrite (lookup_app_l_Some _ _ _ _ H).
Qed.

Lemma process_body_run hp pr pid ts log img section bytes :
  wf_image (mkState hp pr log pid ts) img bytes →
  (0 < size section)%Z →
  in_range_pattern (Z.to_nat (size section)) (pattern section) →
  let n := width img / Z.to_nat (size section) in
  let out := mkImageData (width img) (height img) (length hp) in
  process_body img section (mkState hp pr log pid ts)
  = Ret (mkState
           (hp ++ [gather bytes (width img) (height img)
                     (Z.to_nat (size section)) (pattern section)])
           pr
           (log ++ ((λ slice, progress_value slice n) <$> seq 0 n))
           (Some out)
           (ts ++ [toast_success "Image processing completed!"])) tt.
Proof.
  intros (Hbytes & Hlen & Hw & Hh) Hsize Hpat n out. cbn in Hbytes.
  unfold process_body. rewrite bind_run.
  unfold new_ImageData.
  destruct (Nat.eqb_spec (width img) 0) as [|_]; [lia|].
  destruct (Nat.eqb_spec (height img) 0) as [|_]; [lia|].
  cbn [orb].
  change (upd_heap _ _) with
    (loop_state hp pr pid ts
       (replicate (width img * height img * 4) "000"%byte) log).
  rewrite bind_run, (array_length_loop _ _ _ _ _ bytes) by done.
  rewrite bind_run. cbn [data].
  rewrite (copy_loop_run hp pr pid ts (data img) bytes Hbytes).
  rewrite copy_loop_copies by (by rewrite length_replicate).
  rewrite numCompleteSlices_positive by done.
  rewrite bind_run.
  rewrite (slice_loop_run hp pr pid ts (data img) bytes Hbytes) by done.
  reflexivity.
Qed.

Lemma processImage_run s img section bytes :
  wf_image s img bytes →
  (0 < size section)%Z →
  in_range_pattern (Z.to_nat (size section)) (pattern section) →
  let n := width img / Z.to_nat (size section) in
  processImage (Some img) (Some section) s
  = Ret (mkState
           (heap s ++ [gather bytes (width img) (height img)
                         (Z.to_nat (size section)) (pattern section)])
           false
           (progress_log s ++ [0%Q]
              ++ ((λ slice, progress_value slice n) <$> seq 0 n) ++ [0%Q])
           (Some (mkImageData (width img) (height img) (length (heap s))))
           (toasts s ++ [toast_success "Image processing completed!"])) tt.
Proof.
  intros Hwf Hsize Hpat n. destruct s as [hp pr log pid ts].
  transitivity
    (try_catch_finally (process_body img section)
       (λ _, show_toast (toast_error "Failed to process image"))
       (setProcessing false ;; setProgress 0%Q)
       (mkState hp true (log ++ [0%Q]) pid ts)); [reflexivity|].
  unfold try_catch_finally.
  rewrite (process_body_run hp true pid ts (log ++ [0%Q]) img section bytes);
    [|exact Hwf|done|done].
  unfold mbind, M_bind, setProcessing, setProgress, n.
  cbn [heap processing progress_log processedImageData toasts].
  do 2 f_equal. rewrite <- !app_assoc. reflexivity.
Qed.

(** ** Valid sections *)

Lemma permutation_in_range S pattern :
  is_permutation_pattern S pattern → in_range_pattern S pattern.
Proof.
  intros Hperm.
  assert (Hlen : length pattern = S).
  { rewrite Hperm. unfold numbers_1_to. by rewrite length_fmap, length_seq. }
  split; [done|]. intros j Hj.
  destruct (lookup_lt_is_Some_2 pattern j) as [p Hp]; [lia|].
  assert (Hin : p ∈ numbers_1_to S).
  { rewrite <- Hperm. by eapply list_elem_of_lookup_2. }
  apply list_elem_of_fmap in Hin as (n & -> & Hn). apply elem_of_seq in Hn.
  exists (Z.of_nat n). split; [done|lia].
Qed.

Lemma valid_section_in_range section :
  valid_section section →
  (0 < size section)%Z ∧
  0 < Z.to_nat (size section) ∧
  in_range_pattern (Z.to_nat (size section)) (pattern section).
Proof.
  intros [Hsize Hperm]. split; [lia|]. split; [lia|].
  by apply permutation_in_range.
Qed.

(** The run on a well-formed image and a pattern in range, with everything
    that the final state holds. *)
Lemma processed_in_range s img section bytes :
  wf_image s img bytes →
  (0 < size section)%Z →
  in_range_pattern (Z.to_nat (size section)) (pattern section) →
  let S := Z.to_nat (size section) in
  let n := width img / S in
  let out := mkImageData (width img) (height img) (length (heap s)) in
  let outbytes := gather bytes (width img) (height img) S (pattern section) in
  ∃ s', processed s img section s' out outbytes ∧
        heap s' = heap s ++ [outbytes] ∧
        progress_log s' = progress_log s ++ [0%Q]
           ++ ((λ slice, progress_value slice n) <$> seq 0 n) ++ [0%Q] ∧
        processing s' = false.
Proof.
  intros Hwf Hsize Hpat S n out outbytes.
  eexists. split; [|split; [|split]]; [split; [|split; [|split]]|..].
  - by apply (processImage_run s img section bytes).
  - reflexivity.
  - reflexivity.
  - cbn. apply list_lookup_middle. reflexivity.
  - reflexivity.
  - reflexivity.
  - reflexivity.
Qed.

(** Two arrays of an image that agree on every channel of every pixel are
    the same array. *)
Lemma image_bytes_eq w h (a b : list byte) :
  0 < w →
  length a = w * h * 4 → length b = w * h * 4 →
  (∀ c y ch, c < w → y < h → ch < 4 →
     a !! offset w c y ch = b !! offset w c y ch) →
  a = b.
Proof.
  intros Hw Ha Hb Hagree. apply list_eq. intros k.
  destruct (decide (k < w * h * 4)) as [Hk|Hk].
  - assert (Hdec : k = offset w ((k / 4) mod w) (k / 4 / w) (k mod 4)).
    { unfold offset.
      rewrite (Nat.div_mod_eq k 4) at 1.
      rewrite (Nat.div_mod_eq (k / 4) w) at 1. lia. }
    rewrite Hdec. apply Hagree.
    + apply Nat.mod_upper_bound. lia.
    + apply Nat.Div0.div_lt_upper_bound.
      apply Nat.Div0.div_lt_upper_bound. lia.
    + apply Nat.mod_upper_bound. lia.
  - rewrite !lookup_ge_None_2 by lia. done.
Qed.

(** ** The output of a valid run, pixel by pixel *)

Lemma gather_valid_lookup w h bytes section c y ch :
  valid_section section → length bytes = w * h * 4 →
  c < w → y < h → ch < 4 →
  gather bytes w h (Z.to_nat (size section)) (pattern section)
    !! offset w c y ch
  = bytes !! offset w
      (source_column w (Z.to_nat (size section)) (pattern section) c) y ch.
Proof.
  intros Hvalid Hlen Hc Hy Hch.
  destruct (valid_section_in_range section Hvalid) as (_ & HS & Hpat).
  by apply gather_lookup.
Qed.

Lemma source_column_complete w S pattern i j :
  i < w / S → j < S →
  source_column w S pattern (i * S + j) = i * S + entry pattern j.
Proof.
  intros Hi Hj. unfold source_column.
  destruct (complete_slice_column w S i j Hi Hj) as [Hlt _].
  destruct (Nat.ltb_spec (i * S + j) (w / S * S)); [|lia].
  by destruct (slice_decode S i j Hj) as [-> ->].
Qed.

Lemma source_column_partial w S pattern c :
  (w / S) * S ≤ c → source_column w S pattern c = c.
Proof.
  intros Hc. unfold source_column.
  by destruct (Nat.ltb_spec c (w / S * S)); [lia|].
Qed.

Lemma processed_valid s img section bytes :
  wf_image s img bytes → valid_section section →
  let S := Z.to_nat (size section) in
  let n := width img / S in
  let out := mkImageData (width img) (height img) (length (heap s)) in
  let outbytes := gather bytes (width img) (height img) S (pattern section) in
  ∃ s', processed s img section s' out outbytes ∧
        heap s' = heap s ++ [outbytes] ∧
        progress_log s' = progress_log s ++ [0%Q]
           ++ ((λ slice, progress_value slice n) <$> seq 0 n) ++ [0%Q] ∧
        processing s' = false.
Proof.
  intros Hwf Hvalid.
  destruct (valid_section_in_range section Hvalid) as (Hsize & _ & Hpat).
  by apply processed_in_range.
Qed.

(** C1: on a well-formed image and a validated pattern of size S, the run
    completes and, for every complete slice i, row y and offset j below S,
    each of the four bytes of the output pixel at column i*S + j is the
    byte of the input pixel at column i*S + (pattern[j] - 1) of the same
    row. *)
Theorem C1_gather_semantics s img section bytes :
  wf_image s img bytes → valid_section section →
  let S := Z.to_nat (size section) in
  ∃ s' out outbytes,
    processed s img section s' out outbytes ∧
    ∀ i j y ch,
      i < width img / S → j < S → y < height img → ch < 4 →
      ∃ z b,
        pattern section !! j = Some (Num z) ∧
        bytes !! offset (width img) (i * S + Z.to_nat (z - 1)) y ch = Some b ∧
        outbytes !! offset (width img) (i * S + j) y ch = Some b.
Proof.
  intros Hwf Hvalid S.
  destruct (processed_valid s img section bytes Hwf Hvalid) as (s' & Hrun & _).
  destruct (valid_section_in_range section Hvalid) as (_ & HS & Hpat).
  destruct Hwf as (_ & Hlen & Hw & Hh).
  eexists _, _, _. split; [exact Hrun|].
  intros i j y ch Hi Hj Hy Hch.
  destruct Hpat as [Hplen Hrange].
  destruct (Hrange j Hj) as (z & Hz & Hz1).
  destruct (complete_slice_column (width img) S i j Hi Hj) as [Hlt Hle].
  destruct (complete_slice_column (width img) S i (Z.to_nat (z - 1)) Hi)
    as [Hlt' _]; [fold S; lia|].
  destruct (lookup_lt_is_Some_2 bytes
              (offset (width img) (i * S + Z.to_nat (z - 1)) y ch)) as [b Hb].
  { rewrite Hlen. apply offset_lt; lia. }
  exists z, b. split; [done|]. split; [done|].
  rewrite gather_valid_lookup by (done || lia).
  fold S. rewrite source_column_complete by done.
  unfold entry. by rewrite Hz.
Qed.

(** The scenario of C1: size 3, pattern [3,1,2], input row [A,B,C]. *)
Lemma C1_gather_semantics_witness :
  ∃ s' out outbytes,
    processed (state_of [pixels_ABC]) (mkImageData 3 1 0) section_312
              s' out outbytes ∧
    ∀ i j y ch,
      i < 3 / 3 → j < 3 → y < 1 → ch < 4 →
      ∃ z b,
        [Num 3; Num 1; Num 2] !! j = Some (Num z) ∧
        pixels_ABC !! offset 3 (i * 3 + Z.to_nat (z - 1)) y ch = Some b ∧
        outbytes !! offset 3 (i * 3 + j) y ch = Some b.
Proof.
  apply (C1_gather_semantics (state_of [pixels_ABC]) (mkImageData 3 1 0)
           section_312 pixels_ABC).
  - repeat split; cbn; lia.
  - apply (bool_decide_unpack _). vm_compute. reflexivity.
Defined.

(** The two scenarios of the specification, run: [A,B,C] becomes [C,A,B],
    and with width 7 and size 3 the seventh column stays in place. *)
Example scenario_312 :
  ∃ s', processImage (Some (mkImageData 3 1 0)) (Some section_312)
                     (state_of [pixels_ABC]) = Ret s' tt ∧
        heap s' = [pixels_ABC; pixels_CAB] ∧
        processedImageData s' = Some (mkImageData 3 1 1).
Proof. eexists. split; [vm_compute; reflexivity|]. by split. Qed.

Example scenario_width_7 :
  ∃ s', processImage (Some (mkImageData 7 1 0)) (Some section_312)
          (state_of [bytes_of [1; 1; 1; 1; 2; 2; 2; 2; 3; 3; 3; 3; 4; 4; 4; 4;
                               5; 5; 5; 5; 6; 6; 6; 6; 7; 7; 7; 7]%N])
        = Ret s' tt ∧
        heap s' !! 1
        = Some (bytes_of [3; 3; 3; 3; 1; 1; 1; 1; 2; 2; 2; 2; 6; 6; 6; 6;
                          4; 4; 4; 4; 5; 5; 5; 5; 7; 7; 7; 7]%N) ∧
        Qred <$> progress_log s' = [0; 50; 100; 0]%Q.
Proof. eexists. split; [vm_compute; reflexivity|]. split; reflexivity. Qed.

(** C2: when the width is S*N + r with 0 < r < S, the r rightmost columns
    of every row of the output hold the bytes of the input, whatever the
    validated pattern. *)
Theorem C2_partial_slice_passthrough s img section bytes N r :
  wf_image s img bytes → valid_section section →
  let S := Z.to_nat (size section) in
  width img = S * N + r → 0 < r < S →
  ∃ s' out outbytes,
    processed s img section s' out outbytes ∧
    ∀ y c ch,
      y < height img → S * N ≤ c < width img → ch < 4 →
      outbytes !! offset (width img) c y ch
      = bytes !! offset (width img) c y ch.
Proof.
  intros Hwf Hvalid S Hwidth Hr.
  destruct (processed_valid s img section bytes Hwf Hvalid) as (s' & Hrun & _).
  destruct Hwf as (_ & Hlen & Hw & Hh).
  eexists _, _, _. split; [exact Hrun|].
  intros y c ch Hy Hc Hch.
  rewrite gather_valid_lookup by (done || lia).
  fold S. rewrite source_column_partial; [done|].
  assert (width img / S = N) as ->.
  { symmetry. apply (Nat.div_unique _ S N r); lia. }
  lia.
Qed.

Lemma C2_partial_slice_passthrough_witness :
  ∃ s' out outbytes,
    processed (state_of [pixels_ABCD]) (mkImageData 4 1 0) section_312
              s' out outbytes ∧
    ∀ y c ch,
      y < 1 → 3 * 1 ≤ c < 4 → ch < 4 →
      outbytes !! offset 4 c y ch = pixels_ABCD !! offset 4 c y ch.
Proof.
  apply (C2_partial_slice_passthrough (state_of [pixels_ABCD])
           (mkImageData 4 1 0) section_312 pixels_ABCD 1 1).
  - repeat split; cbn; lia.
  - apply (bool_decide_unpack _). vm_compute. reflexivity.
  - reflexivity.
  - cbn. lia.
Defined.

(** ** The identity pattern *)

Lemma numbers_1_to_lookup S j :
  j < S → numbers_1_to S !! j = Some (Num (Z.of_nat (1 + j))).
Proof.
  intros Hj. unfold numbers_1_to.
  by rewrite list_lookup_fmap, lookup_seq_lt.
Qed.

Lemma entry_identity S j : j < S → entry (identity_pattern S) j = j.
Proof.
  intros Hj. unfold entry, identity_pattern.
  rewrite numbers_1_to_lookup by done. lia.
Qed.

Lemma identity_valid label S :
  1 ≤ S → valid_section (mkSection label (Z.of_nat S) (identity_pattern S)).
Proof.
  intros HS. split; cbn; [lia|].
  rewrite Nat2Z.id. unfold is_permutation_pattern, identity_pattern.
  reflexivity.
Qed.

Lemma source_column_identity w S c :
  0 < S → source_column w S (identity_pattern S) c = c.
Proof.
  intros HS. unfold source_column.
  destruct (Nat.ltb_spec c (w / S * S)); [|done].
  rewrite entry_identity by (apply Nat.mod_upper_bound; lia).
  rewrite (Nat.div_mod_eq c S) at 3. lia.
Qed.

(** C6: with the pattern [1,2,...,S], S at least 1, the output array is
    byte for byte the input array. *)
Theorem C6_identity_pattern s img bytes label S :
  wf_image s img bytes → 1 ≤ S →
  ∃ s' out outbytes,
    processed s img (mkSection label (Z.of_nat S) (identity_pattern S))
              s' out outbytes ∧
    outbytes = bytes.
Proof.
  intros Hwf HS.
  pose proof (identity_valid label S HS) as Hvalid.
  destruct (processed_valid s img _ bytes Hwf Hvalid) as (s' & Hrun & _).
  destruct Hwf as (_ & Hlen & Hw & Hh).
  eexists _, _, _. split; [exact Hrun|].
  cbn [size pattern]. rewrite Nat2Z.id.
  apply (image_bytes_eq (width img) (height img)); [done| |done|].
  - by rewrite length_gather.
  - intros c y ch Hc Hy Hch.
    assert (in_range_pattern S (identity_pattern S)).
    { apply permutation_in_range.
      unfold is_permutation_pattern, identity_pattern. reflexivity. }
    rewrite gather_lookup by (done || lia).
    by rewrite source_column_identity.
Qed.

Lemma C6_identity_pattern_witness :
  ∃ s' out outbytes,
    processed (state_of [pixels_ABCD]) (mkImageData 4 1 0)
              (mkSection "identity" (Z.of_nat 3) (identity_pattern 3))
              s' out outbytes ∧
    outbytes = pixels_ABCD.
Proof.
  apply (C6_identity_pattern (state_of [pixels_ABCD]) (mkImageData 4 1 0)
           pixels_ABCD "identity" 3).
  - repeat split; cbn; lia.
  - lia.
Defined.

(** ** Rearrangement inside a row of a slice *)

Lemma entries_of_pattern pattern :
  entry pattern <$> seq 0 (length pattern)
  = (λ p, match p with Num z => Z.to_nat (z - 1) | NaN => 0 end) <$> pattern.
Proof.
  apply list_eq. intros j. rewrite !list_lookup_fmap.
  destruct (decide (j < length pattern)) as [Hj|Hj].
  - rewrite lookup_seq_lt by done. cbn. unfold entry.
    destruct (lookup_lt_is_Some_2 pattern j Hj) as [p ->]. by destruct p.
  - rewrite lookup_seq_ge by lia.
    rewrite (lookup_ge_None_2 pattern) by lia. done.
Qed.

Lemma entries_permutation S pattern :
  is_permutation_pattern S pattern → entry pattern <$> seq 0 S ≡ₚ seq 0 S.
Proof.
  intros Hperm.
  assert (Hlen : length pattern = S).
  { rewrite Hperm. unfold numbers_1_to. by rewrite length_fmap, length_seq. }
  rewrite <- Hlen at 1. rewrite entries_of_pattern, Hperm.
  assert (Heq : (λ p, match p with Num z => Z.to_nat (z - 1) | NaN => 0 end)
                  <$> numbers_1_to S = seq 0 S); [|by rewrite Heq].
  apply list_eq. intros j. rewrite list_lookup_fmap.
  destruct (decide (j < S)) as [Hj|Hj].
  - rewrite numbers_1_to_lookup, lookup_seq_lt by done. cbn. f_equal. lia.
  - rewrite lookup_seq_ge by lia. unfold numbers_1_to.
    rewrite list_lookup_fmap, lookup_seq_ge by lia. done.
Qed.

Lemma gather_valid_pixel w h bytes section c y :
  valid_section section → length bytes = w * h * 4 →
  c < w → y < h →
  pixel_at (gather bytes w h (Z.to_nat (size section)) (pattern section)) w c y
  = pixel_at bytes w
      (source_column w (Z.to_nat (size section)) (pattern section) c) y.
Proof.
  intros Hvalid Hlen Hc Hy. unfold pixel_at. apply list_fmap_ext.
  intros k ch Hch. apply lookup_seq in Hch as [-> Hch].
  apply gather_valid_lookup; (done || lia).
Qed.

(** C9: inside every row of every complete slice the output holds the
    same pixels as the input, each as often: the list of RGBA quadruples of
    the output row-slice is a permutation of the input's. *)
Theorem C9_row_slice_multiset s img section bytes :
  wf_image s img bytes → valid_section section →
  let S := Z.to_nat (size section) in
  ∃ s' out outbytes,
    processed s img section s' out outbytes ∧
    ∀ i y, i < width img / S → y < height img →
      row_slice outbytes (width img) S i y ≡ₚ row_slice bytes (width img) S i y.
Proof.
  intros Hwf Hvalid S.
  destruct (processed_valid s img section bytes Hwf Hvalid) as (s' & Hrun & _).
  destruct Hwf as (_ & Hlen & Hw & Hh).
  eexists _, _, _. split; [exact Hrun|].
  intros i y Hi Hy. unfold row_slice.
  transitivity ((λ x, pixel_at bytes (width img) (i * S + x) y)
                  <$> (entry (pattern section) <$> seq 0 S)).
  - rewrite <- list_fmap_compose.
    erewrite list_fmap_ext; [reflexivity|].
    intros k j Hj. apply lookup_seq in Hj as [-> Hj].
    change (0 + k) with k.
    destruct (complete_slice_column (width img) S i k Hi Hj) as [Hlt Hle].
    rewrite (gather_valid_pixel _ (height img)) by (done || lia).
    fold S. by rewrite source_column_complete.
  - apply fmap_Permutation, entries_permutation. apply Hvalid.
Qed.

Lemma C9_row_slice_multiset_witness :
  ∃ s' out outbytes,
    processed (state_of [pixels_ABCD]) (mkImageData 4 1 0) section_312
              s' out outbytes ∧
    ∀ i y, i < 4 / 3 → y < 1 →
      row_slice outbytes 4 3 i y ≡ₚ row_slice pixels_ABCD 4 3 i y.
Proof.
  apply (C9_row_slice_multiset (state_of [pixels_ABCD]) (mkImageData 4 1 0)
           section_312 pixels_ABCD).
  - repeat split; cbn; lia.
  - apply (bool_decide_unpack _). vm_compute. reflexivity.
Defined.

(** C10: every output pixel is one input pixel of the same row, moved as a
    whole: one source column serves its four channels, none of which is
    changed; and row y of the output is determined by row y of the input. *)
Theorem C10_whole_pixels_independent_rows s img section bytes :
  wf_image s img bytes → valid_section section →
  let w := width img in
  ∃ s' out outbytes,
    processed s img section s' out outbytes ∧
    (∀ c y, c < w → y < height img →
       ∃ c', c' < w ∧
         ∀ ch, ch < 4 →
           ∃ b, bytes !! offset w c' y ch = Some b ∧
                outbytes !! offset w c y ch = Some b) ∧
    (∀ s2 img2 bytes2 y,
       wf_image s2 img2 bytes2 →
       width img2 = w → height img2 = height img → y < height img →
       (∀ c ch, c < w → ch < 4 →
          bytes2 !! offset w c y ch = bytes !! offset w c y ch) →
       ∃ s2' out2 outbytes2,
         processed s2 img2 section s2' out2 outbytes2 ∧
         ∀ c ch, c < w → ch < 4 →
           outbytes2 !! offset w c y ch = outbytes !! offset w c y ch).
Proof.
  intros Hwf Hvalid w.
  destruct (processed_valid s img section bytes Hwf Hvalid) as (s' & Hrun & _).
  destruct (valid_section_in_range section Hvalid) as (_ & HS & Hpat).
  pose proof Hwf as (_ & Hlen & Hw & Hh).
  eexists _, _, _. split; [exact Hrun|]. split.
  - intros c y Hc Hy.
    exists (source_column w (Z.to_nat (size section)) (pattern section) c).
    assert (Hsrc : source_column w (Z.to_nat (size section))
                     (pattern section) c < w)
      by (by apply source_column_lt).
    split; [done|]. intros ch Hch.
    destruct (lookup_lt_is_Some_2 bytes
      (offset w (source_column w (Z.to_nat (size section))
                   (pattern section) c) y ch)) as [b Hb].
    { rewrite Hlen. by apply offset_lt. }
    exists b. split; [done|].
    by rewrite gather_valid_lookup.
  - intros s2 img2 bytes2 y Hwf2 Hw2 Hh2 Hy Hrow.
    destruct (processed_valid s2 img2 section bytes2 Hwf2 Hvalid)
      as (s2' & Hrun2 & _).
    destruct Hwf2 as (_ & Hlen2 & _ & _).
    rewrite Hw2, Hh2 in Hrun2, Hlen2.
    eexists _, _, _. split; [exact Hrun2|].
    intros c ch Hc Hch.
    rewrite !gather_valid_lookup by done.
    apply Hrow; [|done]. by apply source_column_lt.
Qed.

Lemma C10_whole_pixels_independent_rows_witness :
  ∃ s' out outbytes,
    processed (state_of [pixels_ABCD]) (mkImageData 4 1 0) section_312
              s' out outbytes ∧
    (∀ c y, c < 4 → y < 1 →
       ∃ c', c' < 4 ∧
         ∀ ch, ch < 4 →
           ∃ b, pixels_ABCD !! offset 4 c' y ch = Some b ∧
                outbytes !! offset 4 c y ch = Some b) ∧
    (∀ s2 img2 bytes2 y,
       wf_image s2 img2 bytes2 →
       width img2 = 4 → height img2 = 1 → y < 1 →
       (∀ c ch, c < 4 → ch < 4 →
          bytes2 !! offset 4 c y ch = pixels_ABCD !! offset 4 c y ch) →
       ∃ s2' out2 outbytes2,
         processed s2 img2 section_312 s2' out2 outbytes2 ∧
         ∀ c ch, c < 4 → ch < 4 →
           outbytes2 !! offset 4 c y ch = outbytes !! offset 4 c y ch).
Proof.
  apply (C10_whole_pixels_independent_rows (state_of [pixels_ABCD])
           (mkImageData 4 1 0) section_312 pixels_ABCD).
  - repeat split; cbn; lia.
  - apply (bool_decide_unpack _). vm_compute. reflexivity.
Defined.

(** ** The inverse pattern *)

Lemma index_of_lookup v pattern :
  v ∈ pattern →
  index_of v pattern < length pattern ∧ pattern !! index_of v pattern = Some v.
Proof.
  induction pattern as [|p rest IH]; intros Hin.
  - by apply elem_of_nil in Hin.
  - cbn [index_of]. destruct (decide (p = v)) as [->|Hne].
    + split; [cbn; lia|done].
    + apply elem_of_cons in Hin as [->|Hin]; [done|].
      destruct (IH Hin). split; [cbn; lia|done].
Qed.

Section inverse.
Context (S : nat) (pattern : list number).
Hypothesis Hperm : is_permutation_pattern S pattern.

Lemma pattern_length : length pattern = S.
Proof.
  rewrite Hperm. unfold numbers_1_to. by rewrite length_fmap, length_seq.
Qed.

Lemma pattern_contains j : j < S → Num (Z.of_nat (1 + j)) ∈ pattern.
Proof.
  intros Hj. rewrite Hperm.
  eapply list_elem_of_lookup_2. by apply numbers_1_to_lookup.
Qed.

Lemma inverse_lookup j :
  j < S →
  inverse_pattern pattern !! j
  = Some (Num (Z.of_nat (index_of (Num (Z.of_nat (1 + j))) pattern) + 1)).
Proof.
  intros Hj. unfold inverse_pattern.
  by rewrite list_lookup_fmap, pattern_length, lookup_seq_lt.
Qed.

Lemma entry_inverse j :
  j < S →
  entry (inverse_pattern pattern) j
  = index_of (Num (Z.of_nat (1 + j))) pattern.
Proof. intros Hj. unfold entry. rewrite inverse_lookup by done. lia. Qed.

Lemma inverse_in_range : in_range_pattern S (inverse_pattern pattern).
Proof.
  split.
  - unfold inverse_pattern. by rewrite length_fmap, length_seq, pattern_length.
  - intros j Hj. eexists. split; [by apply inverse_lookup|].
    destruct (index_of_lookup _ _ (pattern_contains j Hj)) as [Hlt _].
    rewrite pattern_length in Hlt. lia.
Qed.

(** [pattern[inverse[j] - 1] = j + 1] *)
Lemma entry_entry_inverse j :
  j < S → entry pattern (entry (inverse_pattern pattern) j) = j.
Proof.
  intros Hj. rewrite entry_inverse by done.
  destruct (index_of_lookup _ _ (pattern_contains j Hj)) as [_ Hlook].
  unfold entry. rewrite Hlook. lia.
Qed.

Lemma source_column_inverse w c :
  0 < S →
  source_column w S pattern
    (source_column w S (inverse_pattern pattern) c) = c.
Proof.
  intros HS. unfold source_column at 2.
  destruct (Nat.ltb_spec c (w / S * S)) as [Hlt|Hge].
  - assert (Hi : c / S < w / S)
      by (apply Nat.Div0.div_lt_upper_bound; lia).
    assert (Hj : c mod S < S) by (apply Nat.mod_upper_bound; lia).
    rewrite source_column_complete.
    + rewrite entry_entry_inverse by done.
      rewrite (Nat.div_mod_eq c S) at 3. lia.
    + done.
    + by apply entry_lt; [apply inverse_in_range|].
  - by apply source_column_partial.
Qed.

End inverse.

(** C7: on a buffer whose width is a multiple of the size, applying a
    valid pattern and then its inverse permutation gives back the original
    bytes. *)
Theorem C7_pattern_then_inverse s img section bytes N :
  wf_image s img bytes → valid_section section →
  width img = N * Z.to_nat (size section) →
  let inverse := mkSection (name section) (size section)
                           (inverse_pattern (pattern section)) in
  ∃ s1 out1 bytes1,
    processed s img section s1 out1 bytes1 ∧
    ∃ s2 out2 bytes2,
      processed s1 out1 inverse s2 out2 bytes2 ∧
      bytes2 = bytes.
Proof.
  intros Hwf Hvalid _ inverse.
  destruct (processed_valid s img section bytes Hwf Hvalid)
    as (s1 & Hrun1 & _).
  destruct (valid_section_in_range section Hvalid) as (Hsize & HS & Hpat).
  pose proof Hwf as (_ & Hlen & Hw & Hh).
  pose proof Hvalid as [_ Hperm].
  pose proof (inverse_in_range _ _ Hperm) as Hinv.
  eexists _, _, _. split; [exact Hrun1|].
  destruct Hrun1 as (_ & _ & _ & Hout1).
  set (out1 := mkImageData (width img) (height img) (length (heap s))) in *.
  set (bytes1 := gather bytes (width img) (height img)
                   (Z.to_nat (size section)) (pattern section)) in *.
  assert (Hlen1 : length bytes1 = width img * height img * 4).
  { unfold bytes1. by rewrite length_gather. }
  assert (Hwf1 : wf_image s1 out1 bytes1) by done.
  destruct (processed_in_range s1 out1 inverse bytes1 Hwf1 Hsize Hinv)
    as (s2 & Hrun2 & _).
  eexists _, _, _. split; [exact Hrun2|].
  cbn [width height size pattern inverse out1].
  apply (image_bytes_eq (width img) (height img)); [done| |done|].
  - by rewrite length_gather.
  - intros c y ch Hc Hy Hch.
    rewrite gather_lookup by done.
    assert (source_column (width img) (Z.to_nat (size section))
              (inverse_pattern (pattern section)) c < width img)
      by (by apply source_column_lt).
    unfold bytes1. rewrite gather_valid_lookup by done.
    by rewrite source_column_inverse.
Qed.

Lemma C7_pattern_then_inverse_witness :
  ∃ s1 out1 bytes1,
    processed (state_of [pixels_ABC]) (mkImageData 3 1 0) section_312
              s1 out1 bytes1 ∧
    ∃ s2 out2 bytes2,
      processed s1 out1
        (mkSection "example" 3 (inverse_pattern [Num 3; Num 1; Num 2]))
        s2 out2 bytes2 ∧
      bytes2 = pixels_ABC.
Proof.
  apply (C7_pattern_then_inverse (state_of [pixels_ABC]) (mkImageData 3 1 0)
           section_312 pixels_ABC 1).
  - repeat split; cbn; lia.
  - apply (bool_decide_unpack _). vm_compute. reflexivity.
  - reflexivity.
Defined.

(** ** What a run leaves untouched

    None of the statements of [processImage] stores into a cell that
    existed before the call: the only stores go to the array of the
    [ImageData] it allocates.  This holds for every section, valid or not,
    and whether the body throws or not. *)

Section frame.
Context (n : nat).

Lemma keeps_ret {A} (a : A) : keeps_cells n (mret a).
Proof. intros s. cbn. done. Qed.

Lemma keeps_throw {A} e : keeps_cells n (@throw A e).
Proof. intros s. cbn. done. Qed.

Lemma keeps_bind {A B} (m : M A) (f : A → M B) :
  keeps_cells n m → (∀ a, keeps_cells n (f a)) → keeps_cells n (m ≫= f).
Proof.
  intros Hm Hf s. rewrite bind_run. specialize (Hm s).
  destruct (m s) as [s1 a|s1 e|]; [|done..].
  specialize (Hf a s1).
  destruct (f a s1) as [s2 b|s2 e|]; [| |done];
    intros l Hl; by rewrite Hf, Hm.
Qed.

Lemma keeps_forM xs body :
  (∀ x, keeps_cells n (body x)) → keeps_cells n (forM xs body).
Proof.
  intros Hbody. induction xs as [|x xs IH]; [apply keeps_ret|].
  cbn [forM]. apply keeps_bind; [apply Hbody|]. intros _. apply IH.
Qed.

Lemma keeps_mapM {B} (f : nat → M B) xs :
  (∀ x, keeps_cells n (f x)) → keeps_cells n (mapM f xs).
Proof.
  intros Hf. induction xs as [|x xs IH]; [apply keeps_ret|].
  cbn [mapM]. apply keeps_bind; [apply Hf|]. intros b.
  apply keeps_bind; [apply IH|]. intros bs. apply keeps_ret.
Qed.

Lemma keeps_array_get arr i : keeps_cells n (array_get arr i).
Proof. intros s. cbn. done. Qed.

Lemma keeps_array_length arr : keeps_cells n (array_length arr).
Proof. intros s. cbn. done. Qed.

Lemma keeps_array_set arr i v : n ≤ arr → keeps_cells n (array_set arr i v).
Proof.
  intros Harr s. cbn. intros l Hl. apply list_lookup_alter_ne. lia.
Qed.

Lemma keeps_setProgress q : keeps_cells n (setProgress q).
Proof. intros s. cbn. done. Qed.

Lemma keeps_setProcessing b : keeps_cells n (setProcessing b).
Proof. intros s. cbn. done. Qed.

Lemma keeps_setProcessedImageData img :
  keeps_cells n (setProcessedImageData img).
Proof. intros s. cbn. done. Qed.

Lemma keeps_show_toast t : keeps_cells n (show_toast t).
Proof. intros s. cbn. done. Qed.

Lemma keeps_try_catch_finally body handler cleanup :
  keeps_cells n body → (∀ e, keeps_cells n (handler e)) →
  keeps_cells n cleanup →
  keeps_cells n (try_catch_finally body handler cleanup).
Proof.
  intros Hb Hh Hc s. unfold try_catch_finally. specialize (Hb s).
  destruct (body s) as [s1 a|s1 e|]; [| |done].
  - specialize (Hc s1).
    destruct (cleanup s1) as [s2 b|s2 e|]; [| |done];
      intros l Hl; by rewrite Hc, Hb.
  - specialize (Hh e s1).
    destruct (handler e s1) as [s2 b|s2 e'|]; [| |done].
    + specialize (Hc s2).
      destruct (cleanup s2) as [s3 b'|s3 e'|]; [| |done];
        intros l Hl; by rewrite Hc, Hh, Hb.
    + specialize (Hc s2).
      destruct (cleanup s2) as [s3 b'|s3 e''|]; [| |done];
        intros l Hl; by rewrite Hc, Hh, Hb.
Qed.

Lemma keeps_read_row input w start y S :
  keeps_cells n (read_row input w start y S).
Proof.
  unfold read_row. apply keeps_mapM. intros x.
  repeat (apply keeps_bind; [apply keeps_array_get|]; intros ?).
  apply keeps_ret.
Qed.

Lemma keeps_write_row output pattern row w start y S :
  n ≤ output → keeps_cells n (write_row output pattern row w start y S).
Proof.
  intros Hout. unfold write_row, for_range. apply keeps_forM. intros x.
  destruct (js_index row (minus_one (pattern !! x)))
    as [[[[r g] b] a]|]; [|apply keeps_throw].
  repeat (apply keeps_bind; [by apply keeps_array_set|]; intros _).
  by apply keeps_array_set.
Qed.

Lemma keeps_process_slice img out section k slice :
  n ≤ data out → keeps_cells n (process_slice img out section k slice).
Proof.
  intros Hout. unfold process_slice, for_range.
  apply keeps_bind; [|intros _; apply keeps_setProgress].
  apply keeps_forM. intros y.
  apply keeps_bind; [apply keeps_read_row|].
  intros row. by apply keeps_write_row.
Qed.

End frame.

Lemma process_body_keeps img section s :
  match process_body img section s with
  | Ret s' _ | Throw s' _ =>
      ∀ l, l < length (heap s) → heap s' !! l = heap s !! l
  | Hang => True
  end.
Proof.
  unfold process_body. rewrite bind_run. unfold new_ImageData.
  destruct ((width img =? 0) || (height img =? 0)); [done|].
  set (out := mkImageData (width img) (height img) (length (heap s))).
  set (s1 := upd_heap _ s).
  assert (Hrest : keeps_cells (length (heap s))
    (len ← array_length (data img);
     for_range len (copy_from (data img) (data out)) ;;
     match numCompleteSlices (width img) (size section) with
     | Unbounded => λ _, Hang
     | Iterations k =>
         for_range k (process_slice img out section k) ;;
         setProcessedImageData out ;;
         show_toast (toast_success "Image processing completed!")
     end)).
  { apply keeps_bind; [apply keeps_array_length|]. intros len.
    apply keeps_bind.
    - apply keeps_forM. intros i. unfold copy_from.
      apply keeps_bind; [apply keeps_array_get|]. intros v.
      by apply keeps_array_set.
    - intros _. destruct (numCompleteSlices _ _) as [k|]; [|done].
      apply keeps_bind.
      + apply keeps_forM. intros slice. by apply keeps_process_slice.
      + intros _. apply keeps_bind; [apply keeps_setProcessedImageData|].
        intros _. apply keeps_show_toast. }
  specialize (Hrest s1).
  match goal with
  | |- match ?m s1 with _ => _ end =>
      destruct (m s1) as [s2 a|s2 e|]; [| |done]
  end; intros l Hl; rewrite Hrest by done;
    unfold s1, upd_heap; cbn; by apply lookup_app_l.
Qed.

(** Every cell of the heap before the call holds the same bytes after it,
    for every image and section. *)
Lemma processImage_keeps_heap originalImageData selectedSection s s' r :
  processImage originalImageData selectedSection s = Ret s' r →
  ∀ l arr, heap s !! l = Some arr → heap s' !! l = Some arr.
Proof.
  destruct originalImageData as [img|], selectedSection as [section|];
    cbn [processImage];
    [|intros [= <- _] l arr Hl; exact Hl..].
  intros Hrun l arr Hl.
  assert (Hlt : l < length (heap s)) by (by eapply lookup_lt_Some).
  set (s1 := mkState (heap s) true (progress_log s ++ [0%Q])
                     (processedImageData s) (toasts s)).
  change (try_catch_finally (process_body img section)
            (λ _, show_toast (toast_error "Failed to process image"))
            (setProcessing false ;; setProgress 0%Q) s1 = Ret s' r) in Hrun.
  pose proof (process_body_keeps img section s1) as Hbody.
  change (heap s1) with (heap s) in Hbody.
  unfold try_catch_finally in Hrun.
  destruct (process_body img section s1) as [s2 a|s2 e|]; [| |done];
    injection Hrun as <- _; cbn; by rewrite Hbody.
Qed.

(** C8: the run never stores into the input array. Whatever the section,
    if the call returns, every array that existed before it (the input in
    particular) holds the same bytes; and for a valid section the call does
    return, with a result whose array is a cell that did not exist before
    and whose width and height are those of the input. *)
Theorem C8_input_untouched_output_fresh s img section bytes :
  wf_image s img bytes →
  (∀ s' r,
     processImage (Some img) (Some section) s = Ret s' r →
     heap s' !! data img = Some bytes ∧
     ∀ l arr, heap s !! l = Some arr → heap s' !! l = Some arr) ∧
  (valid_section section →
   ∃ s' out outbytes,
     processed s img section s' out outbytes ∧
     heap s' !! data img = Some bytes ∧
     heap s !! data out = None ∧
     data out ≠ data img ∧
     width out = width img ∧ height out = height img).
Proof.
  intros Hwf. split.
  - intros s' r Hrun.
    pose proof (processImage_keeps_heap _ _ _ _ _ Hrun) as Hkeep.
    split; [apply Hkeep, Hwf|exact Hkeep].
  - intros Hvalid.
    destruct (processed_valid s img section bytes Hwf Hvalid)
      as (s' & Hrun & _).
    destruct Hwf as (Hbytes & _).
    eexists _, _, _. split; [exact Hrun|].
    destruct Hrun as (Hrun & _).
    split; [by eapply processImage_keeps_heap|].
    cbn [data width height].
    split; [by apply lookup_ge_None_2|].
    apply lookup_lt_Some in Hbytes. split; [lia|done].
Qed.

Lemma C8_input_untouched_output_fresh_witness :
  (∀ s' r,
     processImage (Some (mkImageData 4 1 0)) (Some section_312)
                  (state_of [pixels_ABCD]) = Ret s' r →
     heap s' !! 0 = Some pixels_ABCD ∧
     ∀ l arr, [pixels_ABCD] !! l = Some arr → heap s' !! l = Some arr) ∧
  (valid_section section_312 →
   ∃ s' out outbytes,
     processed (state_of [pixels_ABCD]) (mkImageData 4 1 0) section_312
               s' out outbytes ∧
     heap s' !! 0 = Some pixels_ABCD ∧
     [pixels_ABCD] !! data out = None ∧
     data out ≠ 0 ∧
     width out = 4 ∧ height out = 1).
Proof.
  apply (C8_input_untouched_output_fresh (state_of [pixels_ABCD])
           (mkImageData 4 1 0) section_312 pixels_ABCD).
  repeat split; cbn; lia.
Defined.

(** ** Progress reports *)

(** The percentages are doubles: after slice 0 of 3 the code reports
    33.33333333333333 and after slice 1 of 3 it reports 66.66666666666666,
    after slice 6 of 100 it reports 7.000000000000001; none of them is the
    exact fraction. *)
Example progress_value_examples :
  progress_value 0 3 = (2345624805922133 # 70368744177664)%Q ∧
  progress_value 1 3 = (2345624805922133 # 35184372088832)%Q ∧
  progress_value 2 3 = 100%Q ∧
  progress_value 6 100 = (7881299347898369 # 1125899906842624)%Q ∧
  progress_value 0 1 = 100%Q.
Proof. repeat split; vm_compute; reflexivity. Qed.

(** For every number of slices up to 64 and every slice, [progress_value]
    is the result that [SpecFloat] computes. *)
Example progress_value_agrees_with_SpecFloat :
  forallb (λ n,
    forallb (λ slice,
      match progress_value_SpecFloat slice n with
      | Some q => Qeq_bool q (progress_value slice n)
      | None => false
      end) (seq 0 n)) (seq 1 64) = true.
Proof. vm_compute. reflexivity. Qed.

Section binary64.
Local Open Scope Q_scope.

Lemma pow2_pos e : 0 < Double.pow2 e.
Proof. by apply Qpower_0_lt. Qed.

Lemma pow2_add a b : Double.pow2 (a + b) == Double.pow2 a * Double.pow2 b.
Proof. by apply Qpower_plus. Qed.

Lemma pow2_le a b : (a ≤ b)%Z → Double.pow2 a <= Double.pow2 b.
Proof. intros H. by apply Qpower_le_compat_l. Qed.

Lemma pow2_lt a b : (a < b)%Z → Double.pow2 a < Double.pow2 b.
Proof. intros H. by apply Qpower_lt_compat_l. Qed.

Lemma pow2_lt_inv a b : Double.pow2 a < Double.pow2 b → (a < b)%Z.
Proof. intros H. by apply (Qpower_lt_compat_l_inv 2). Qed.

Lemma pow2_Z e : (0 ≤ e)%Z → Double.pow2 e == inject_Z (2 ^ e).
Proof. intros H. unfold Double.pow2. by rewrite Zpower_Qpower. Qed.

Lemma pow2_succ e : Double.pow2 (e + 1) == 2 * Double.pow2 e.
Proof. rewrite pow2_add. change (Double.pow2 1) with 2. ring. Qed.

Lemma pow2_pred e : Double.pow2 (e - 1) == (1 # 2) * Double.pow2 e.
Proof.
  replace e with ((e - 1) + 1)%Z at 2 by lia. rewrite pow2_succ. ring.
Qed.

Lemma pow2_sub a b : Double.pow2 (a - b) == Double.pow2 a / Double.pow2 b.
Proof.
  replace a with ((a - b) + b)%Z at 2 by lia. rewrite pow2_add.
  field. pose proof (pow2_pos b). lra.
Qed.

Lemma Q_as_quotient q : q == inject_Z (Qnum q) / inject_Z (Zpos (Qden q)).
Proof. destruct q as [n d]. cbn. by rewrite Qmake_Qdiv. Qed.

Lemma inject_Z_log2 n :
  (0 < n)%Z → Double.pow2 (Z.log2 n) <= inject_Z n ∧ inject_Z n < Double.pow2 (Z.log2 n + 1).
Proof.
  intros Hn. destruct (Z.log2_spec n Hn) as [Hlo Hhi].
  pose proof (Z.log2_nonneg n).
  rewrite !pow2_Z by lia. rewrite <- Zle_Qle, <- Zlt_Qlt.
  replace (Z.log2 n + 1)%Z with (Z.succ (Z.log2 n)) by lia. done.
Qed.

Lemma floor_log2_spec q :
  0 < q → Double.pow2 (Double.floor_log2 q) <= q ∧ q < Double.pow2 (Double.floor_log2 q + 1).
Proof.
  intros Hq. unfold Double.floor_log2. cbv zeta.
  assert (Hn : (0 < Qnum q)%Z).
  { destruct q as [n d]. unfold Qlt in Hq. cbn in *. lia. }
  set (a := Z.log2 (Qnum q)). set (b := Z.log2 (Z.pos (Qden q))).
  destruct (inject_Z_log2 (Qnum q) Hn) as [Ha1 Ha2].
  destruct (inject_Z_log2 (Z.pos (Qden q)) eq_refl) as [Hb1 Hb2].
  fold a in Ha1, Ha2. fold b in Hb1, Hb2.
  rewrite pow2_succ in Ha2, Hb2.
  pose proof (pow2_pos a) as HA. pose proof (pow2_pos b) as HB.
  pose proof (Q_as_quotient q) as Hquot.
  set (n := inject_Z (Qnum q)) in *. set (d := inject_Z (Z.pos (Qden q))) in *.
  assert (Hd : 0 < d) by lra.
  assert (Hqd : q * d == n) by (rewrite Hquot; field; lra).
  assert (Hk : Double.pow2 (a - b) * Double.pow2 b == Double.pow2 a) by (rewrite pow2_sub; field; lra).
  pose proof (pow2_pos (a - b)) as HK.
  clearbody n d.
  assert (Hgen : ∀ K, K * Double.pow2 b == Double.pow2 a → 0 < K →
                      (K <= q → q < 2 * K) ∧ (q < K → (1 # 2) * K <= q)).
  { set (B := Double.pow2 b) in *. set (A := Double.pow2 a) in *. clearbody A B.
    intros K HKB HK0. split; intros HKq.
    - assert (H1 : K * B <= K * d) by (apply Qmult_le_l; done).
      apply (proj1 (Qmult_lt_r q (2 * K) d Hd)). lra.
    - assert (H1 : K * d <= K * (2 * B)) by (apply Qmult_le_l; [done|lra]).
      apply (proj1 (Qmult_le_r ((1 # 2) * K) q d Hd)). lra. }
  destruct (Hgen _ Hk HK) as [Hge Hlt].
  destruct (Qle_bool (Double.pow2 (a - b)) q) eqn:Htest.
  - apply Qle_bool_iff in Htest. split; [done|].
    rewrite pow2_succ. auto.
  - assert (Hlt' : q < Double.pow2 (a - b)).
    { apply Qnot_le_lt. intros H. apply Qle_bool_iff in H. congruence. }
    split.
    + rewrite pow2_pred. auto.
    + by replace (a - b - 1 + 1)%Z with (a - b)%Z by lia.
Qed.

Lemma floor_log2_unique q e :
  Double.pow2 e <= q → q < Double.pow2 (e + 1) → Double.floor_log2 q = e.
Proof.
  intros Hlo Hhi.
  assert (Hq : 0 < q) by (pose proof (pow2_pos e); lra).
  destruct (floor_log2_spec q Hq) as [Hlo' Hhi'].
  assert (Double.floor_log2 q < e + 1)%Z by (apply pow2_lt_inv; lra).
  assert (e < Double.floor_log2 q + 1)%Z by (apply pow2_lt_inv; lra).
  lia.
Qed.

Lemma floor_log2_mono x y : 0 < x → x <= y → (Double.floor_log2 x ≤ Double.floor_log2 y)%Z.
Proof.
  intros Hx Hxy.
  destruct (floor_log2_spec x Hx) as [Hlo _].
  destruct (floor_log2_spec y) as [_ Hhi]; [lra|].
  assert (Double.floor_log2 x < Double.floor_log2 y + 1)%Z by (apply pow2_lt_inv; lra).
  lia.
Qed.

(** *** Rounding to the nearest integer *)

Lemma round_half_even_floor q :
  (Qfloor q ≤ Double.round_half_even q ≤ Qfloor q + 1)%Z.
Proof.
  unfold Double.round_half_even. destruct (_ ?= _); [destruct (Z.even _)|..]; lia.
Qed.

Lemma round_half_even_error q :
  Qabs (inject_Z (Double.round_half_even q) - q) <= 1 # 2.
Proof.
  unfold Double.round_half_even.
  pose proof (Qfloor_le q) as Hlo. pose proof (Qlt_floor q) as Hhi.
  rewrite inject_Z_plus in Hhi. change (inject_Z 1) with 1 in Hhi.
  set (f := Qfloor q) in *. apply Qabs_Qle_condition.
  destruct (q - inject_Z f ?= 1 # 2) eqn:Hc.
  - apply Qeq_alt in Hc.
    destruct (Z.even f); rewrite ?inject_Z_plus; change (inject_Z 1) with 1; lra.
  - apply Qlt_alt in Hc. lra.
  - apply Qgt_alt in Hc. rewrite inject_Z_plus. change (inject_Z 1) with 1. lra.
Qed.

Lemma round_half_even_Z z : Double.round_half_even (inject_Z z) = z.
Proof.
  unfold Double.round_half_even. rewrite Qfloor_Z.
  assert (H : (inject_Z z - inject_Z z ?= 1 # 2) = Lt).
  { apply (proj1 (Qlt_alt _ _)). lra. }
  by rewrite H.
Qed.

Lemma round_half_even_comp x y : x == y → Double.round_half_even x = Double.round_half_even y.
Proof.
  intros Hxy. unfold Double.round_half_even.
  assert (Hf : Qfloor x = Qfloor y) by (by rewrite Hxy).
  rewrite Hf.
  assert (Hc : (x - inject_Z (Qfloor y) ?= 1 # 2)
               = (y - inject_Z (Qfloor y) ?= 1 # 2)) by (by rewrite Hxy).
  by rewrite Hc.
Qed.

Lemma round_half_even_mono x y :
  x <= y → (Double.round_half_even x ≤ Double.round_half_even y)%Z.
Proof.
  intros Hxy. pose proof (Qfloor_resp_le x y Hxy) as Hf.
  destruct (decide (Qfloor x = Qfloor y)) as [Heq|Hne].
  - unfold Double.round_half_even. rewrite Heq. set (f := Qfloor y).
    destruct (x - inject_Z f ?= 1 # 2) eqn:Hx;
      destruct (y - inject_Z f ?= 1 # 2) eqn:Hy;
      try (destruct (Z.even f)); try lia;
      exfalso;
      repeat match goal with
             | H : (_ ?= _) = Eq |- _ => apply Qeq_alt in H
             | H : (_ ?= _) = Lt |- _ => apply Qlt_alt in H
             | H : (_ ?= _) = Gt |- _ => apply Qgt_alt in H
             end; lra.
  - pose proof (round_half_even_floor x). pose proof (round_half_even_floor y).
    lia.
Qed.

(** *** Rounding to the nearest double *)

Lemma scale_back x P : 0 < P → x / P * P == x.
Proof. intros HP. field. lra. Qed.

Lemma round_positive_error x :
  Qabs (Double.round_positive x - x) <= (1 # 2) * Double.pow2 (Double.quantum x).
Proof.
  unfold Double.round_positive. set (P := Double.pow2 (Double.quantum x)).
  assert (HP : 0 < P) by apply pow2_pos.
  pose proof (round_half_even_error (x / P)) as Herr.
  pose proof (scale_back x P HP) as Hx.
  set (y := x / P) in *. set (m := inject_Z (Double.round_half_even y)) in *.
  clearbody m y P.
  apply Qabs_Qle_condition in Herr as [Hlo Hhi].
  apply Qabs_Qle_condition.
  assert (H1 : (m - y) * P <= (1 # 2) * P) by (apply Qmult_le_r; done).
  assert (H2 : - (1 # 2) * P <= (m - y) * P) by (apply Qmult_le_r; done).
  split; lra.
Qed.

Lemma round_positive_le_multiple x k :
  x <= inject_Z k * Double.pow2 (Double.quantum x) →
  Double.round_positive x <= inject_Z k * Double.pow2 (Double.quantum x).
Proof.
  intros Hx. unfold Double.round_positive. set (P := Double.pow2 (Double.quantum x)) in *.
  assert (HP : 0 < P) by apply pow2_pos.
  apply Qmult_le_r; [done|]. rewrite <- Zle_Qle.
  rewrite <- (round_half_even_Z k). apply round_half_even_mono.
  by apply Qle_shift_div_r.
Qed.

Lemma round_positive_ge_multiple x k :
  inject_Z k * Double.pow2 (Double.quantum x) <= x →
  inject_Z k * Double.pow2 (Double.quantum x) <= Double.round_positive x.
Proof.
  intros Hx. unfold Double.round_positive. set (P := Double.pow2 (Double.quantum x)) in *.
  assert (HP : 0 < P) by apply pow2_pos.
  apply Qmult_le_r; [done|]. rewrite <- Zle_Qle.
  rewrite <- (round_half_even_Z k) at 1. apply round_half_even_mono.
  by apply Qle_shift_div_l.
Qed.

Lemma pow2_multiple a b :
  (b ≤ a)%Z → Double.pow2 a == inject_Z (2 ^ (a - b)) * Double.pow2 b.
Proof.
  intros H. rewrite <- pow2_Z by lia. rewrite <- pow2_add.
  by replace (a - b + b)%Z with a by lia.
Qed.

Lemma round_positive_mono x y :
  0 < x → x <= y → Double.round_positive x <= Double.round_positive y.
Proof.
  intros Hx Hxy.
  pose proof (floor_log2_mono x y Hx Hxy) as Hfl.
  destruct (floor_log2_spec x Hx) as [_ Hxhi].
  destruct (floor_log2_spec y) as [Hylo _]; [lra|].
  destruct (decide (Double.quantum x = Double.quantum y)) as [Heq|Hne].
  - unfold Double.round_positive. rewrite Heq.
    pose proof (pow2_pos (Double.quantum y)) as HP.
    apply Qmult_le_r; [done|]. rewrite <- Zle_Qle.
    apply round_half_even_mono. by apply Qmult_le_r; [apply Qinv_lt_0_compat|].
  - assert (Hqx : (Double.floor_log2 x - 52 ≤ Double.quantum x)%Z) by (unfold Double.quantum; lia).
    assert (Hqy : Double.quantum y = (Double.floor_log2 y - 52)%Z ∧ (Double.quantum x < Double.quantum y)%Z)
      by (unfold Double.quantum in *; lia).
    destruct Hqy as [Hqy Hlt].
    assert (HxB : x <= Double.pow2 (Double.floor_log2 y)).
    { apply Qlt_le_weak, (Qlt_le_trans _ _ _ Hxhi), pow2_le. lia. }
    apply Qle_trans with (Double.pow2 (Double.floor_log2 y)).
    + rewrite (pow2_multiple _ (Double.quantum x)) in HxB |- * by lia.
      by apply round_positive_le_multiple.
    + rewrite (pow2_multiple _ (Double.quantum y)) in Hylo |- * by lia.
      by apply round_positive_ge_multiple.
Qed.

Lemma Qred_positive q : 0 < q → ∃ p, Qnum (Qred q) = Z.pos p.
Proof.
  intros Hq. rewrite <- (Qred_correct q) in Hq.
  destruct (Qred q) as [[|p|p] d]; [done|by exists p|done].
Qed.

Lemma round_of_positive q : 0 < q → Double.round q = Qred (Double.round_positive (Qred q)).
Proof.
  intros Hq. unfold Double.round. by destruct (Qred_positive q Hq) as [p ->].
Qed.

Lemma round_comp x y : x == y → Double.round x = Double.round y.
Proof. intros Hxy. unfold Double.round. by rewrite (Qred_complete x y Hxy). Qed.

Lemma round_mono x y : 0 < x → x <= y → Double.round x <= Double.round y.
Proof.
  intros Hx Hxy. rewrite !round_of_positive by lra.
  rewrite (Qred_correct (Double.round_positive (Qred x))).
  rewrite (Qred_correct (Double.round_positive (Qred y))).
  apply round_positive_mono; rewrite ?(Qred_correct x), ?(Qred_correct y); done.
Qed.

Lemma round_error x :
  Double.pow2 (-1022) <= x → Qabs (Double.round x - x) <= Double.pow2 (-53) * x.
Proof.
  intros Hx. pose proof (pow2_pos (-1022)) as Hmin.
  rewrite round_of_positive by lra.
  rewrite (Qred_correct (Double.round_positive (Qred x))).
  assert (Hq : Double.pow2 (-1022) <= Qred x) by (by rewrite Qred_correct).
  rewrite <- (Qred_correct x) at 2 3.
  set (q := Qred x) in *. clearbody q.
  destruct (floor_log2_spec q) as [Hlo Hhi]; [lra|].
  assert (Hfl : (-1022 < Double.floor_log2 q + 1)%Z) by (apply pow2_lt_inv; lra).
  eapply Qle_trans; [apply round_positive_error|].
  unfold Double.quantum. rewrite Z.max_l by lia.
  replace (Double.floor_log2 q - 52)%Z with (Double.floor_log2 q - 53 + 1)%Z by lia.
  rewrite pow2_succ.
  replace (Double.floor_log2 q - 53)%Z with (-53 + Double.floor_log2 q)%Z by lia.
  rewrite pow2_add. pose proof (pow2_pos (-53)) as Hu.
  assert (H : Double.pow2 (-53) * Double.pow2 (Double.floor_log2 q) <= Double.pow2 (-53) * q)
    by (apply Qmult_le_l; done).
  lra.
Qed.

Lemma round_1 : Double.round 1 = 1.
Proof. vm_compute. reflexivity. Qed.

Lemma round_100 : Double.round 100 = 100.
Proof. vm_compute. reflexivity. Qed.

Lemma pow2_53 : Double.pow2 (-53) == 1 # 9007199254740992.
Proof. vm_compute. reflexivity. Qed.

Lemma pow2_1022_small : Double.pow2 (-1022) <= 1 # 4294967296.
Proof.
  change (1 # 4294967296) with (Double.pow2 (-32)). apply pow2_le. lia.
Qed.

(** *** The percentages *)

(** The quotient [(slice + 1) / n] before rounding. *)
Lemma ratio_bounds (slice n : nat) :
  (slice < n)%nat → (Z.of_nat n < 2 ^ 32)%Z →
  let a := inject_Z (Z.of_nat (slice + 1)) / inject_Z (Z.of_nat n) in
  (1 # 4294967296) <= a ∧ a <= 1.
Proof.
  intros Hs Hn a.
  assert (H1 : 1 <= inject_Z (Z.of_nat (slice + 1)))
    by (change 1 with (inject_Z 1); rewrite <- Zle_Qle; lia).
  assert (H2 : inject_Z (Z.of_nat (slice + 1)) <= inject_Z (Z.of_nat n))
    by (rewrite <- Zle_Qle; lia).
  assert (H3 : inject_Z (Z.of_nat n) <= 4294967296)
    by (change 4294967296 with (inject_Z (2 ^ 32)); rewrite <- Zle_Qle; lia).
  assert (Ha : a * inject_Z (Z.of_nat n) == inject_Z (Z.of_nat (slice + 1)))
    by (unfold a; field; lra).
  set (i := inject_Z (Z.of_nat (slice + 1))) in *.
  set (m := inject_Z (Z.of_nat n)) in *. clearbody a i m.
  assert (Hm : 0 < m) by lra.
  split; apply (proj1 (Qmult_le_r _ _ m Hm)); lra.
Qed.

Lemma ratio_gap (i j n : nat) :
  (i < j)%nat → (j < n)%nat → (Z.of_nat n < 2 ^ 32)%Z →
  (1 # 4294967296)
  <= inject_Z (Z.of_nat (j + 1)) / inject_Z (Z.of_nat n)
     - inject_Z (Z.of_nat (i + 1)) / inject_Z (Z.of_nat n).
Proof.
  intros Hij Hj Hn.
  assert (H1 : inject_Z (Z.of_nat (i + 1)) + 1 <= inject_Z (Z.of_nat (j + 1)))
    by (change 1 with (inject_Z 1); rewrite <- inject_Z_plus, <- Zle_Qle; lia).
  assert (H2 : 1 <= inject_Z (Z.of_nat n))
    by (change 1 with (inject_Z 1); rewrite <- Zle_Qle; lia).
  assert (H3 : inject_Z (Z.of_nat n) <= 4294967296)
    by (change 4294967296 with (inject_Z (2 ^ 32)); rewrite <- Zle_Qle; lia).
  set (a := inject_Z (Z.of_nat (i + 1)) / inject_Z (Z.of_nat n)).
  set (b := inject_Z (Z.of_nat (j + 1)) / inject_Z (Z.of_nat n)).
  assert (Ha : a * inject_Z (Z.of_nat n) == inject_Z (Z.of_nat (i + 1)))
    by (unfold a; field; lra).
  assert (Hb : b * inject_Z (Z.of_nat n) == inject_Z (Z.of_nat (j + 1)))
    by (unfold b; field; lra).
  set (m := inject_Z (Z.of_nat n)) in *. clearbody a b m.
  assert (Hm : 0 < m) by lra.
  apply (proj1 (Qmult_le_r _ _ m Hm)). lra.
Qed.

(** Both roundings of [progress_value], with what each one guarantees. *)
Lemma progress_value_rounded slice n :
  (slice < n)%nat → (Z.of_nat n < 2 ^ 32)%Z →
  let a := inject_Z (Z.of_nat (slice + 1)) / inject_Z (Z.of_nat n) in
  ∃ r, progress_value slice n = Double.round (r * 100) ∧
       Qabs (r - a) <= (1 # 9007199254740992) * a ∧ r <= 1 ∧
       Qabs (progress_value slice n - r * 100)
       <= (1 # 9007199254740992) * (r * 100) ∧
       progress_value slice n <= 100.
Proof.
  intros Hs Hn a. destruct (ratio_bounds slice n Hs Hn) as [Hlo Hhi].
  fold a in Hlo, Hhi. pose proof pow2_1022_small as Hsmall.
  exists (Double.round a). split; [reflexivity|].
  assert (Hr : Qabs (Double.round a - a) <= (1 # 9007199254740992) * a).
  { rewrite <- pow2_53. apply round_error. lra. }
  assert (Hr1 : Double.round a <= 1).
  { apply Qle_trans with (Double.round 1); [apply round_mono; lra|].
    rewrite round_1. lra. }
  split; [done|]. split; [done|].
  apply Qabs_Qle_condition in Hr as [Hr2 Hr3].
  unfold progress_value, Double.mul, Double.div. fold a. split.
  - rewrite <- pow2_53. apply round_error. lra.
  - apply Qle_trans with (Double.round 100); [apply round_mono; lra|].
    rewrite round_100. lra.
Qed.

Lemma progress_value_exact slice n :
  (slice < n)%nat → (Z.of_nat n < 2 ^ 32)%Z →
  let exact :=
    100 * (inject_Z (Z.of_nat slice + 1) / inject_Z (Z.of_nat n)) in
  Qabs (progress_value slice n - exact) <= exact * (1 # 2 ^ 51).
Proof.
  intros Hs Hn exact.
  destruct (progress_value_rounded slice n Hs Hn) as (r & _ & Hr & _ & Hp & _).
  destruct (ratio_bounds slice n Hs Hn) as [Hlo _].
  replace (Z.of_nat (slice + 1)) with (Z.of_nat slice + 1)%Z in * by lia.
  cbv zeta in *. unfold exact.
  set (a := inject_Z (Z.of_nat slice + 1) / inject_Z (Z.of_nat n)) in *.
  set (p := progress_value slice n) in *. clearbody a p.
  change (1 # 2 ^ 51) with (1 # 2251799813685248).
  apply Qabs_Qle_condition in Hr as [Hr1 Hr2].
  apply Qabs_Qle_condition in Hp as [Hp1 Hp2].
  apply Qabs_Qle_condition. split; lra.
Qed.

Lemma progress_value_bounds slice n :
  (slice < n)%nat → (Z.of_nat n < 2 ^ 32)%Z →
  0 < progress_value slice n ∧ progress_value slice n <= 100.
Proof.
  intros Hs Hn.
  destruct (progress_value_rounded slice n Hs Hn) as (r & _ & Hr & _ & Hp & H100).
  destruct (ratio_bounds slice n Hs Hn) as [Hlo _]. cbv zeta in *.
  set (a := inject_Z (Z.of_nat (slice + 1)) / inject_Z (Z.of_nat n)) in *.
  set (p := progress_value slice n) in *. clearbody a p.
  apply Qabs_Qle_condition in Hr as [Hr1 Hr2].
  apply Qabs_Qle_condition in Hp as [Hp1 Hp2].
  split; lra.
Qed.

Lemma progress_value_increasing i j n :
  (i < j)%nat → (j < n)%nat → (Z.of_nat n < 2 ^ 32)%Z →
  progress_value i n < progress_value j n.
Proof.
  intros Hij Hj Hn.
  destruct (progress_value_rounded i n) as (r1 & _ & Hr1 & _ & Hp1 & _);
    [lia|done|].
  destruct (progress_value_rounded j n) as (r2 & _ & Hr2 & _ & Hp2 & _);
    [lia|done|].
  destruct (ratio_bounds i n) as [Hlo1 Hhi1]; [lia|done|].
  destruct (ratio_bounds j n) as [Hlo2 Hhi2]; [lia|done|].
  pose proof (ratio_gap i j n Hij Hj Hn) as Hgap. cbv zeta in *.
  set (a1 := inject_Z (Z.of_nat (i + 1)) / inject_Z (Z.of_nat n)) in *.
  set (a2 := inject_Z (Z.of_nat (j + 1)) / inject_Z (Z.of_nat n)) in *.
  set (p1 := progress_value i n) in *. set (p2 := progress_value j n) in *.
  clearbody a1 a2 p1 p2.
  apply Qabs_Qle_condition in Hr1 as [? ?], Hr2 as [? ?].
  apply Qabs_Qle_condition in Hp1 as [? ?], Hp2 as [? ?].
  lra.
Qed.

Lemma progress_value_last n :
  (0 < n)%nat → progress_value (n - 1) n = 100.
Proof.
  intros Hn. unfold progress_value, Double.mul, Double.div.
  replace (n - 1 + 1)%nat with n by lia.
  assert (H1 : inject_Z (Z.of_nat n) / inject_Z (Z.of_nat n) == 1).
  { field. change 0 with (inject_Z 0). rewrite inject_Z_injective. lia. }
  rewrite (round_comp _ _ H1), round_1. reflexivity.
Qed.

End binary64.
(** C5, as the code has it: the [setProgress] calls of a run are 0, then
    one percentage per completed slice, then 0 again.  After slice i of N
    the percentage is the double that [((i + 1) / N) * 100] evaluates to,
    within a relative error of 2^-51 of 100 * (i+1)/N; the percentages lie
    in (0, 100], grow strictly, and the last one is exactly 100.  With
    N = 0 the two resets to 0 are the only reports and the output is a
    copy of the input.  The width of an [ImageData] is an unsigned long. *)
Theorem C5_progress_reports s img section bytes :
  wf_image s img bytes → valid_section section →
  (Z.of_nat (width img) < 2 ^ 32)%Z →
  let N := width img / Z.to_nat (size section) in
  ∃ s' out outbytes,
    processed s img section s' out outbytes ∧
    progress_log s' = progress_log s ++ [0%Q]
       ++ ((λ i, progress_value i N) <$> seq 0 N) ++ [0%Q] ∧
    (∀ i, i < N →
       (Qabs (progress_value i N
              - 100 * (inject_Z (Z.of_nat i + 1) / inject_Z (Z.of_nat N)))
        <= 100 * (inject_Z (Z.of_nat i + 1) / inject_Z (Z.of_nat N))
           * (1 # 2 ^ 51))%Q ∧
       (0 < progress_value i N)%Q ∧ (progress_value i N <= 100)%Q) ∧
    (∀ i j, i < j → j < N → (progress_value i N < progress_value j N)%Q) ∧
    (0 < N → progress_value (N - 1) N = 100%Q) ∧
    (N = 0 → progress_log s' = progress_log s ++ [0%Q; 0%Q] ∧
             outbytes = bytes).
Proof.
  intros Hwf Hvalid Hwidth N.
  destruct (processed_valid s img section bytes Hwf Hvalid)
    as (s' & Hrun & _ & Hlog & _).
  fold N in Hlog.
  assert (HN : (Z.of_nat N < 2 ^ 32)%Z).
  { destruct Hvalid as [Hsize _]. unfold N.
    assert (width img / Z.to_nat (size section) ≤ width img); [|lia].
    apply Nat.Div0.div_le_upper_bound. nia. }
  eexists _, _, _. split; [exact Hrun|]. split; [exact Hlog|].
  split; [|split; [|split]].
  - intros i Hi. split; [by apply progress_value_exact|].
    by apply progress_value_bounds.
  - intros i j Hij Hj. by apply progress_value_increasing.
  - apply progress_value_last.
  - intros HN0. rewrite Hlog. unfold gather. fold N. rewrite HN0. done.
Qed.

Lemma C5_progress_reports_witness :
  (let N := 9 / Z.to_nat 3 in
   ∃ s' out outbytes,
     processed (state_of [pixels_ABC ++ pixels_ABC ++ pixels_ABC])
               (mkImageData 9 1 0) section_312 s' out outbytes ∧
     progress_log s' = [] ++ [0%Q]
        ++ ((λ i, progress_value i N) <$> seq 0 N) ++ [0%Q] ∧
     (∀ i, i < N →
        (Qabs (progress_value i N
               - 100 * (inject_Z (Z.of_nat i + 1) / inject_Z (Z.of_nat N)))
         <= 100 * (inject_Z (Z.of_nat i + 1) / inject_Z (Z.of_nat N))
            * (1 # 2 ^ 51))%Q ∧
        (0 < progress_value i N)%Q ∧ (progress_value i N <= 100)%Q) ∧
     (∀ i j, i < j → j < N → (progress_value i N < progress_value j N)%Q) ∧
     (0 < N → progress_value (N - 1) N = 100%Q) ∧
     (N = 0 → progress_log s' = [] ++ [0%Q; 0%Q] ∧
              outbytes = pixels_ABC ++ pixels_ABC ++ pixels_ABC)) ∧
  (let N := 2 / Z.to_nat 3 in
   ∃ s' out outbytes,
     processed (state_of [pixels_AB]) (mkImageData 2 1 0) section_312
               s' out outbytes ∧
     progress_log s' = [] ++ [0%Q]
        ++ ((λ i, progress_value i N) <$> seq 0 N) ++ [0%Q] ∧
     (∀ i, i < N →
        (Qabs (progress_value i N
               - 100 * (inject_Z (Z.of_nat i + 1) / inject_Z (Z.of_nat N)))
         <= 100 * (inject_Z (Z.of_nat i + 1) / inject_Z (Z.of_nat N))
            * (1 # 2 ^ 51))%Q ∧
        (0 < progress_value i N)%Q ∧ (progress_value i N <= 100)%Q) ∧
     (∀ i j, i < j → j < N → (progress_value i N < progress_value j N)%Q) ∧
     (0 < N → progress_value (N - 1) N = 100%Q) ∧
     (N = 0 → progress_log s' = [] ++ [0%Q; 0%Q] ∧ outbytes = pixels_AB)).
Proof.
  split.
  - apply (C5_progress_reports
             (state_of [pixels_ABC ++ pixels_ABC ++ pixels_ABC])
             (mkImageData 9 1 0) section_312
             (pixels_ABC ++ pixels_ABC ++ pixels_ABC)).
    + repeat split; cbn; lia.
    + apply (bool_decide_unpack _). vm_compute. reflexivity.
    + cbn. lia.
  - apply (C5_progress_reports (state_of [pixels_AB]) (mkImageData 2 1 0)
             section_312 pixels_AB).
    + repeat split; cbn; lia.
    + apply (bool_decide_unpack _). vm_compute. reflexivity.
    + cbn. lia.
Defined.

(** C5 as stated fails: with width 2 and size 3 there is no complete
    slice, and the only reports are the two resets to 0, so no report of
    1.0 is ever made; with width 4 and size 3 the reports are 0, 100, 0. *)
Lemma C5_progress_counterexample :
  (∃ s', processImage (Some (mkImageData 2 1 0)) (Some section_312)
                      (state_of [pixels_AB]) = Ret s' tt ∧
         progress_log s' = [0%Q; 0%Q] ∧
         ¬ completion_ratios_as_specified (progress_log s')) ∧
  (∃ s', processImage (Some (mkImageData 4 1 0)) (Some section_312)
                      (state_of [pixels_ABCD]) = Ret s' tt ∧
         progress_log s' = [0%Q; 100%Q; 0%Q] ∧
         ¬ completion_ratios_as_specified (progress_log s')).
Proof.
  split; eexists; (split; [vm_compute; reflexivity|]);
    (split; [reflexivity|]); cbn [progress_log];
    intros (_ & _ & q & Hlast & Hq); cbn in Hlast;
    injection Hlast as <-; discriminate Hq.
Qed.

(** ** parseInt reads back the numerals that String writes *)

Lemma parse_digits_uint d acc :
  (0 ≤ default 0 acc)%Z →
  JS.parse_digits 10 (NilEmpty.string_of_uint d) acc
  = match d with
    | Decimal.Nil => acc
    | _ => Some (Z.of_nat (Nat.of_uint_acc d (Z.to_nat (default 0%Z acc))))
    end.
Proof.
  revert acc.
  induction d as [|d IH|d IH|d IH|d IH|d IH|d IH|d IH|d IH|d IH|d IH];
    intros acc Hacc; [reflexivity|..];
    cbn [NilEmpty.string_of_uint JS.parse_digits];
    (lazymatch goal with
     | |- context [JS.radix_digit 10 ?c] =>
         let v := eval vm_compute in (JS.radix_digit 10 c) in
         change (JS.radix_digit 10 c) with v
     end);
    cbv iota; set (a := default 0%Z acc) in *;
    rewrite IH by (cbn; lia);
    cbn [Nat.of_uint_acc]; rewrite Nat.tail_mul_spec;
    change (default 0%Z (Some ?x)) with x;
    (destruct d; [cbn [Nat.of_uint_acc]; f_equal; lia | do 3 f_equal; lia ..]).
Qed.

Lemma parseInt_uint d :
  JS.parseInt (NilEmpty.string_of_uint d)
  = match JS.parse_digits 10 (NilEmpty.string_of_uint d) None with
    | Some m => Num (1 * m)
    | None => NaN
    end.
Proof.
  destruct d as [|d|d|d|d|d|d|d|d|d|d]; try reflexivity.
  destruct d; reflexivity.
Qed.

Lemma parseInt_decimal n : JS.parseInt (JS.decimal n) = Num (Z.of_nat n).
Proof.
  unfold JS.decimal.
  rewrite <- (Unsigned.of_to n) at 2.
  destruct (Nat.to_uint n) as [|d|d|d|d|d|d|d|d|d|d] eqn:Hd; [reflexivity|..];
    unfold NilZero.string_of_uint;
    rewrite parseInt_uint, parse_digits_uint by (cbn; lia);
    cbn [default]; change (Z.to_nat 0) with 0%nat; unfold Nat.of_uint;
    by rewrite Z.mul_1_l.
Qed.

Lemma parseInt_ToString z :
  (0 ≤ z)%Z → JS.parseInt (JS.ToString (Num z)) = Num z.
Proof.
  intros Hz. unfold JS.ToString.
  destruct (Z.ltb_spec z 0); [lia|].
  rewrite parseInt_decimal. f_equal. lia.
Qed.

(** ** The three outcomes of the validation block *)

Lemma in_range_or_out size v : in_range size v ∨ out_of_bounds size v.
Proof.
  destruct v as [|z]; [right; by left|].
  destruct (decide (1 ≤ z ≤ size)%Z).
  - left. by exists z.
  - right. right. exists z. split; [done|lia].
Qed.

Lemma in_range_not_out size v : in_range size v → ¬ out_of_bounds size v.
Proof.
  intros (z & -> & Hz) [Hnan|(z' & [= <-] & Hz')]; [done|lia].
Qed.

Lemma out_of_range_spec size v :
  JS.isNaN v || out_of_range size v = true ↔ out_of_bounds size v.
Proof.
  destruct v as [|z]; cbn [JS.isNaN out_of_range orb].
  - split; [by left|done].
  - rewrite orb_true_iff, Z.ltb_lt, Z.gtb_lt. split.
    + intros Hz. right. exists z. split; [done|lia].
    + intros [Hnan|(z' & [= <-] & Hz)]; [done|lia].
Qed.

Lemma range_check_true size pattern :
  existsb JS.isNaN pattern || existsb (out_of_range size) pattern = true ↔
  Exists (out_of_bounds size) pattern.
Proof.
  induction pattern as [|v rest IH].
  - cbn. split; [done|]. intros H. by apply Exists_nil in H.
  - rewrite Exists_cons, <- IH, <- out_of_range_spec. cbn [existsb].
    rewrite !orb_true_iff. tauto.
Qed.

Lemma range_check_false size pattern :
  existsb JS.isNaN pattern || existsb (out_of_range size) pattern = false ↔
  Forall (in_range size) pattern.
Proof.
  rewrite <- not_true_iff_false, range_check_true. split.
  - intros Hno. apply Forall_forall. intros v Hv.
    destruct (in_range_or_out size v) as [|Hout]; [done|].
    exfalso. apply Hno. apply Exists_exists. eauto.
  - intros Hall Hex. apply Exists_exists in Hex as (v & Hv & Hout).
    rewrite Forall_forall in Hall.
    by apply (in_range_not_out size v (Hall v Hv)).
Qed.

Lemma length_remove_dups_le (pattern : list number) :
  length (remove_dups pattern) ≤ length pattern.
Proof.
  induction pattern as [|v rest IH]; cbn; [done|].
  destruct (decide_rel _ _ _); cbn; lia.
Qed.

Lemma Set_size_NoDup pattern :
  Set_size pattern = length pattern ↔ NoDup pattern.
Proof.
  unfold Set_size. induction pattern as [|v rest IH]; cbn.
  - split; [intros _; constructor|done].
  - pose proof (length_remove_dups_le rest).
    rewrite NoDup_cons. destruct (decide_rel _ _ _) as [Hin|Hnin]; cbn.
    + split; [lia|]. intros [Hnin _]. done.
    + split.
      * intros Hlen. split; [done|]. apply IH. lia.
      * intros [_ Hnd]. f_equal. by apply IH.
Qed.

(** The validator has exactly these three behaviours. *)
Lemma validate_cases size fields :
  let pattern := JS.parseInt <$> fields in
  (Exists (out_of_bounds size) pattern ∧
   validate size fields = Rejected InvalidRange) ∨
  (Forall (in_range size) pattern ∧ ¬ NoDup pattern ∧
   validate size fields = Rejected DuplicateValue) ∨
  (Forall (in_range size) pattern ∧ NoDup pattern ∧
   validate size fields = Accepted pattern).
Proof.
  intros pattern. unfold validate. fold pattern.
  change (map JS.parseInt fields) with pattern.
  destruct (existsb JS.isNaN pattern || existsb (out_of_range size) pattern)
    eqn:Hrange.
  - left. split; [|done]. by apply range_check_true.
  - right. apply range_check_false in Hrange.
    destruct (Nat.eqb_spec (Set_size pattern) (length pattern)) as [Heq|Hne];
      cbn [negb].
    + right. split; [done|]. split; [|done]. by apply Set_size_NoDup.
    + left. split; [done|]. split; [|done].
      intros Hnd. by apply Hne, Set_size_NoDup.
Qed.

Lemma validate_rejects_out_of_bounds size fields :
  Exists (out_of_bounds size) (JS.parseInt <$> fields) →
  validate size fields = Rejected InvalidRange.
Proof.
  intros Hex.
  destruct (validate_cases size fields) as [[_ ?]|[(Hall & _)|(Hall & _)]];
    [done|exfalso..];
    apply Exists_exists in Hex as (v & Hv & Hout);
    rewrite Forall_forall in Hall;
    by apply (in_range_not_out size v (Hall v Hv)).
Qed.

Lemma validate_rejects_duplicates size fields :
  Forall (in_range size) (JS.parseInt <$> fields) →
  ¬ NoDup (JS.parseInt <$> fields) →
  validate size fields = Rejected DuplicateValue.
Proof.
  intros Hall Hdup.
  destruct (validate_cases size fields)
    as [[Hex _]|[(_ & _ & ?)|(_ & Hnd & _)]]; [exfalso|done|done].
  apply Exists_exists in Hex as (v & Hv & Hout).
  rewrite Forall_forall in Hall.
  by apply (in_range_not_out size v (Hall v Hv)).
Qed.

Lemma validate_accepts size fields :
  Forall (in_range size) (JS.parseInt <$> fields) →
  NoDup (JS.parseInt <$> fields) →
  validate size fields = Accepted (JS.parseInt <$> fields).
Proof.
  intros Hall Hnd.
  destruct (validate_cases size fields)
    as [[Hex _]|[(_ & Hdup & _)|(_ & _ & ?)]]; [exfalso|done|done].
  apply Exists_exists in Hex as (v & Hv & Hout).
  rewrite Forall_forall in Hall.
  by apply (in_range_not_out size v (Hall v Hv)).
Qed.

Lemma validate_accepted_inv size fields pattern :
  validate size fields = Accepted pattern →
  pattern = JS.parseInt <$> fields ∧
  Forall (in_range size) pattern ∧ NoDup pattern.
Proof.
  intros Hacc.
  destruct (validate_cases size fields)
    as [[_ H]|[(_ & _ & H)|(Hall & Hnd & H)]];
    rewrite H in Hacc; [done..|].
  by injection Hacc as <-.
Qed.

Lemma in_range_1_to S v : v ∈ numbers_1_to S → in_range (Z.of_nat S) v.
Proof.
  intros Hin. apply list_elem_of_fmap in Hin as (n & -> & Hn).
  apply elem_of_seq in Hn. exists (Z.of_nat n). split; [done|lia].
Qed.

Lemma NoDup_numbers_1_to S : NoDup (numbers_1_to S).
Proof.
  unfold numbers_1_to. apply NoDup_fmap_2_strong; [|apply NoDup_seq].
  intros n m _ _ [= H]. lia.
Qed.

Lemma parseInt_ToString_pattern size pattern :
  Forall (in_range size) pattern →
  JS.parseInt <$> (JS.ToString <$> pattern) = pattern.
Proof.
  induction 1 as [|v rest (z & -> & Hz) _ IH]; [done|].
  cbn [fmap list_fmap]. rewrite parseInt_ToString by lia.
  f_equal. exact IH.
Qed.

Lemma validate_accepts_permutation S pattern :
  is_permutation_pattern S pattern →
  validate (Z.of_nat S) (JS.ToString <$> pattern) = Accepted pattern.
Proof.
  intros Hperm.
  assert (Hall : Forall (in_range (Z.of_nat S)) pattern).
  { apply Forall_forall. intros v Hv. apply in_range_1_to.
    by rewrite <- Hperm. }
  pose proof (parseInt_ToString_pattern _ _ Hall) as Hparse.
  rewrite <- Hparse at 2. apply validate_accepts; rewrite Hparse; [done|].
  rewrite Hperm. apply NoDup_numbers_1_to.
Qed.

(** Opening a valid section for editing and saving it untouched stores the
    same section. *)
Lemma edit_then_save_unchanged section :
  valid_section section →
  handleSaveEdit section (handleEditSection section) = Stored section.
Proof.
  intros [Hsize Hperm]. unfold handleSaveEdit, handleEditSection.
  rewrite <- (Z2Nat.id (size section)) at 1 by lia.
  change (map JS.ToString (pattern section))
    with (JS.ToString <$> pattern section).
  rewrite (validate_accepts_permutation _ _ Hperm).
  by destruct section.
Qed.

(** C3, as the code has it: a permutation of 1..size written out in
    decimal is accepted; a pattern is rejected with InvalidRange whenever
    parseInt reads NaN or an integer outside [1, size] from one of its
    fields, and with DuplicateValue whenever every field reads as an
    integer of [1, size] and some integer is read twice. *)
Theorem C3_validate_outcomes :
  (∀ S pattern,
     1 ≤ S → is_permutation_pattern S pattern →
     validate (Z.of_nat S) (JS.ToString <$> pattern) = Accepted pattern) ∧
  (∀ size fields,
     Exists (out_of_bounds size) (JS.parseInt <$> fields) →
     validate size fields = Rejected InvalidRange) ∧
  (∀ size fields,
     Forall (in_range size) (JS.parseInt <$> fields) →
     ¬ NoDup (JS.parseInt <$> fields) →
     validate size fields = Rejected DuplicateValue).
Proof.
  split; [|split].
  - intros S pattern _ Hperm. by apply validate_accepts_permutation.
  - apply validate_rejects_out_of_bounds.
  - apply validate_rejects_duplicates.
Qed.

Lemma C3_validate_outcomes_witness :
  validate (Z.of_nat 3) (JS.ToString <$> [Num 3; Num 1; Num 2])
    = Accepted [Num 3; Num 1; Num 2] ∧
  validate 3 ["3"; "x"; "2"] = Rejected InvalidRange ∧
  validate 3 ["3"; "7"; "2"] = Rejected InvalidRange ∧
  validate 3 ["3"; "1"; "3"] = Rejected DuplicateValue.
Proof.
  destruct C3_validate_outcomes as (Hperm & Hrange & Hdup).
  split; [|split; [|split]].
  - apply (Hperm 3); [lia|].
    apply (bool_decide_unpack _). vm_compute. reflexivity.
  - apply Hrange. apply Exists_cons_tl, Exists_cons_hd. by left.
  - apply Hrange. apply Exists_cons_tl, Exists_cons_hd. right.
    exists 7%Z. split; [reflexivity|lia].
  - apply Hdup.
    + change (JS.parseInt <$> ["3"; "1"; "3"]) with [Num 3; Num 1; Num 3].
      repeat (apply Forall_cons_2; [eexists; (split; [reflexivity|lia])|]).
      apply Forall_nil_2.
    + apply (bool_decide_unpack _). vm_compute. reflexivity.
Defined.

(** C3 as stated fails: the field "1.5" is not the text of an integer and
    yet the pattern is accepted, with 1 stored in its place; and a pattern
    whose only value occurs twice but lies outside [1, size] is rejected
    with InvalidRange, not DuplicateValue. *)
Lemma C3_validate_counterexample :
  (is_integer_text "1.5" = false ∧
   validate 2 ["1.5"; "2"] = Accepted [Num 1; Num 2]) ∧
  (is_integer_text "2nd" = false ∧
   validate 2 ["1"; "2nd"] = Accepted [Num 1; Num 2]) ∧
  (¬ NoDup (JS.parseInt <$> ["5"; "5"]) ∧
   validate 2 ["5"; "5"] = Rejected InvalidRange).
Proof.
  repeat split; try reflexivity.
  apply (bool_decide_unpack _). vm_compute. reflexivity.
Qed.

(** ** The length of an accepted pattern *)

Lemma accepted_among_1_to size pattern :
  Forall (in_range size) pattern → NoDup pattern →
  pattern ⊆+ numbers_1_to (Z.to_nat size).
Proof.
  intros Hall Hnd. apply NoDup_submseteq; [done|]. intros v Hv.
  rewrite Forall_forall in Hall. destruct (Hall v Hv) as (z & -> & Hz).
  apply list_elem_of_fmap. exists (Z.to_nat z).
  split; [f_equal; lia|]. apply elem_of_seq. lia.
Qed.

Lemma length_numbers_1_to S : length (numbers_1_to S) = S.
Proof. unfold numbers_1_to. by rewrite length_fmap, length_seq. Qed.

Lemma accepted_length size pattern :
  (0 ≤ size)%Z → Forall (in_range size) pattern → NoDup pattern →
  (Z.of_nat (length pattern) ≤ size)%Z.
Proof.
  intros Hsize Hall Hnd.
  pose proof (submseteq_length _ _ (accepted_among_1_to _ _ Hall Hnd)) as Hle.
  rewrite length_numbers_1_to in Hle. lia.
Qed.

(** When the form has as many fields as the size says, which is how
    [handleCreateSection] and [handleSaveEdit] find it, an accepted pattern
    is a permutation of [1..size]: the section is valid. *)
Lemma validate_full_length_valid label size fields pattern :
  (1 ≤ size)%Z → Z.of_nat (length fields) = size →
  validate size fields = Accepted pattern →
  valid_section (mkSection label size pattern).
Proof.
  intros Hsize Hlen Hacc.
  apply validate_accepted_inv in Hacc as (-> & Hall & Hnd).
  split; [done|]. unfold is_permutation_pattern.
  apply submseteq_length_Permutation; [by apply accepted_among_1_to|].
  cbn. rewrite length_numbers_1_to, length_fmap. lia.
Qed.

(** A stored pattern with fewer entries than its size makes [processImage]
    fail on the first complete slice: [pattern[x]] is [undefined] there. *)
Example short_pattern_fails :
  ∃ s', processImage (Some (mkImageData 3 1 0))
                     (Some (mkSection "short" 3 [Num 1; Num 2]))
                     (state_of [pixels_ABC]) = Ret s' tt ∧
        toasts s' = [toast_error "Failed to process image"] ∧
        processedImageData s' = None.
Proof. eexists. split; [vm_compute; reflexivity|]. by split. Qed.

(** C4, as the code has it: there is no length check and no SizeMismatch
    outcome.  For a size of at least 0 and a pattern whose length differs
    from it: an accepted pattern is shorter than the size; a pattern longer
    than the size is always rejected, with one of the two other errors; and
    a shorter pattern of distinct integers of [1, size] is accepted. *)
Theorem C4_length_not_checked size fields :
  (0 ≤ size)%Z → Z.of_nat (length fields) ≠ size →
  (∀ pattern, validate size fields = Accepted pattern →
     length pattern = length fields ∧
     (Z.of_nat (length pattern) < size)%Z) ∧
  ((size < Z.of_nat (length fields))%Z →
     validate size fields = Rejected InvalidRange ∨
     validate size fields = Rejected DuplicateValue) ∧
  (Forall (in_range size) (JS.parseInt <$> fields) →
   NoDup (JS.parseInt <$> fields) →
   validate size fields = Accepted (JS.parseInt <$> fields)).
Proof.
  intros Hsize Hne. split; [|split].
  - intros pattern Hacc.
    apply validate_accepted_inv in Hacc as (-> & Hall & Hnd).
    pose proof (accepted_length size _ Hsize Hall Hnd) as Hle.
    rewrite length_fmap in *. split; [done|lia].
  - intros Hlong.
    destruct (validate_cases size fields)
      as [[_ ?]|[(_ & _ & ?)|(Hall & Hnd & _)]]; [by left|by right|].
    pose proof (accepted_length size _ Hsize Hall Hnd) as Hle.
    rewrite length_fmap in Hle. lia.
  - apply validate_accepts.
Qed.

Lemma C4_length_not_checked_witness :
  (∀ pattern, validate 3 ["1"; "2"] = Accepted pattern →
     length pattern = length ["1"; "2"] ∧
     (Z.of_nat (length pattern) < 3)%Z) ∧
  ((3 < Z.of_nat (length ["1"; "2"]))%Z →
     validate 3 ["1"; "2"] = Rejected InvalidRange ∨
     validate 3 ["1"; "2"] = Rejected DuplicateValue) ∧
  (Forall (in_range 3) (JS.parseInt <$> ["1"; "2"]) →
   NoDup (JS.parseInt <$> ["1"; "2"]) →
   validate 3 ["1"; "2"] = Accepted (JS.parseInt <$> ["1"; "2"])).
Proof.
  apply (C4_length_not_checked 3 ["1"; "2"]).
  - lia.
  - cbn. lia.
Defined.

(** C4 as stated fails: a pattern of two entries is accepted for size 3,
    and so is the empty pattern for size 6 (the state of the form before
    its fields are laid out). *)
Lemma C4_length_counterexample :
  (Z.of_nat (length ["1"; "2"]) ≠ 3%Z ∧
   validate 3 ["1"; "2"] = Accepted [Num 1; Num 2]) ∧
  (Z.of_nat (length (@nil string)) ≠ 6%Z ∧
   validate 6 [] = Accepted []) ∧
  handleCreateSection "weave" 3 ["1"; "2"]
    = Stored (mkSection "weave" 3 [Num 1; Num 2]).
Proof. repeat split; (reflexivity || (cbn; lia)). Qed.

(** * Further properties of processImage

    The statements below hold for every section, validated or not. *)

(** ** Outcomes of the loops *)

#[local] Instance loop_effect_refl : Reflexive loop_effect.
Proof. intros s. repeat split. exists []. by rewrite app_nil_r. Qed.

#[local] Instance loop_effect_trans : Transitive loop_effect.
Proof.
  intros s1 s2 s3 (Ht & Hp & Hg & r1 & Hr1) (Ht' & Hp' & Hg' & r2 & Hr2).
  repeat split; [congruence..|].
  exists (r1 ++ r2). by rewrite Hr2, Hr1, app_assoc.
Qed.

Section outcomes.
Context (R : State → State → Prop) `{!Reflexive R, !Transitive R}.

Lemma related_ret {A} (a : A) : outcome_related R (mret a).
Proof. intros s. cbn. reflexivity. Qed.

Lemma related_throw {A} e : outcome_related R (@throw A e).
Proof. intros s. cbn. reflexivity. Qed.

Lemma related_bind {A B} (m : M A) (f : A → M B) :
  outcome_related R m → (∀ a, outcome_related R (f a)) →
  outcome_related R (m ≫= f).
Proof.
  intros Hm Hf s. rewrite bind_run. specialize (Hm s).
  destruct (m s) as [s1 a|s1 e|]; [|done..].
  specialize (Hf a s1).
  destruct (f a s1) as [s2 b|s2 e|]; [| |done]; by etransitivity.
Qed.

Lemma related_forM xs body :
  (∀ x, outcome_related R (body x)) → outcome_related R (forM xs body).
Proof.
  intros Hbody. induction xs as [|x xs IH]; [apply related_ret|].
  cbn [forM]. apply related_bind; [apply Hbody|]. intros _. apply IH.
Qed.

Lemma related_mapM {B} (f : nat → M B) xs :
  (∀ x, outcome_related R (f x)) → outcome_related R (mapM f xs).
Proof.
  intros Hf. induction xs as [|x xs IH]; [apply related_ret|].
  cbn [mapM]. apply related_bind; [apply Hf|]. intros b.
  apply related_bind; [apply IH|]. intros bs. apply related_ret.
Qed.

End outcomes.

Lemma effect_array_get arr i : outcome_related loop_effect (array_get arr i).
Proof. intros s. cbn. reflexivity. Qed.

Lemma effect_array_set arr i v : outcome_related loop_effect (array_set arr i v).
Proof. intros s. cbn. repeat split. exists []. by rewrite app_nil_r. Qed.

Lemma effect_setProgress q : outcome_related loop_effect (setProgress q).
Proof. intros s. cbn. repeat split. by exists [q]. Qed.

Lemma effect_copy_from input output i :
  outcome_related loop_effect (copy_from input output i).
Proof.
  unfold copy_from. apply related_bind; [apply _..|apply effect_array_get|].
  intros v. apply effect_array_set.
Qed.

Lemma effect_read_row input w start y S :
  outcome_related loop_effect (read_row input w start y S).
Proof.
  unfold read_row. apply related_mapM; [apply _..|]. intros x.
  repeat (apply related_bind; [apply _..|apply effect_array_get|]; intros ?).
  apply related_ret. apply _.
Qed.

Lemma effect_write_row output pattern row w start y S :
  outcome_related loop_effect (write_row output pattern row w start y S).
Proof.
  unfold write_row, for_range. apply related_forM; [apply _..|]. intros x.
  destruct (js_index row (minus_one (pattern !! x)))
    as [[[[r g] b] a]|]; [|apply related_throw; apply _].
  repeat (apply related_bind; [apply _..|apply effect_array_set|]; intros _).
  apply effect_array_set.
Qed.

Lemma effect_process_slice img out section k slice :
  outcome_related loop_effect (process_slice img out section k slice).
Proof.
  unfold process_slice, for_range.
  apply related_bind; [apply _..| |intros _; apply effect_setProgress].
  apply related_forM; [apply _..|]. intros y.
  apply related_bind; [apply _..|apply effect_read_row|].
  intros row. apply effect_write_row.
Qed.

(** The body of the [try] block either runs to its end, and then it has
    stored the new image and shown the success toast, or it throws before
    doing either. *)
Lemma process_body_outcome img section s :
  match process_body img section s with
  | Ret s' _ =>
      toasts s' = toasts s ++ [success_toast] ∧
      processedImageData s'
      = Some (mkImageData (width img) (height img) (length (heap s))) ∧
      processing s' = processing s ∧
      ∃ reports, progress_log s' = progress_log s ++ reports
  | Throw s' _ => loop_effect s s'
  | Hang => True
  end.
Proof.
  unfold process_body. rewrite bind_run. unfold new_ImageData.
  destruct ((width img =? 0) || (height img =? 0)); [reflexivity|].
  set (out := mkImageData (width img) (height img) (length (heap s))).
  set (s1 := upd_heap _ s).
  assert (H1 : loop_effect s s1).
  { repeat split. exists []. by rewrite app_nil_r. }
  rewrite bind_run.
  change (array_length (data img) s1)
    with (Ret s1 (length (default [] (heap s1 !! data img)))).
  cbv iota beta. rewrite bind_run.
  match goal with
  | |- context [for_range ?len (copy_from ?a ?b) s1] =>
      pose proof (related_forM loop_effect (seq 0 len) (copy_from a b)
                    (effect_copy_from a b) s1) as H2;
      change (forM (seq 0 len) (copy_from a b)) with
        (for_range len (copy_from a b)) in H2;
      destruct (for_range len (copy_from a b) s1) as [s2 []|s2 e|]
  end; [|by etransitivity|done].
  destruct (numCompleteSlices (width img) (size section)) as [n|]; [|done].
  rewrite bind_run.
  pose proof (related_forM loop_effect (seq 0 n)
                (process_slice img out section n)
                (effect_process_slice img out section n) s2) as H3.
  change (forM (seq 0 n) (process_slice img out section n)) with
    (for_range n (process_slice img out section n)) in H3.
  destruct (for_range n (process_slice img out section n) s2)
    as [s3 []|s3 e|]; [| |done].
  - destruct (transitivity H1 (transitivity H2 H3))
      as (Ht & _ & Hg & reports & Hr).
    unfold mbind, M_bind, setProcessedImageData, show_toast.
    cbn [toasts processedImageData processing progress_log].
    rewrite Ht, Hg. repeat split. by exists reports.
  - by do 2 (etransitivity; [eassumption|]).
Qed.

(** Whatever the image and the section, a run that comes back has cleared
    the processing flag, has reported 0 first and 0 last, and has either
    succeeded (success toast, the new image stored) or failed (failure
    toast, the stored image left as it was, so that an earlier result
    stays in place). *)
Theorem processImage_outcome s img section s' r :
  processImage (Some img) (Some section) s = Ret s' r →
  processing s' = false ∧
  (∃ reports,
     progress_log s' = progress_log s ++ [0%Q] ++ reports ++ [0%Q]) ∧
  ((toasts s' = toasts s ++ [success_toast] ∧
    processedImageData s'
    = Some (mkImageData (width img) (height img) (length (heap s)))) ∨
   (toasts s' = toasts s ++ [failure_toast] ∧
    processedImageData s' = processedImageData s)).
Proof.
  intros Hrun.
  set (s1 := mkState (heap s) true (progress_log s ++ [0%Q])
                     (processedImageData s) (toasts s)).
  change (try_catch_finally (process_body img section)
            (λ _, show_toast (toast_error "Failed to process image"))
            (setProcessing false ;; setProgress 0%Q) s1 = Ret s' r) in Hrun.
  pose proof (process_body_outcome img section s1) as Hbody.
  unfold try_catch_finally in Hrun.
  destruct (process_body img section s1) as [s2 a|s2 e|]; [| |done].
  - destruct Hbody as (Ht & Hp & _ & reports & Hr).
    injection Hrun as <- _. cbn. split; [done|]. split.
    + exists reports. rewrite Hr. cbn. by rewrite <- !app_assoc.
    + left. by rewrite Ht, Hp.
  - destruct Hbody as (Ht & Hp & _ & reports & Hr).
    injection Hrun as <- _. cbn. split; [done|]. split.
    + exists reports. rewrite Hr. cbn. by rewrite <- !app_assoc.
    + right. by rewrite Ht, Hp.
Qed.

Lemma processImage_outcome_witness :
  ∃ s',
    processImage (Some (mkImageData 3 1 0))
                 (Some (mkSection "short" 3 [Num 1; Num 2]))
                 (state_of [pixels_ABC]) = Ret s' tt ∧
    processing s' = false ∧
    (∃ reports, progress_log s' = [] ++ [0%Q] ++ reports ++ [0%Q]) ∧
    ((toasts s' = [] ++ [success_toast] ∧
      processedImageData s' = Some (mkImageData 3 1 1)) ∨
     (toasts s' = [] ++ [failure_toast] ∧ processedImageData s' = None)).
Proof.
  eexists. split; [vm_compute; reflexivity|].
  apply (processImage_outcome (state_of [pixels_ABC]) (mkImageData 3 1 0)
           (mkSection "short" 3 [Num 1; Num 2]) _ tt).
  vm_compute. reflexivity.
Defined.

(** ** Termination *)

Lemma returns_never_hangs {A} (m : M A) : always_returns m → never_hangs m.
Proof. intros Hm s. destruct (Hm s) as (s' & a & ->). done. Qed.

Lemma returns_bind {A B} (m : M A) (f : A → M B) :
  always_returns m → (∀ a, always_returns (f a)) → always_returns (m ≫= f).
Proof.
  intros Hm Hf s. rewrite bind_run.
  destruct (Hm s) as (s1 & a & ->). apply Hf.
Qed.

Lemma returns_forM xs body :
  (∀ x, always_returns (body x)) → always_returns (forM xs body).
Proof.
  intros Hbody. induction xs as [|x xs IH]; [intros s; by eexists _, _|].
  cbn [forM]. apply returns_bind; [apply Hbody|]. intros _. apply IH.
Qed.

Lemma returns_mapM {B} (f : nat → M B) xs :
  (∀ x, always_returns (f x)) → always_returns (mapM f xs).
Proof.
  intros Hf. induction xs as [|x xs IH]; [intros s; by eexists _, _|].
  cbn [mapM]. apply returns_bind; [apply Hf|]. intros b.
  apply returns_bind; [apply IH|]. intros bs s. by eexists _, _.
Qed.

Lemma never_hangs_bind {A B} (m : M A) (f : A → M B) :
  never_hangs m → (∀ a, never_hangs (f a)) → never_hangs (m ≫= f).
Proof.
  intros Hm Hf s. rewrite bind_run. specialize (Hm s).
  destruct (m s) as [s1 a|s1 e|]; [apply Hf|done..].
Qed.

Lemma never_hangs_forM xs body :
  (∀ x, never_hangs (body x)) → never_hangs (forM xs body).
Proof.
  intros Hbody. induction xs as [|x xs IH]; [done|].
  cbn [forM]. apply never_hangs_bind; [apply Hbody|]. intros _. apply IH.
Qed.

Lemma returns_array_get arr i : always_returns (array_get arr i).
Proof. intros s. by eexists _, _. Qed.

Lemma returns_array_set arr i v : always_returns (array_set arr i v).
Proof. intros s. by eexists _, _. Qed.

Lemma returns_copy_loop input output n :
  always_returns (for_range n (copy_from input output)).
Proof.
  apply returns_forM. intros i. unfold copy_from.
  apply returns_bind; [apply returns_array_get|].
  intros v. apply returns_array_set.
Qed.

Lemma returns_read_row input w start y S :
  always_returns (read_row input w start y S).
Proof.
  unfold read_row. apply returns_mapM. intros x.
  repeat (apply returns_bind; [apply returns_array_get|]; intros ?).
  intros s. by eexists _, _.
Qed.

Lemma never_hangs_write_row output pattern row w start y S :
  never_hangs (write_row output pattern row w start y S).
Proof.
  unfold write_row, for_range. apply never_hangs_forM. intros x.
  destruct (js_index row (minus_one (pattern !! x)))
    as [[[[r g] b] a]|]; [|done].
  apply returns_never_hangs.
  repeat (apply returns_bind; [apply returns_array_set|]; intros _).
  apply returns_array_set.
Qed.

Lemma never_hangs_process_slice img out section k slice :
  never_hangs (process_slice img out section k slice).
Proof.
  unfold process_slice, for_range.
  apply never_hangs_bind; [|done].
  apply never_hangs_forM. intros y.
  apply never_hangs_bind;
    [apply returns_never_hangs, returns_read_row|].
  intros row. apply never_hangs_write_row.
Qed.

Lemma process_body_hangs img section s :
  process_body img section s = Hang ↔
  size section = 0%Z ∧ width img ≠ 0 ∧ height img ≠ 0.
Proof.
  unfold process_body. rewrite bind_run. unfold new_ImageData.
  destruct (Nat.eqb_spec (width img) 0) as [Hw|Hw]; cbn [orb].
  { split; [done|]. tauto. }
  destruct (Nat.eqb_spec (height img) 0) as [Hh|Hh].
  { split; [done|]. tauto. }
  set (out := mkImageData (width img) (height img) (length (heap s))).
  set (s1 := upd_heap _ s).
  rewrite bind_run.
  change (array_length (data img) s1)
    with (Ret s1 (length (default [] (heap s1 !! data img)))).
  cbv iota beta. rewrite bind_run.
  destruct (returns_copy_loop (data img) (data out)
              (length (default [] (heap s1 !! data img))) s1)
    as (s2 & [] & ->).
  unfold numCompleteSlices.
  destruct (Z.eqb_spec (size section) 0) as [Hz|Hz].
  - destruct (Nat.eqb_spec (width img) 0); [done|]. tauto.
  - rewrite bind_run.
    pose proof (never_hangs_forM
      (seq 0 (Z.to_nat (Z.of_nat (width img) / size section)))
      (process_slice img out section
         (Z.to_nat (Z.of_nat (width img) / size section)))
      (never_hangs_process_slice img out section _) s2) as Hs.
    unfold for_range.
    destruct (forM _ _ s2) as [s3 []|s3 e|]; [| |done];
      (split; [done|tauto]).
Qed.

Lemma processImage_hangs_with_body img section s :
  processImage (Some img) (Some section) s = Hang ↔
  process_body img section
    (mkState (heap s) true (progress_log s ++ [0%Q])
             (processedImageData s) (toasts s)) = Hang.
Proof.
  set (s1 := mkState _ _ _ _ _).
  change (processImage (Some img) (Some section) s)
    with (try_catch_finally (process_body img section)
            (λ _, show_toast (toast_error "Failed to process image"))
            (setProcessing false ;; setProgress 0%Q) s1).
  unfold try_catch_finally.
  by destruct (process_body img section s1) as [s2 a|s2 e|].
Qed.

(** *** The loop run iteration by iteration *)

Lemma slice_loop_finite fuel img out section n slice s :
  n - slice ≤ fuel →
  slice_loop fuel img out section (Iterations n) slice s
  = (forM (seq slice (n - slice)) (process_slice img out section n) ;;
     mret Exited) s.
Proof.
  revert slice s. induction fuel as [|fuel IH]; intros slice s Hfuel;
    cbn [slice_loop below]; destruct (Nat.ltb_spec slice n) as [Hlt|Hge];
    try lia; try (by replace (n - slice) with 0 by lia).
  replace (n - slice) with (S (n - S slice)) by lia. cbn [seq forM].
  change (slice_iteration img out section (Iterations n) slice)
    with (process_slice img out section n slice).
  rewrite !bind_run.
  destruct (process_slice img out section n slice s) as [s1 []|s1 e|];
    [|done..].
  rewrite IH by lia. by rewrite bind_run.
Qed.

Lemma forM_nothing xs (body : nat → M unit) s :
  (∀ x s', body x s' = Ret s' tt) → forM xs body s = Ret s tt.
Proof.
  intros Hbody. induction xs as [|x xs IH]; [done|].
  cbn [forM]. by rewrite bind_run, Hbody.
Qed.

(** With a section of size 0 an iteration reads and writes nothing. *)
Lemma slice_rows_size_0 img out section slice s :
  size section = 0%Z → slice_rows img out section slice s = Ret s tt.
Proof.
  intros Hsize. unfold slice_rows, for_range. rewrite Hsize.
  apply forM_nothing. intros y s'. reflexivity.
Qed.

Lemma slice_loop_unbounded fuel img out section slice s :
  size section = 0%Z →
  slice_loop fuel img out section Unbounded slice s
  = Ret (mkState (heap s) (processing s)
           (progress_log s ++ replicate fuel 0%Q)
           (processedImageData s) (toasts s))
        (Running (slice + fuel)).
Proof.
  intros Hsize. revert slice s.
  induction fuel as [|fuel IH]; intros slice s; cbn [slice_loop below].
  - destruct s. cbn. by rewrite app_nil_r, Nat.add_0_r.
  - unfold slice_iteration. rewrite !bind_run, slice_rows_size_0 by done.
    cbn [progress_report]. unfold setProgress. rewrite IH. cbn.
    by rewrite <- app_assoc, Nat.add_succ_r.
Qed.

Lemma process_body_steps_finite fuel img section n s :
  numCompleteSlices (width img) (size section) = Iterations n →
  n ≤ fuel →
  process_body_steps fuel img section s
  = (process_body img section ;; mret Exited) s.
Proof.
  intros Hbound Hfuel. unfold process_body_steps, process_body.
  rewrite Hbound. rewrite !bind_run.
  destruct (new_ImageData (width img) (height img) s) as [s1 out|s1 e|];
    [|done..].
  rewrite !bind_run.
  destruct (array_length (data img) s1) as [s2 len|s2 e|]; [|done..].
  rewrite !bind_run.
  destruct (for_range len (copy_from (data img) (data out)) s2)
    as [s3 []|s3 e|]; [|done..].
  rewrite (bind_run (slice_loop _ _ _ _ _ _)), slice_loop_finite by lia.
  rewrite Nat.sub_0_r. unfold for_range. rewrite !bind_run.
  destruct (forM (seq 0 n) (process_slice img out section n) s3)
    as [s4 []|s4 e|]; [|done..].
  reflexivity.
Qed.

Lemma copy_loop_log input output xs s s' :
  forM xs (copy_from input output) s = Ret s' tt →
  progress_log s' = progress_log s.
Proof.
  revert s. induction xs as [|x xs IH]; intros s Hrun.
  - by injection Hrun as <-.
  - cbn [forM] in Hrun. rewrite bind_run in Hrun.
    destruct (copy_from input output x s) as [s1 []|s1 e|] eqn:Hstep;
      [|done..].
    apply IH in Hrun. rewrite Hrun.
    unfold copy_from in Hstep. rewrite bind_run in Hstep. cbn in Hstep.
    by injection Hstep as <-.
Qed.

Lemma process_body_steps_unbounded fuel img section s :
  size section = 0%Z → width img ≠ 0 → height img ≠ 0 →
  ∃ s', process_body_steps fuel img section s = Ret s' (Running fuel) ∧
        progress_log s' = progress_log s ++ replicate fuel 0%Q.
Proof.
  intros Hsize Hw Hh. unfold process_body_steps, numCompleteSlices.
  rewrite Hsize. cbn [Z.eqb].
  destruct (Nat.eqb_spec (width img) 0) as [|_]; [done|].
  rewrite bind_run. unfold new_ImageData.
  destruct (Nat.eqb_spec (width img) 0) as [|_]; [done|].
  destruct (Nat.eqb_spec (height img) 0) as [|_]; [done|]. cbn [orb].
  set (out := mkImageData (width img) (height img) (length (heap s))).
  set (s1 := upd_heap _ s).
  rewrite bind_run.
  change (array_length (data img) s1)
    with (Ret s1 (length (default [] (heap s1 !! data img)))).
  cbv iota beta. rewrite bind_run.
  destruct (returns_copy_loop (data img) (data out)
              (length (default [] (heap s1 !! data img))) s1)
    as (s2 & [] & Hcopy).
  pose proof (copy_loop_log _ _ _ _ _ Hcopy) as Hlog.
  rewrite Hcopy, bind_run, slice_loop_unbounded by done.
  eexists. split; [reflexivity|]. cbn. by rewrite Hlog.
Qed.

(** [processImage] does not come back exactly when its slice loop, run
    iteration by iteration, is still running after any number of
    iterations, each of which returned after reporting progress 0; the
    loop runs on like this exactly when the size of the section is 0 and
    the image has pixels.  Otherwise a bounded number of iterations gives
    the result of the body of the [try] block. *)
Theorem processImage_hang_is_endless_loop img section s :
  let s1 := mkState (heap s) true (progress_log s ++ [0%Q])
                    (processedImageData s) (toasts s) in
  let runs_forever :=
    ∀ fuel, ∃ s',
      process_body_steps fuel img section s1 = Ret s' (Running fuel) ∧
      progress_log s' = progress_log s1 ++ replicate fuel 0%Q in
  (processImage (Some img) (Some section) s = Hang ↔ runs_forever) ∧
  (runs_forever ↔ size section = 0%Z ∧ width img ≠ 0 ∧ height img ≠ 0) ∧
  (¬ runs_forever →
   ∃ n, ∀ fuel, n ≤ fuel →
     process_body_steps fuel img section s1
     = (process_body img section ;; mret Exited) s1).
Proof.
  intros s1 runs_forever.
  assert (Hfinite :
    ¬ (size section = 0%Z ∧ width img ≠ 0 ∧ height img ≠ 0) →
    ∃ n, ∀ fuel, n ≤ fuel →
      process_body_steps fuel img section s1
      = (process_body img section ;; mret Exited) s1).
  { intros Hnot.
    destruct (numCompleteSlices (width img) (size section)) as [n|] eqn:Hb.
    - exists n. intros fuel Hfuel. by apply (process_body_steps_finite _ _ _ n).
    - exists 0. intros fuel _. unfold numCompleteSlices in Hb.
      destruct (Z.eqb_spec (size section) 0) as [Hsize|]; [|done].
      destruct (Nat.eqb_spec (width img) 0) as [|Hw]; [done|].
      assert (Hh : height img = 0)
        by (destruct (decide (height img = 0)); [done|by destruct Hnot]).
      unfold process_body_steps, process_body. rewrite !bind_run.
      unfold new_ImageData. rewrite Hh, orb_true_r. done. }
  assert (Hforever :
    runs_forever ↔ size section = 0%Z ∧ width img ≠ 0 ∧ height img ≠ 0).
  { split.
    - intros Hruns.
      destruct (decide (size section = 0%Z ∧ width img ≠ 0 ∧ height img ≠ 0))
        as [|Hnot]; [done|].
      destruct (Hfinite Hnot) as (n & Hn).
      destruct (Hruns n) as (s' & Hrun & _).
      rewrite Hn in Hrun by done. rewrite bind_run in Hrun.
      by destruct (process_body img section s1).
    - intros (Hsize & Hw & Hh) fuel.
      by apply process_body_steps_unbounded. }
  split; [|split; [done|]].
  - rewrite processImage_hangs_with_body. fold s1.
    by rewrite process_body_hangs, Hforever.
  - intros Hnot. apply Hfinite. by rewrite <- Hforever.
Qed.

(** ** The entries of the pattern that are read *)

Lemma bind_ext {A B} (m : M A) (f g : A → M B) s :
  (∀ a s', f a s' = g a s') → (m ≫= f) s = (m ≫= g) s.
Proof. intros Hfg. rewrite !bind_run. destruct (m s); auto. Qed.

Lemma bind_ext_l {A B} (m m' : M A) (f : A → M B) s :
  m s = m' s → (m ≫= f) s = (m' ≫= f) s.
Proof. intros Hm. by rewrite !bind_run, Hm. Qed.

Lemma forM_ext xs (body body' : nat → M unit) :
  (∀ x, x ∈ xs → ∀ s, body x s = body' x s) →
  ∀ s, forM xs body s = forM xs body' s.
Proof.
  induction xs as [|x xs IH]; intros Hb s; [done|].
  cbn [forM]. rewrite !bind_run, Hb by left.
  destruct (body' x s); [|done..].
  apply IH. intros x' Hx'. apply Hb. by right.
Qed.

Lemma write_row_take output pattern row w start y S s :
  write_row output (take S pattern) row w start y S s
  = write_row output pattern row w start y S s.
Proof.
  unfold write_row, for_range. apply forM_ext. intros x Hx s'.
  apply elem_of_seq in Hx. by rewrite lookup_take_lt by lia.
Qed.

Lemma process_slice_take label img out section n slice s :
  process_slice img out
    (mkSection label (size section)
               (take (Z.to_nat (size section)) (pattern section))) n slice s
  = process_slice img out section n slice s.
Proof.
  unfold process_slice. cbn [size pattern].
  apply bind_ext_l. unfold for_range. apply forM_ext. intros y _ s'.
  apply bind_ext. intros row s''. apply write_row_take.
Qed.

Lemma process_body_take label img section s :
  process_body img
    (mkSection label (size section)
               (take (Z.to_nat (size section)) (pattern section))) s
  = process_body img section s.
Proof.
  unfold process_body. apply bind_ext. intros out s1.
  apply bind_ext. intros len s2. apply bind_ext. intros _ s3.
  cbn [size]. destruct (numCompleteSlices _ _) as [n|]; [|done].
  apply bind_ext_l. unfold for_range. apply forM_ext. intros slice _ s4.
  apply process_slice_take.
Qed.

Lemma processImage_take label originalImageData section s :
  processImage originalImageData
    (Some (mkSection label (size section)
                     (take (Z.to_nat (size section)) (pattern section)))) s
  = processImage originalImageData (Some section) s.
Proof.
  destruct originalImageData as [img|]; [|done].
  cbn [processImage]. apply bind_ext. intros _ s1.
  apply bind_ext. intros _ s2. unfold try_catch_finally.
  by rewrite process_body_take.
Qed.

(** [processImage] reads the size of the section and the entries 0 to
    size-1 of its pattern, and nothing else of it: two sections of the
    same size whose patterns agree on these entries give the same run,
    whatever their names and whatever follows in the patterns. *)
Theorem processImage_ignores_tail originalImageData first second s :
  size first = size second →
  take (Z.to_nat (size first)) (pattern first)
  = take (Z.to_nat (size second)) (pattern second) →
  processImage originalImageData (Some first) s
  = processImage originalImageData (Some second) s.
Proof.
  intros Hsize Hpattern.
  rewrite <- (processImage_take "" _ first), <- (processImage_take "" _ second).
  by rewrite Hpattern, Hsize.
Qed.

Lemma processImage_ignores_tail_witness :
  processImage (Some (mkImageData 3 1 0))
               (Some (mkSection "long" 3 [Num 3; Num 1; Num 2; NaN; Num 9]))
               (state_of [pixels_ABC])
  = processImage (Some (mkImageData 3 1 0)) (Some section_312)
                 (state_of [pixels_ABC]).
Proof.
  apply (processImage_ignores_tail (Some (mkImageData 3 1 0))
           (mkSection "long" 3 [Num 3; Num 1; Num 2; NaN; Num 9])
           section_312 (state_of [pixels_ABC])).
  - reflexivity.
  - reflexivity.
Defined.

(** ** When a run succeeds *)

Lemma entry_in_range_spec S pattern j :
  entry_in_range S pattern j = true ↔
  ∃ z, pattern !! j = Some (Num z) ∧ (1 ≤ z ≤ Z.of_nat S)%Z.
Proof.
  unfold entry_in_range. destruct (pattern !! j) as [[|z]|].
  - split; [done|]. by intros (z & [=] & _).
  - rewrite andb_true_iff, Z.leb_le, Z.leb_le. split.
    + intros Hz. by exists z.
    + by intros (z' & [= <-] & Hz).
  - split; [done|]. by intros (z & [=] & _).
Qed.

Lemma readable_pattern_spec S pattern :
  readable_pattern S pattern = true ↔
  ∀ j, j < S → ∃ z, pattern !! j = Some (Num z) ∧ (1 ≤ z ≤ Z.of_nat S)%Z.
Proof.
  unfold readable_pattern. rewrite forallb_forall. split.
  - intros H j Hj. apply entry_in_range_spec, H, in_seq. lia.
  - intros H j Hj. apply in_seq in Hj. apply entry_in_range_spec, H. lia.
Qed.

Lemma readable_take_in_range S pattern :
  readable_pattern S pattern = true → in_range_pattern S (take S pattern).
Proof.
  intros Hread. rewrite readable_pattern_spec in Hread.
  assert (Hlen : S ≤ length pattern).
  { destruct S as [|S']; [lia|].
    destruct (Hread S') as (z & Hz & _); [lia|].
    apply lookup_lt_Some in Hz. lia. }
  split; [rewrite length_take; lia|].
  intros j Hj. rewrite lookup_take_lt by done. by apply Hread.
Qed.

Lemma forallb_false_elem {A} (f : A → bool) xs :
  forallb f xs = false → ∃ x, x ∈ xs ∧ f x = false.
Proof.
  induction xs as [|x xs IH]; [done|]. cbn [forallb].
  destruct (f x) eqn:Hx; cbn [andb].
  - intros H. destruct (IH H) as (j & Hj & Hb). exists j.
    split; [by right|done].
  - intros _. exists x. split; [by left|done].
Qed.

Lemma unreadable_entry S pattern :
  readable_pattern S pattern = false →
  ∃ j, j < S ∧ entry_in_range S pattern j = false.
Proof.
  intros H. apply forallb_false_elem in H as (j & Hj & Hb).
  apply elem_of_seq in Hj. exists j. split; [lia|done].
Qed.

Lemma js_index_unreadable S pattern (row : list pixel) j :
  entry_in_range S pattern j = false → length row = S →
  js_index row (minus_one (pattern !! j)) = None.
Proof.
  unfold entry_in_range. intros Hbad Hlen.
  destruct (pattern !! j) as [[|z]|]; [done| |done].
  cbn [minus_one js_index].
  destruct (Z.leb_spec 0 (z - 1)); [|done].
  apply lookup_ge_None_2.
  apply andb_false_iff in Hbad as [Hz|Hz];
    [apply Z.leb_gt in Hz|apply Z.leb_gt in Hz]; lia.
Qed.

Lemma forM_throws xs body x0 :
  (∀ x, never_hangs (body x)) → x0 ∈ xs →
  (∀ s, ∃ s' e, body x0 s = Throw s' e) →
  ∀ s, ∃ s' e, forM xs body s = Throw s' e.
Proof.
  intros Hnh Hin Hthrow. induction xs as [|x xs IH]; intros s.
  - by apply elem_of_nil in Hin.
  - cbn [forM]. rewrite bind_run.
    apply elem_of_cons in Hin as [<-|Hin].
    + destruct (Hthrow s) as (s' & e & ->). by eexists _, _.
    + pose proof (Hnh x s) as Hx.
      destruct (body x s) as [s1 []|s1 e|]; [by apply IH|by eexists _, _|done].
Qed.

Lemma throws_bind {A B} (m : M A) (f : A → M B) s :
  (∃ s' e, m s = Throw s' e) → ∃ s' e, (m ≫= f) s = Throw s' e.
Proof. intros (s' & e & H). rewrite bind_run, H. by eexists _, _. Qed.

Lemma write_row_throws output pattern row w start y S j :
  j < S → entry_in_range S pattern j = false → length row = S →
  ∀ s, ∃ s' e, write_row output pattern row w start y S s = Throw s' e.
Proof.
  intros Hj Hbad Hlen. unfold write_row, for_range.
  apply (forM_throws _ _ j).
  - intros x.
    destruct (js_index row (minus_one (pattern !! x)))
      as [[[[r g] b] a]|]; [|done].
    apply returns_never_hangs.
    repeat (apply returns_bind; [apply returns_array_set|]; intros _).
    apply returns_array_set.
  - apply elem_of_seq. lia.
  - intros s. rewrite (js_index_unreadable S) by done. by eexists _, _.
Qed.

Lemma read_row_any input w start y S s :
  read_row input w start y S s = Ret s (row_read s input w start y S).
Proof.
  unfold read_row, row_read. by apply mapM_pure.
Qed.

Lemma process_slice_throws img out section n slice j :
  0 < height img →
  j < Z.to_nat (size section) →
  entry_in_range (Z.to_nat (size section)) (pattern section) j = false →
  ∀ s, ∃ s' e, process_slice img out section n slice s = Throw s' e.
Proof.
  intros Hh Hj Hbad s. unfold process_slice, for_range.
  apply throws_bind. apply (forM_throws _ _ 0).
  - intros y. apply never_hangs_bind;
      [apply returns_never_hangs, returns_read_row|].
    intros row. apply never_hangs_write_row.
  - apply elem_of_seq. lia.
  - intros s1. rewrite bind_run, read_row_any.
    apply (write_row_throws _ _ _ _ _ _ _ j); [done..|].
    unfold row_read. by rewrite length_fmap, length_seq.
Qed.

Lemma process_body_throws hp pr pid ts log img section bytes j :
  wf_image (mkState hp pr log pid ts) img bytes →
  (0 < size section)%Z → Z.to_nat (size section) ≤ width img →
  j < Z.to_nat (size section) →
  entry_in_range (Z.to_nat (size section)) (pattern section) j = false →
  ∃ s' e, process_body img section (mkState hp pr log pid ts) = Throw s' e.
Proof.
  intros (Hbytes & Hlen & Hw & Hh) Hsize Hfit Hj Hbad. cbn in Hbytes.
  unfold process_body. rewrite bind_run. unfold new_ImageData.
  destruct (Nat.eqb_spec (width img) 0) as [|_]; [lia|].
  destruct (Nat.eqb_spec (height img) 0) as [|_]; [lia|].
  cbn [orb]. rewrite bind_run.
  change (array_length (data img) ?s1)
    with (Ret s1 (length (default [] (heap s1 !! data img)))).
  cbv iota beta. rewrite bind_run.
  match goal with
  | |- context [for_range ?len (copy_from ?a ?b) ?s1] =>
      destruct (returns_copy_loop a b len s1) as (s2 & [] & ->)
  end.
  rewrite numCompleteSlices_positive by done.
  apply throws_bind. unfold for_range. apply (forM_throws _ _ 0).
  - intros slice. apply never_hangs_process_slice.
  - apply elem_of_seq. split; [lia|]. cbn.
    apply Nat.div_str_pos. lia.
  - intros s3. by apply (process_slice_throws _ _ _ _ _ j).
Qed.

(** On a well-formed image with at least one complete slice, the run
    succeeds exactly when the entries 0 to size-1 of the pattern are
    integers of [1, size]: otherwise the first row of the first slice
    throws, the failure toast is shown and the stored image stays as it
    was. *)
Theorem processImage_success_iff s img section bytes :
  wf_image s img bytes →
  (0 < size section)%Z → Z.to_nat (size section) ≤ width img →
  ∃ s',
    processImage (Some img) (Some section) s = Ret s' tt ∧
    if readable_pattern (Z.to_nat (size section)) (pattern section)
    then toasts s' = toasts s ++ [success_toast] ∧
         processedImageData s'
         = Some (mkImageData (width img) (height img) (length (heap s)))
    else toasts s' = toasts s ++ [failure_toast] ∧
         processedImageData s' = processedImageData s.
Proof.
  intros Hwf Hsize Hfit.
  destruct (readable_pattern _ _) eqn:Hread.
  - apply readable_take_in_range in Hread.
    destruct (processed_in_range s img
                (mkSection (name section) (size section)
                   (take (Z.to_nat (size section)) (pattern section)))
                bytes Hwf Hsize Hread) as (s' & (Hrun & Ht & Hp & _) & _).
    rewrite processImage_take in Hrun.
    exists s'. split; [done|]. by split.
  - apply unreadable_entry in Hread as (j & Hj & Hbad).
    destruct s as [hp pr log pid ts].
    destruct (process_body_throws hp true pid ts (log ++ [0%Q]) img section
                bytes j Hwf Hsize Hfit Hj Hbad) as (s2 & e & Hthrow).
    pose proof (process_body_outcome img section
                  (mkState hp true (log ++ [0%Q]) pid ts)) as Hout.
    rewrite Hthrow in Hout. destruct Hout as (Ht & Hp & _).
    eexists. split.
    + transitivity
        (try_catch_finally (process_body img section)
           (λ _, show_toast (toast_error "Failed to process image"))
           (setProcessing false ;; setProgress 0%Q)
           (mkState hp true (log ++ [0%Q]) pid ts)); [reflexivity|].
      unfold try_catch_finally. rewrite Hthrow. reflexivity.
    + cbn. by rewrite Ht, Hp.
Qed.

Lemma processImage_success_iff_witness :
  ∃ s',
    processImage (Some (mkImageData 3 1 0))
                 (Some (mkSection "short" 3 [Num 1; Num 2]))
                 (state_of [pixels_ABC]) = Ret s' tt ∧
    if readable_pattern (Z.to_nat 3) [Num 1; Num 2]
    then toasts s' = [] ++ [success_toast] ∧
         processedImageData s' = Some (mkImageData 3 1 1)
    else toasts s' = [] ++ [failure_toast] ∧
         processedImageData s' = None.
Proof.
  apply (processImage_success_iff (state_of [pixels_ABC]) (mkImageData 3 1 0)
           (mkSection "short" 3 [Num 1; Num 2]) pixels_ABC).
  - repeat split; cbn; lia.
  - cbn. lia.
  - cbn. lia.
Defined.

(** ** Images narrower than the section *)

Lemma numCompleteSlices_none w sectionSize :
  (sectionSize < 0)%Z ∨ (Z.of_nat w < sectionSize)%Z →
  numCompleteSlices w sectionSize = Iterations 0.
Proof.
  intros Hs. unfold numCompleteSlices.
  destruct (Z.eqb_spec sectionSize 0) as [|_]; [lia|]. f_equal.
  destruct Hs as [Hneg|Hsmall].
  - pose proof (Z.div_mod (Z.of_nat w) sectionSize ltac:(lia)).
    pose proof (Z.mod_neg_bound (Z.of_nat w) sectionSize Hneg). nia.
  - rewrite Z.div_small by lia. done.
Qed.

Lemma process_body_no_slice hp pr pid ts log img section bytes :
  wf_image (mkState hp pr log pid ts) img bytes →
  numCompleteSlices (width img) (size section) = Iterations 0 →
  process_body img section (mkState hp pr log pid ts)
  = Ret (mkState (hp ++ [bytes]) pr log
           (Some (mkImageData (width img) (height img) (length hp)))
           (ts ++ [success_toast])) tt.
Proof.
  intros (Hbytes & Hlen & Hw & Hh) Hnone. cbn in Hbytes.
  unfold process_body. rewrite bind_run.
  unfold new_ImageData.
  destruct (Nat.eqb_spec (width img) 0) as [|_]; [lia|].
  destruct (Nat.eqb_spec (height img) 0) as [|_]; [lia|].
  cbn [orb].
  change (upd_heap _ _) with
    (loop_state hp pr pid ts
       (replicate (width img * height img * 4) "000"%byte) log).
  rewrite bind_run, (array_length_loop _ _ _ _ _ bytes) by done.
  rewrite bind_run. cbn [data].
  rewrite (copy_loop_run hp pr pid ts (data img) bytes Hbytes).
  rewrite copy_loop_copies by (by rewrite length_replicate).
  rewrite Hnone. reflexivity.
Qed.

(** When the size is negative or exceeds the width there is no complete
    slice: the pattern is never looked at, and whatever it holds the run
    succeeds with an exact copy of the input and no progress report
    besides the two resets. *)
Theorem processImage_no_complete_slice s img section bytes :
  wf_image s img bytes →
  (size section < 0)%Z ∨ (Z.of_nat (width img) < size section)%Z →
  ∃ s',
    processed s img section s'
      (mkImageData (width img) (height img) (length (heap s))) bytes ∧
    heap s' = heap s ++ [bytes] ∧
    progress_log s' = progress_log s ++ [0%Q; 0%Q].
Proof.
  intros Hwf Hnone. apply numCompleteSlices_none in Hnone.
  destruct s as [hp pr log pid ts].
  pose proof (process_body_no_slice hp true pid ts (log ++ [0%Q]) img
                section bytes Hwf Hnone) as Hbody.
  eexists. split; [split; [|split; [|split]]|split].
  - transitivity
      (try_catch_finally (process_body img section)
         (λ _, show_toast (toast_error "Failed to process image"))
         (setProcessing false ;; setProgress 0%Q)
         (mkState hp true (log ++ [0%Q]) pid ts)); [reflexivity|].
    unfold try_catch_finally. rewrite Hbody. reflexivity.
  - reflexivity.
  - reflexivity.
  - cbn. by apply list_lookup_middle.
  - reflexivity.
  - cbn. by rewrite <- app_assoc.
Qed.

Lemma processImage_no_complete_slice_witness :
  ∃ s',
    processed (state_of [pixels_AB]) (mkImageData 2 1 0)
      (mkSection "unreadable" 3 [NaN; Num 9]) s'
      (mkImageData 2 1 1) pixels_AB ∧
    heap s' = [pixels_AB] ++ [pixels_AB] ∧
    progress_log s' = [] ++ [0%Q; 0%Q].
Proof.
  apply (processImage_no_complete_slice (state_of [pixels_AB])
           (mkImageData 2 1 0) (mkSection "unreadable" 3 [NaN; Num 9])
           pixels_AB).
  - repeat split; cbn; lia.
  - right. cbn. lia.
Defined.

(** ** Two runs in a row *)

Section compose.
Context (S : nat) (first second : list number).
Hypothesis Hfirst : in_range_pattern S first.
Hypothesis Hsecond : in_range_pattern S second.

Lemma compose_lookup j :
  j < S →
  compose_pattern first second !! j
  = Some (default NaN (first !! entry second j)).
Proof.
  intros Hj. unfold compose_pattern. destruct Hsecond as [-> _].
  by rewrite list_lookup_fmap, lookup_seq_lt.
Qed.

Lemma entry_compose j :
  j < S →
  entry (compose_pattern first second) j = entry first (entry second j).
Proof.
  intros Hj. unfold entry at 1. rewrite compose_lookup by done.
  unfold entry at 2. by destruct (first !! entry second j) as [[|z]|].
Qed.

Lemma compose_in_range : in_range_pattern S (compose_pattern first second).
Proof.
  split.
  - unfold compose_pattern. rewrite length_fmap, length_seq.
    apply Hsecond.
  - intros j Hj. rewrite compose_lookup by done.
    pose proof (entry_lt S second j Hsecond Hj) as Hlt.
    destruct Hfirst as [_ Hr]. destruct (Hr _ Hlt) as (z & -> & Hz).
    by exists z.
Qed.

Lemma source_column_compose w c :
  0 < S →
  source_column w S (compose_pattern first second) c
  = source_column w S first (source_column w S second c).
Proof.
  intros HS. unfold source_column at 1 3.
  destruct (Nat.ltb_spec c (w / S * S)) as [Hlt|Hge].
  - assert (Hi : c / S < w / S)
      by (apply Nat.Div0.div_lt_upper_bound; lia).
    assert (Hj : c mod S < S) by (apply Nat.mod_upper_bound; lia).
    rewrite source_column_complete;
      [|done|by apply entry_lt].
    by rewrite entry_compose.
  - by rewrite source_column_partial.
Qed.

End compose.

Lemma compose_permutation S first second :
  is_permutation_pattern S first → is_permutation_pattern S second →
  is_permutation_pattern S (compose_pattern first second).
Proof.
  intros Hf Hs. unfold is_permutation_pattern, compose_pattern.
  rewrite (pattern_length S second Hs).
  change ((λ j, default NaN (first !! entry second j)) <$> seq 0 S)
    with (((λ k, default NaN (first !! k)) ∘ entry second) <$> seq 0 S).
  rewrite (list_fmap_compose (entry second)).
  rewrite (entries_permutation S second Hs), <- Hf.
  rewrite <- (pattern_length S first Hf).
  assert (Heq : (λ k, default NaN (first !! k)) <$> seq 0 (length first)
                = first); [|by rewrite Heq].
  apply list_eq. intros k. rewrite list_lookup_fmap.
  destruct (decide (k < length first)) as [Hk|Hk].
  - rewrite lookup_seq_lt by done. cbn.
    by destruct (lookup_lt_is_Some_2 first k Hk) as [v ->].
  - rewrite lookup_seq_ge, (lookup_ge_None_2 first) by lia. done.
Qed.

(** Running a valid section and then a second valid section of the same
    size on the result gives the bytes that one run of the composed
    pattern, [first[second[j] - 1]] at entry j, gives on the original; and
    the composed section is valid too. *)
Theorem processImage_compose s img first second bytes :
  wf_image s img bytes →
  valid_section first → valid_section second →
  size first = size second →
  let composed :=
    mkSection (name second) (size second)
              (compose_pattern (pattern first) (pattern second)) in
  valid_section composed ∧
  ∃ s1 out1 bytes1,
    processed s img first s1 out1 bytes1 ∧
    ∃ s2 out2 bytes2,
      processed s1 out1 second s2 out2 bytes2 ∧
      ∃ s3 out3 bytes3,
        processed s img composed s3 out3 bytes3 ∧
        bytes2 = bytes3.
Proof.
  intros Hwf Hv1 Hv2 Hsize composed.
  assert (Hvc : valid_section composed).
  { destruct Hv1 as [_ Hp1], Hv2 as [Hs2 Hp2]. split; [done|]. cbn.
    apply compose_permutation; [by rewrite <- Hsize|done]. }
  split; [done|].
  destruct (processed_valid s img first bytes Hwf Hv1) as (s1 & Hrun1 & _).
  destruct (valid_section_in_range first Hv1) as (_ & HS & Hpat1).
  destruct (valid_section_in_range second Hv2) as (_ & _ & Hpat2).
  pose proof Hwf as (_ & Hlen & Hw & Hh).
  eexists _, _, _. split; [exact Hrun1|].
  destruct Hrun1 as (_ & _ & _ & Hout1).
  rewrite Hsize in *.
  set (out1 := mkImageData (width img) (height img) (length (heap s))) in *.
  set (bytes1 := gather bytes (width img) (height img)
                   (Z.to_nat (size second)) (pattern first)) in *.
  assert (Hlen1 : length bytes1 = width img * height img * 4).
  { unfold bytes1. by rewrite length_gather. }
  assert (Hwf1 : wf_image s1 out1 bytes1) by done.
  destruct (processed_valid s1 out1 second bytes1 Hwf1 Hv2)
    as (s2 & Hrun2 & _).
  eexists _, _, _. split; [exact Hrun2|].
  destruct (processed_valid s img composed bytes Hwf Hvc) as (s3 & Hrun3 & _).
  eexists _, _, _. split; [exact Hrun3|].
  cbn [width height size pattern composed out1].
  apply (image_bytes_eq (width img) (height img)); [done| | |].
  - by rewrite length_gather.
  - by rewrite length_gather.
  - intros c y ch Hc Hy Hch.
    assert (source_column (width img) (Z.to_nat (size second))
              (pattern second) c < width img)
      by (by apply source_column_lt).
    rewrite gather_lookup by done.
    unfold bytes1. rewrite gather_lookup by done.
    rewrite gather_lookup; [|done..|by apply compose_in_range|done|done|done].
    by rewrite (source_column_compose (Z.to_nat (size second))).
Qed.

Lemma processImage_compose_witness :
  valid_section
    (mkSection "example" 3
       (compose_pattern [Num 3; Num 1; Num 2] [Num 3; Num 1; Num 2])) ∧
  ∃ s1 out1 bytes1,
    processed (state_of [pixels_ABC]) (mkImageData 3 1 0) section_312
              s1 out1 bytes1 ∧
    ∃ s2 out2 bytes2,
      processed s1 out1 section_312 s2 out2 bytes2 ∧
      ∃ s3 out3 bytes3,
        processed (state_of [pixels_ABC]) (mkImageData 3 1 0)
          (mkSection "example" 3
             (compose_pattern [Num 3; Num 1; Num 2] [Num 3; Num 1; Num 2]))
          s3 out3 bytes3 ∧
        bytes2 = bytes3.
Proof.
  apply (processImage_compose (state_of [pixels_ABC]) (mkImageData 3 1 0)
           section_312 section_312 pixels_ABC).
  - repeat split; cbn; lia.
  - apply (bool_decide_unpack _). vm_compute. reflexivity.
  - apply (bool_decide_unpack _). vm_compute. reflexivity.
  - reflexivity.
Defined.

(** * Further properties of the section forms *)

Lemma sizeOnChange_nonzero value : sizeOnChange value ≠ 0%Z.
Proof.
  unfold sizeOnChange. destruct (JS.parseInt value) as [|z]; [done|].
  by destruct (Z.eqb_spec z 0).
Qed.

Lemma length_type_in_fields fields edits :
  length (type_in_fields fields edits) = length fields.
Proof.
  unfold type_in_fields. revert fields.
  induction edits as [|e edits IH]; intros fields; [done|].
  cbn [foldl]. rewrite IH. apply length_insert.
Qed.

(** Whatever is typed in the size box and in the fields that the form then
    shows, a section that [handleCreateSection] lets through is valid: its
    pattern is a permutation of 1..size with size entries, under the name
    and the size of the form. *)
Theorem form_submits_valid_sections text label blank edits section :
  blank_fields (sizeOnChange text) = Some blank →
  Forall (λ e, e.1 < length blank) edits →
  handleCreateSection label (sizeOnChange text) (type_in_fields blank edits)
    = Stored section →
  valid_section section ∧
  name section = label ∧ size section = sizeOnChange text.
Proof.
  intros Hblank _ Hstored.
  pose proof (sizeOnChange_nonzero text) as Hnz.
  unfold blank_fields in Hblank.
  destruct (Z.ltb_spec (sizeOnChange text) 0) as [|Hpos]; [done|].
  injection Hblank as <-.
  unfold handleCreateSection in Hstored.
  destruct (String.eqb _ _); [done|].
  destruct (validate _ _) as [e|accepted] eqn:Hval; [done|].
  injection Hstored as <-. split; [|done].
  assert (Hsize : (1 ≤ sizeOnChange text)%Z) by lia.
  apply (validate_full_length_valid label _ _ _ Hsize) in Hval; [done|].
  rewrite length_type_in_fields, length_replicate. lia.
Qed.

Lemma form_submits_valid_sections_witness :
  valid_section (mkSection "weave" 3 [Num 2; Num 3; Num 1]) ∧
  name (mkSection "weave" 3 [Num 2; Num 3; Num 1]) = "weave" ∧
  size (mkSection "weave" 3 [Num 2; Num 3; Num 1]) = sizeOnChange "3".
Proof.
  apply (form_submits_valid_sections "3" "weave" [""; ""; ""]
           [(0, "2"); (2, "1"); (1, "3")]).
  - reflexivity.
  - repeat (apply Forall_cons_2; [cbn; lia|]). apply Forall_nil_2.
  - reflexivity.
Defined.

(** ** The name check *)

Lemma trimStart_empty s : JS.trimStart s = "" ↔ all_white_space s = true.
Proof.
  induction s as [|c r IH]; [done|]. cbn.
  destruct (JS.is_StrWhiteSpaceChar c); cbn [andb]; [done|].
  split; done.
Qed.

Lemma rev_app_empty s acc : String.rev_app s acc = "" → s = "" ∧ acc = "".
Proof.
  revert acc. induction s as [|c r IH]; intros acc H; [done|].
  cbn in H. by apply IH in H as [_ ?].
Qed.

Lemma rev_app_not_white s acc :
  all_white_space acc = false → all_white_space (String.rev_app s acc) = false.
Proof.
  revert acc. induction s as [|c r IH]; intros acc H; [done|].
  cbn [String.rev_app]. apply IH. cbn. rewrite H. apply andb_false_r.
Qed.

Lemma trim_empty s : JS.trim s = "" ↔ all_white_space s = true.
Proof.
  rewrite <- trimStart_empty. unfold JS.trim, JS.trimEnd. split.
  - intros Htrim. destruct (JS.trimStart s) as [|c r] eqn:Hstart; [done|].
    exfalso. unfold String.rev in Htrim.
    apply rev_app_empty in Htrim as [Htrim _].
    apply trimStart_empty in Htrim.
    assert (Hc : JS.is_StrWhiteSpaceChar c = false).
    { clear Htrim. induction s as [|c' r' IH]; [done|]. cbn in Hstart.
      destruct (JS.is_StrWhiteSpaceChar c') eqn:Hc'; [by apply IH|].
      by injection Hstart as <- _. }
    cbn [String.rev_app] in Htrim.
    rewrite rev_app_not_white in Htrim; [done|].
    cbn. by rewrite Hc.
  - intros ->. reflexivity.
Qed.

Lemma utf16_trimStart_empty l :
  UTF16.trimStart l = [] ↔ forallb UTF16.is_white_space l = true.
Proof.
  induction l as [|c r IH]; [done|]. cbn.
  destruct (UTF16.is_white_space c); cbn [andb]; [done|].
  split; done.
Qed.

Lemma utf16_trimStart_head l c r :
  UTF16.trimStart l = c :: r → UTF16.is_white_space c = false.
Proof.
  induction l as [|c' r' IH]; [done|]. cbn.
  destruct (UTF16.is_white_space c') eqn:Hc'; [done|].
  by intros [= <- _].
Qed.

Lemma forallb_rev {A} (f : A → bool) l :
  forallb f (rev l) = true → forallb f l = true.
Proof.
  rewrite !forallb_forall. intros H x Hx. apply H. by apply in_rev in Hx.
Qed.

Lemma utf16_trim_empty l :
  UTF16.trim l = [] ↔ forallb UTF16.is_white_space l = true.
Proof.
  rewrite <- utf16_trimStart_empty. unfold UTF16.trim, UTF16.trimEnd. split.
  - intros Htrim.
    destruct (UTF16.trimStart l) as [|c r] eqn:Hstart; [done|]. exfalso.
    apply (f_equal (@rev N)) in Htrim. rewrite rev_involutive in Htrim.
    apply utf16_trimStart_empty, forallb_rev in Htrim.
    apply utf16_trimStart_head in Hstart. cbn in Htrim.
    by rewrite Hstart in Htrim.
  - intros ->. reflexivity.
Qed.

Lemma white_space_of_ascii c :
  UTF16.is_white_space (N_of_ascii c) = JS.is_StrWhiteSpaceChar c.
Proof. destruct c as [[] [] [] [] [] [] [] []]; reflexivity. Qed.

Lemma all_white_space_of_string s :
  forallb UTF16.is_white_space (UTF16.of_string s) = all_white_space s.
Proof.
  induction s as [|c r IH]; [done|].
  cbn. by rewrite white_space_of_ascii, <- IH.
Qed.

Example name_is_blank_examples :
  name_is_blank [] = true ∧
  name_is_blank [0x3000; 0x20; 0xFEFF; 0x2028; 0x9]%N = true ∧
  name_is_blank [0x3000; 0x41; 0x20]%N = false ∧
  name_is_blank [0x85]%N = false ∧ name_is_blank [0x180E]%N = false ∧
  name_is_blank [0x200B]%N = false.
Proof. repeat split; reflexivity. Qed.

(** On strings of 8-bit code units the two [trim] agree. *)
Lemma of_string_rev_app s acc :
  UTF16.of_string (String.rev_app s acc)
  = rev (UTF16.of_string s) ++ UTF16.of_string acc.
Proof.
  revert acc. induction s as [|c r IH]; intros acc; [done|].
  cbn [String.rev_app]. rewrite IH.
  change (UTF16.of_string (String c r))
    with (N_of_ascii c :: UTF16.of_string r).
  change (UTF16.of_string (String c acc))
    with (N_of_ascii c :: UTF16.of_string acc).
  cbn [rev]. by rewrite <- app_assoc.
Qed.

Lemma of_string_rev s : UTF16.of_string (String.rev s) = rev (UTF16.of_string s).
Proof. unfold String.rev. rewrite of_string_rev_app. apply app_nil_r. Qed.

Lemma trimStart_of_string s :
  UTF16.trimStart (UTF16.of_string s) = UTF16.of_string (JS.trimStart s).
Proof.
  induction s as [|c r IH]; [done|].
  change (UTF16.of_string (String c r))
    with (N_of_ascii c :: UTF16.of_string r).
  cbn [UTF16.trimStart JS.trimStart]. rewrite white_space_of_ascii.
  by destruct (JS.is_StrWhiteSpaceChar c).
Qed.

Lemma trim_of_string s :
  UTF16.trim (UTF16.of_string s) = UTF16.of_string (JS.trim s).
Proof.
  unfold UTF16.trim, UTF16.trimEnd, JS.trim, JS.trimEnd.
  by rewrite of_string_rev, <- trimStart_of_string, of_string_rev,
             <- trimStart_of_string.
Qed.

(** The guard [!newSectionName.trim()] holds exactly when every code unit
    of the name is white space or a line terminator, the empty name
    included; and [handleCreateSection], on the names of 8-bit code units
    that it takes here, stops at the name check exactly when the guard
    holds, whatever the size and the fields. *)
Theorem handleCreateSection_blank_name :
  (∀ name,
     name_is_blank name = true ↔
     forallb UTF16.is_white_space name = true) ∧
  (∀ label newSectionSize fields,
     handleCreateSection label newSectionSize fields = ToastError None ↔
     name_is_blank (UTF16.of_string label) = true).
Proof.
  assert (Hblank : ∀ name,
    name_is_blank name = true ↔ forallb UTF16.is_white_space name = true).
  { intros name. rewrite <- utf16_trim_empty. unfold name_is_blank.
    by destruct (UTF16.trim name). }
  split; [done|]. intros label newSectionSize fields.
  rewrite Hblank, all_white_space_of_string, <- trim_empty.
  unfold handleCreateSection.
  destruct (String.eqb_spec (JS.trim label) "") as [->|Hne].
  - done.
  - split; [|done]. by destruct (validate _ _).
Qed.

(** Opening a valid section for editing and saving untouched. *)
Lemma edit_then_save_unchanged_witness :
  handleSaveEdit section_312 (handleEditSection section_312)
  = Stored section_312.
Proof.
  apply edit_then_save_unchanged.
  apply (bool_decide_unpack _). vm_compute. reflexivity.
Defined.

(** * The local section list *)

(** Deleting by id removes every section with that id and no other, keeps
    the order of the rest, and leaves a selection in place only when it has
    another id; deleting the same id again changes nothing more. *)
Theorem delete_removes_the_id id0 c :
  let c' := SectionCreator.handleDeleteSection id0 c in
  (∀ s, s ∈ SectionCreator.sections c' ↔
        s ∈ SectionCreator.sections c ∧ SectionCreator.id s ≠ id0) ∧
  SectionCreator.sections c' `sublist_of` SectionCreator.sections c ∧
  (∀ sel, SectionCreator.selectedSection c' = Some sel ↔
          SectionCreator.selectedSection c = Some sel ∧
          SectionCreator.id sel ≠ id0) ∧
  SectionCreator.sections (SectionCreator.handleDeleteSection id0 c')
  = SectionCreator.sections c'.
Proof.
  cbn. split; [|split; [|split]].
  - intros s. rewrite list_elem_of_filter. tauto.
  - apply sublist_filter.
  - intros sel. destruct (SectionCreator.selectedSection c) as [sel0|].
    + destruct (decide (SectionCreator.id sel0 = id0)) as [Heq|Hne].
      * split; [done|]. intros [[= <-] Hn]. done.
      * split; [intros [= <-]; done|]. by intros [? _].
    + split; [done|]. by intros [? _].
  - rewrite list_filter_filter. apply list_filter_iff. tauto.
Qed.

Lemma find_by_id id0 (l : list SectionCreator.SavedSection) :
  match List.find (λ s, bool_decide (SectionCreator.id s = id0)) l with
  | Some s => s ∈ l ∧ SectionCreator.id s = id0
  | None => ∀ s, s ∈ l → SectionCreator.id s ≠ id0
  end.
Proof.
  induction l as [|x l IH]; cbn [List.find].
  - intros s Hs. by apply elem_of_nil in Hs.
  - destruct (bool_decide_reflect (SectionCreator.id x = id0)) as [Hx|Hx].
    + split; [by left|done].
    + destruct (List.find _ l) as [s|].
      * destruct IH. split; [by right|done].
      * intros s Hs. apply elem_of_cons in Hs as [->|Hs]; [done|by apply IH].
Qed.

(** Saving an edit never adds, removes or reorders sections and never
    changes an id, a name or a size; it leaves every section with another
    id as it was, and the selection as it was, so that the selected
    section keeps the pattern it had when it was selected.  With an id
    that no section has, nothing at all happens. *)
Theorem save_edit_touches_patterns_only id0 c :
  let c' := SectionCreator.handleSaveEdit id0 c in
  SectionCreator.identity <$> SectionCreator.sections c'
  = SectionCreator.identity <$> SectionCreator.sections c ∧
  (∀ i s, SectionCreator.sections c !! i = Some s →
          SectionCreator.id s ≠ id0 →
          SectionCreator.sections c' !! i = Some s) ∧
  SectionCreator.selectedSection c' = SectionCreator.selectedSection c ∧
  ((∀ s, s ∈ SectionCreator.sections c → SectionCreator.id s ≠ id0) →
   c' = c).
Proof.
  cbn zeta. unfold SectionCreator.handleSaveEdit.
  pose proof (find_by_id id0 (SectionCreator.sections c)) as Hfind.
  destruct (List.find _ _) as [section|].
  - destruct Hfind as [Hin Hid].
    destruct (validate _ _) as [e|pattern].
    + cbn. repeat split; try done.
      intros Hnone. by destruct (Hnone _ Hin).
    + cbn [SectionCreator.sections SectionCreator.selectedSection].
      split; [|split; [|split]].
      * apply list_eq. intros i.
        rewrite !list_lookup_fmap.
        destruct (SectionCreator.sections c !! i) as [s|]; [|done].
        cbn. by destruct (decide _).
      * intros i s Hs Hne. rewrite list_lookup_fmap, Hs. cbn.
        by destruct (decide _).
      * done.
      * intros Hnone. by destruct (Hnone _ Hin).
  - done.
Qed.

(** [handleCreateSection] keeps the stored sections valid: when the form
    has as many fields as its size says and the size is at least 1, the
    sections already stored stay in place, at most one section is added at
    the end, that section is valid, and the form is left with [size] empty
    fields again. *)
Theorem create_keeps_sections_valid now c c' :
  SectionCreator.all_valid c →
  (1 ≤ SectionCreator.newSectionSize c)%Z →
  Z.of_nat (length (SectionCreator.newSectionPattern c))
  = SectionCreator.newSectionSize c →
  SectionCreator.handleCreateSection now c = Some c' →
  SectionCreator.all_valid c' ∧
  SectionCreator.sections c `prefix_of` SectionCreator.sections c' ∧
  length (SectionCreator.sections c') ≤ S (length (SectionCreator.sections c)) ∧
  SectionCreator.newSectionSize c' = SectionCreator.newSectionSize c ∧
  Z.of_nat (length (SectionCreator.newSectionPattern c'))
  = SectionCreator.newSectionSize c'.
Proof.
  intros Hvalid Hsize Hlen. unfold SectionCreator.handleCreateSection.
  destruct (String.eqb _ _).
  { intros [= <-]. cbn. repeat split; try done. lia. }
  destruct (validate _ _) as [e|pattern] eqn:Hval.
  { intros [= <-]. cbn. repeat split; try done. lia. }
  unfold blank_fields.
  destruct (Z.ltb_spec (SectionCreator.newSectionSize c) 0); [lia|].
  intros [= <-]. cbn. split; [|split; [|split; [|split]]].
  - apply Forall_app. split; [done|].
    apply Forall_cons_2; [|apply Forall_nil_2]. cbn.
    by eapply validate_full_length_valid.
  - by apply prefix_app_r.
  - rewrite length_app. cbn. lia.
  - done.
  - rewrite length_replicate. lia.
Qed.

Lemma create_keeps_sections_valid_witness :
  ∃ c',
    SectionCreator.handleCreateSection 17
      (SectionCreator.mkComponent [] 3 "weave" ["2"; "3"; "1"] None [] None [])
    = Some c' ∧
    SectionCreator.all_valid c' ∧
    [] `prefix_of` SectionCreator.sections c' ∧
    length (SectionCreator.sections c') ≤ S (length (@nil SectionCreator.SavedSection)) ∧
    SectionCreator.newSectionSize c' = 3%Z ∧
    Z.of_nat (length (SectionCreator.newSectionPattern c'))
    = SectionCreator.newSectionSize c'.
Proof.
  eexists. split; [vm_compute; reflexivity|].
  apply (create_keeps_sections_valid 17
           (SectionCreator.mkComponent [] 3 "weave" ["2"; "3"; "1"]
              None [] None [])).
  - apply Forall_nil_2.
  - cbn. lia.
  - reflexivity.
  - vm_compute. reflexivity.
Defined.

Lemma typed_edits_keep_sections c0 edits :
  let c1 := foldl (λ c' e, SectionCreator.editOnChange e.1 e.2 c') c0 edits in
  SectionCreator.sections c1 = SectionCreator.sections c0 ∧
  length (SectionCreator.editPattern c1)
  = length (SectionCreator.editPattern c0).
Proof.
  revert c0. induction edits as [|e edits IH]; intros c0; [done|].
  cbn [foldl]. cbn zeta in IH.
  destruct (IH (SectionCreator.editOnChange e.1 e.2 c0)) as [-> ->].
  split; [done|]. cbn. apply length_insert.
Qed.

(** Opening a stored section for editing, typing in the fields shown and
    saving keeps the stored sections valid, whether the edit is accepted
    or not, provided that they were valid and that no other section has
    the same id. *)
Theorem edit_and_save_keeps_sections_valid section edits c :
  SectionCreator.all_valid c →
  section ∈ SectionCreator.sections c →
  Forall (λ e, e.1 < length (pattern (SectionCreator.saved section))) edits →
  (∀ s, s ∈ SectionCreator.sections c →
        SectionCreator.id s = SectionCreator.id section → s = section) →
  SectionCreator.all_valid
    (SectionCreator.handleSaveEdit (SectionCreator.id section)
       (foldl (λ c' e, SectionCreator.editOnChange e.1 e.2 c')
              (SectionCreator.handleEditSection section c) edits)).
Proof.
  intros Hvalid Hin _ Huniq.
  destruct (typed_edits_keep_sections
              (SectionCreator.handleEditSection section c) edits)
    as [Hsec Hlen].
  set (c1 := foldl _ _ edits) in *.
  change (SectionCreator.sections (SectionCreator.handleEditSection section c))
    with (SectionCreator.sections c) in Hsec.
  cbn [SectionCreator.handleEditSection SectionCreator.editPattern] in Hlen.
  unfold SectionCreator.all_valid in *.
  unfold SectionCreator.handleSaveEdit. rewrite Hsec.
  pose proof (find_by_id (SectionCreator.id section)
                (SectionCreator.sections c)) as Hfind.
  destruct (List.find _ _) as [found|]; [|by rewrite Hsec].
  destruct Hfind as [Hfin Hfid].
  apply Huniq in Hfid as ->; [|done].
  destruct (validate _ _) as [e|pattern] eqn:Hval; [by cbn; rewrite Hsec|].
  cbn [SectionCreator.sections].
  rewrite Forall_forall in Hvalid.
  apply Forall_forall. intros s Hs.
  apply list_elem_of_fmap in Hs as (s0 & -> & Hs0).
  destruct (decide _) as [Hid|_]; [|by apply Hvalid].
  apply Huniq in Hid as ->; [|done].
  pose proof (Hvalid _ Hin) as [Hsize Hperm].
  cbn. eapply validate_full_length_valid; [done| |exact Hval].
  rewrite Hlen, length_map, (pattern_length _ _ Hperm). lia.
Qed.

Lemma edit_and_save_keeps_sections_valid_witness :
  SectionCreator.all_valid
    (SectionCreator.handleSaveEdit "17"
       (foldl (λ c' e, SectionCreator.editOnChange e.1 e.2 c')
              (SectionCreator.handleEditSection
                 (SectionCreator.mkSaved "17" section_312)
                 (SectionCreator.mkComponent
                    [SectionCreator.mkSaved "17" section_312]
                    6 "" [] None [] None []))
              [(0, "1"); (1, "3")])).
Proof.
  apply (edit_and_save_keeps_sections_valid
           (SectionCreator.mkSaved "17" section_312) [(0, "1"); (1, "3")]
           (SectionCreator.mkComponent
              [SectionCreator.mkSaved "17" section_312]
              6 "" [] None [] None [])).
  - apply Forall_cons_2; [|apply Forall_nil_2].
    apply (bool_decide_unpack _). vm_compute. reflexivity.
  - by left.
  - repeat (apply Forall_cons_2; [cbn; lia|]). apply Forall_nil_2.
  - intros s Hs _. by apply list_elem_of_singleton in Hs.
Defined.

(** * Downloading *)

Lemma plain_app_dot (stem ext : string) :
  plain (stem ++ "." ++ ext) = false.
Proof.
  induction stem as [|c stem IH]; [done|].
  change (plain (String c (stem ++ "." ++ ext)) = false).
  cbn [plain]. rewrite IH. apply andb_false_r.
Qed.

Lemma replace_extension_last stem ext :
  ext ≠ "" → plain ext = true →
  replace_extension (stem ++ "." ++ ext) = stem.
Proof.
  intros Hne Hplain. induction stem as [|c stem IH].
  - change ("" ++ "." ++ ext)%string with (String "." ext).
    cbn. rewrite Hplain. by destruct (String.eqb_spec ext "").
  - change (String c stem ++ "." ++ ext)%string
      with (String c (stem ++ "." ++ ext)).
    cbn [replace_extension].
    rewrite plain_app_dot, andb_false_r. by rewrite IH.
Qed.

(** The file is named after the uploaded one, with its last extension
    replaced: for a name [stem.ext] whose [ext] is not empty and has no
    slash and no dot, the download is called [stem_processed.] followed
    by the format chosen.  Dots inside [stem] stay. *)
Theorem download_file_name (stem ext : string) f image s :
  processedImageData s = Some image →
  ext ≠ "" → plain ext = true →
  downloadImage (Some (stem ++ "." ++ ext)%string) f true true s
  = Download image (mimeType f) (quality f)
      (stem ++ "_processed." ++ extension f)%string.
Proof.
  intros Himage Hne Hplain. unfold downloadImage. rewrite Himage. cbn.
  by rewrite replace_extension_last.
Qed.

Lemma download_file_name_witness :
  downloadImage (Some ("scan.v2" ++ "." ++ "jpeg")%string) bmp true true
    (mkState [] false [] (Some (mkImageData 3 1 0)) [])
  = Download (mkImageData 3 1 0) (mimeType bmp) (quality bmp)
      ("scan.v2" ++ "_processed." ++ extension bmp)%string.
Proof.
  apply (download_file_name "scan.v2" "jpeg" bmp (mkImageData 3 1 0)
           (mkState [] false [] (Some (mkImageData 3 1 0)) [])).
  - reflexivity.
  - discriminate.
  - reflexivity.
Defined.

(** A name that does not end in a dot followed by one character or more
    other than slash and dot is kept whole: no dot at all, a dot at the
    very end, or a slash after the last dot. *)
Theorem replace_extension_keeps_other_names (name : string) :
  (∀ stem ext, name = (stem ++ "." ++ ext)%string →
               ext = "" ∨ plain ext = false) →
  replace_extension name = name.
Proof.
  induction name as [|c name IH]; intros Hnone; [done|].
  cbn [replace_extension].
  destruct (Ascii.eqb_spec c ".") as [->|Hc].
  - destruct (String.eqb_spec name "") as [->|Hname]; [done|].
    destruct (plain name) eqn:Hplain.
    + destruct (Hnone "" name eq_refl); congruence.
    + cbn. f_equal. apply IH. intros stem ext ->.
      apply (Hnone (String "." stem) ext). reflexivity.
  - cbn. f_equal. apply IH. intros stem ext ->.
    apply (Hnone (String c stem) ext). reflexivity.
Qed.

Lemma app_dot_cases (name stem ext : string) :
  name = (stem ++ "." ++ ext)%string →
  match name with
  | EmptyString => False
  | String c rest =>
      (c = "."%char ∧ ext = rest) ∨
      ∃ stem', rest = (stem' ++ "." ++ ext)%string
  end.
Proof.
  intros ->. destruct stem as [|c stem].
  - left. done.
  - right. by exists stem.
Qed.

Lemma no_extension_after_slash stem ext :
  "v1.2/scan" = (stem ++ "." ++ ext)%string → ext = "" ∨ plain ext = false.
Proof.
  intros Heq.
  repeat (apply app_dot_cases in Heq as [[Hc ->]|[? Heq]];
          [first [discriminate Hc|by right]|]).
  by apply app_dot_cases in Heq.
Qed.

Lemma replace_extension_keeps_other_names_witness :
  replace_extension "v1.2/scan" = "v1.2/scan".
Proof.
  apply (replace_extension_keeps_other_names "v1.2/scan").
  apply no_extension_after_slash.
Defined.

(** What Download gives after a run that came back.  After a success it
    is the image just made.  After a failure it is whatever it was before
    the run, error or image, and the bytes of that image are as they
    were: a failed run leaves the earlier result downloadable. *)
Theorem download_after_run s img section s' r originalImage f ctx blob :
  processImage (Some img) (Some section) s = Ret s' r →
  (toasts s' = toasts s ++ [success_toast] ∧
   ∀ originalName,
     originalImage = Some originalName → ctx = true → blob = true →
     downloadImage originalImage f ctx blob s'
     = Download (mkImageData (width img) (height img) (length (heap s)))
         (mimeType f) (quality f)
         (replace_extension originalName ++ "_processed." ++ extension f)%string) ∨
  (toasts s' = toasts s ++ [failure_toast] ∧
   downloadImage originalImage f ctx blob s'
   = downloadImage originalImage f ctx blob s ∧
   ∀ image bytes,
     processedImageData s = Some image →
     heap s !! data image = Some bytes →
     heap s' !! data image = Some bytes).
Proof.
  intros Hrun.
  pose proof (processImage_keeps_heap _ _ _ _ _ Hrun) as Hheap.
  set (s1 := mkState (heap s) true (progress_log s ++ [0%Q])
                     (processedImageData s) (toasts s)).
  change (try_catch_finally (process_body img section)
            (λ _, show_toast (toast_error "Failed to process image"))
            (setProcessing false ;; setProgress 0%Q) s1 = Ret s' r) in Hrun.
  pose proof (process_body_outcome img section s1) as Hbody.
  unfold try_catch_finally in Hrun.
  destruct (process_body img section s1) as [s2 a|s2 e|]; [| |done].
  - destruct Hbody as (Ht & Hp & _).
    injection Hrun as <- _. left. cbn. split; [done|].
    intros originalName -> -> ->. unfold downloadImage. cbn. by rewrite Hp.
  - destruct Hbody as (Ht & Hp & _).
    injection Hrun as <- _. right. cbn. split; [by rewrite Ht|]. split.
    + unfold downloadImage. cbn. by rewrite Hp.
    + intros image bytes _. apply Hheap.
Qed.

Lemma download_after_run_witness :
  ∃ s',
    processImage (Some (mkImageData 3 1 0))
                 (Some (mkSection "short" 3 [Num 1; Num 2]))
                 (mkState [pixels_ABC; pixels_CAB] false []
                    (Some (mkImageData 3 1 1)) []) = Ret s' tt ∧
    ((toasts s' = [] ++ [success_toast] ∧
      ∀ originalName,
        Some "scan.png" = Some originalName → true = true → true = true →
        downloadImage (Some "scan.png") jpg true true s'
        = Download (mkImageData 3 1 2) (mimeType jpg) (quality jpg)
            (replace_extension originalName ++ "_processed."
             ++ extension jpg)%string) ∨
     (toasts s' = [] ++ [failure_toast] ∧
      downloadImage (Some "scan.png") jpg true true s'
      = downloadImage (Some "scan.png") jpg true true
          (mkState [pixels_ABC; pixels_CAB] false []
             (Some (mkImageData 3 1 1)) []) ∧
      ∀ image bytes,
        Some (mkImageData 3 1 1) = Some image →
        [pixels_ABC; pixels_CAB] !! data image = Some bytes →
        heap s' !! data image = Some bytes)).
Proof.
  eexists. split; [vm_compute; reflexivity|].
  apply (download_after_run
           (mkState [pixels_ABC; pixels_CAB] false []
              (Some (mkImageData 3 1 1)) [])
           (mkImageData 3 1 0) (mkSection "short" 3 [Num 1; Num 2]) _ tt
           (Some "scan.png") jpg true true).
  vm_compute. reflexivity.
Defined.
